(** * RePyability: risk sets, non-parametric estimators, Turnbull masses,
      rank adjustment, plotting positions and rank-regression fitters.

    A shallow embedding of [repyability.py].

    Modelling conventions.
    - Python exceptions are the constructors of [exn]; a function that can
      raise returns a [result].  Optional arguments ([censored=None],
      [counts=None]) are [option]s, and a Python [None] result is [None].
    - Integer arrays are [list Z]; their entries stand for int64 values.
      Arrays of times are lists over any type with a decidable total
      order and a kind of dtype (class [Ordered]), instantiated at [Z]
      (an int64 array) and at the rationals [Qc] (a float64 array).
    - With [counts] the integers of a call are sums, products and
      differences of the caller's counts: they are computed as numpy
      computes them in int64, with wrap-around ([int64]).  Without
      [counts] they are numbers of entries of [x] (the censoring codes
      being the library's -1, 0 and 1), an array has fewer than [2^63]
      entries, and the integers are kept exact.
    - An array made by [np.zeros_like(x)] has the dtype of [x]: for float
      times the columns [c] and, when censoring codes are given, [d] are
      float64 arrays that hold whole numbers ([d_floating]); their
      entries stay in [list Z].
    - float64 values are idealised ([npfloat]): the finite ones are exact
      rationals, and numpy's [inf] and [nan] are kept, so that division by
      zero behaves as in numpy.  Rounding is not modelled.
    - [/] is Python 3's true division.
    - [np.argsort] is the stable insertion sort on keys; numpy leaves the
      order of equal keys open, and no property below depends on it
      beyond [argsort_perm]. *)

From Stdlib Require Import String.
From Stdlib Require Import List ZArith QArith Qcanon Lia Lqa Bool Permutation Sorted.
From Stdlib Require PrimFloat Uint63.
Import ListNotations.

Set Implicit Arguments.

(** ** Exceptions and results *)

Inductive exn : Type :=
| TypeError
| IndexError
| ZeroDivisionError
| UnboundLocalError
| Exception (msg : string).

Inductive result (A : Type) : Type :=
| Ok (a : A)
| Raise (e : exn).

Arguments Ok {A} a.
Arguments Raise {A} e.

Definition bind {A B : Type} (m : result A) (k : A -> result B) : result B :=
  match m with
  | Ok a => k a
  | Raise e => Raise e
  end.

Declare Scope py_scope.
Delimit Scope py_scope with py.
Notation "x <- m ;; k" := (bind m (fun x => k))
  (at level 61, m at next level, right associativity) : py_scope.
Open Scope py_scope.

(** [a[i]] for a non-negative index. *)
Definition getitem {A : Type} (a : list A) (i : nat) : result A :=
  match nth_error a i with
  | Some v => Ok v
  | None => Raise IndexError
  end.

(** [a[idx]] for an index array [idx] (fancy indexing). *)
Fixpoint take {A : Type} (a : list A) (idx : list nat) : result (list A) :=
  match idx with
  | [] => Ok []
  | i :: idx' =>
      v <- getitem a i ;;
      vs <- take a idx' ;;
      Ok (v :: vs)
  end.

(** [np.sum] and [np.cumsum] of an integer array. *)
Definition zsum (l : list Z) : Z := fold_right Z.add 0%Z l.

Fixpoint cumsum_from (acc : Z) (l : list Z) : list Z :=
  match l with
  | [] => []
  | v :: l' => (acc + v)%Z :: cumsum_from (acc + v) l'
  end.

Definition cumsum (l : list Z) : list Z := cumsum_from 0 l.

(** ** int64 arithmetic *)

(** What an int64 keeps of an integer: numpy wraps around. *)
Definition int64 (z : Z) : Z := ((z + 2 ^ 63) mod 2 ^ 64 - 2 ^ 63)%Z.

Arguments int64 z : simpl never.

(** [np.cumsum] of an int64 array. *)
Fixpoint cumsum64_from (acc : Z) (l : list Z) : list Z :=
  match l with
  | [] => []
  | v :: l' => int64 (acc + v) :: cumsum64_from (int64 (acc + v)) l'
  end.

Definition cumsum64 (l : list Z) : list Z := cumsum64_from 0 l.

(** ** Ordered element types *)

(** The element type of an array of times: its order, and whether its
    dtype is a floating one. *)
Class Ordered (T : Type) : Type := {
  leb : T -> T -> bool;
  floating : bool;
  leb_total : forall a b, leb a b = true \/ leb b a = true;
  leb_trans : forall a b c, leb a b = true -> leb b c = true -> leb a c = true;
  leb_antisym : forall a b, leb a b = true -> leb b a = true -> a = b
}.

#[export] Instance Ordered_Z : Ordered Z.
Proof.
  refine {| leb := Z.leb; floating := false |}.
  - intros a b. rewrite !Z.leb_le. lia.
  - intros a b c. rewrite !Z.leb_le. lia.
  - intros a b. rewrite !Z.leb_le. lia.
Defined.

Definition Qc_leb (a b : Qc) : bool := Qle_bool a b.

#[export] Instance Ordered_Qc : Ordered Qc.
Proof.
  refine {| leb := Qc_leb; floating := true |}; unfold Qc_leb.
  - intros a b. rewrite !Qle_bool_iff.
    destruct (Qlt_le_dec a b) as [H | H]; [left; apply Qlt_le_weak, H | right; exact H].
  - intros a b c. rewrite !Qle_bool_iff. apply Qle_trans.
  - intros a b. rewrite !Qle_bool_iff. intros H1 H2.
    apply Qc_is_canon, Qle_antisym; assumption.
Defined.

Section Arrays.

Context {T : Type} `{Ordered T}.

(** [a == b] on elements. *)
Definition eqb (a b : T) : bool := leb a b && leb b a.

(** [a < b] on elements. *)
Definition ltb (a b : T) : Prop := leb b a = false.

(** [np.unique(x)]: the sorted distinct values. *)
Fixpoint uinsert (a : T) (l : list T) : list T :=
  match l with
  | [] => [a]
  | b :: l' =>
      if leb a b then (if leb b a then l else a :: l)
      else b :: uinsert a l'
  end.

Definition np_unique (x : list T) : list T := fold_right uinsert [] x.

(** The counts of [np.unique(x, return_counts=True)]. *)
Definition count_of (x : list T) (u : T) : Z :=
  Z.of_nat (length (filter (eqb u) x)).

Definition np_unique_counts (x : list T) : list T * list Z :=
  let u := np_unique x in (u, map (count_of x) u).

(** [np.argsort(x)]. *)
Fixpoint insert_key (p : T * nat) (l : list (T * nat)) : list (T * nat) :=
  match l with
  | [] => [p]
  | q :: l' =>
      if leb (fst p) (fst q) then p :: l else q :: insert_key p l'
  end.

Definition argsort (x : list T) : list nat :=
  map snd (fold_right insert_key [] (combine x (seq 0 (length x)))).

(** [d[x == ti] += v]. *)
Definition add_at (x : list T) (ti : T) (v : Z) (d : list Z) : list Z :=
  map (fun xd => if eqb (fst xd) ti then (snd xd + v)%Z else snd xd)
      (combine x d).

Definition zeros_like (x : list T) : list Z := repeat 0%Z (length x).

(** ** The risk-set builder *)

Record table : Type := Table {
  tx : list T;
  tr : list Z;
  tc : list Z;
  td : list Z
}.

(** The loop [for i in range(len(t))] of the censored branches;
    [weight i] is [1] without counts and [counts[i]] with them. *)
Fixpoint accumulate (x t : list T) (censored : list Z)
         (weight : nat -> result Z) (ixs : list nat) (d c : list Z)
  : result (list Z * list Z) :=
  match ixs with
  | [] => Ok (d, c)
  | i :: ixs' =>
      ti <- getitem t i ;;
      ci <- getitem censored i ;;
      w <- weight i ;;
      accumulate x t censored weight ixs'
                 (add_at x ti ((1 - ci) * w) d)
                 (add_at x ti (ci * w) c)
  end.

(** What an array with the dtype of [x] keeps of an integer: an int64
    array wraps around, a float64 array (idealised) keeps the number. *)
Definition store (z : Z) : Z := if @floating T _ then z else int64 z.

(** [d[x == ti] += v] on the arrays of the branch with censoring codes
    and counts. *)
Definition add_at_counts (x : list T) (ti : T) (v : Z) (d : list Z)
  : list Z :=
  map (fun xd => if eqb (fst xd) ti then store (snd xd + v) else snd xd)
      (combine x d).

(** The loop [for i in range(len(t))] of that branch: the increments
    [(1-censored[i])*counts[i]] and [censored[i]*counts[i]] are int64
    numbers. *)
Fixpoint accumulate_counts (x t : list T) (censored counts : list Z)
         (ixs : list nat) (d c : list Z) : result (list Z * list Z) :=
  match ixs with
  | [] => Ok (d, c)
  | i :: ixs' =>
      ti <- getitem t i ;;
      ci <- getitem censored i ;;
      w <- getitem counts i ;;
      accumulate_counts x t censored counts ixs'
                        (add_at_counts x ti (int64 (int64 (1 - ci) * w)) d)
                        (add_at_counts x ti (int64 (ci * w)) c)
  end.

(** The weights handed out by the loop over an index list. *)
Definition weights (weight : nat -> result Z) (ixs : list nat) : Z :=
  zsum (map (fun i => match weight i with Ok w => w | Raise _ => 0%Z end)
            ixs).

(** [r = np.repeat(N, len(d))] followed by
    [r[1::] = r[1::] - np.cumsum(d)[0:-1] - np.cumsum(c)[0:-1]]. *)
Fixpoint sub3 (a b c : list Z) : list Z :=
  match a, b, c with
  | u :: a', v :: b', w :: c' => (u - v - w)%Z :: sub3 a' b' c'
  | _, _, _ => []
  end.

Definition risk_set (N : Z) (d c : list Z) : list Z :=
  let r := repeat N (length d) in
  firstn 1 r ++ sub3 (skipn 1 r) (removelast (cumsum d)) (removelast (cumsum c)).

(** The same two lines on int64 arrays.  Where [c] is a float array the
    difference is formed in float64 and converted back on assignment:
    the same whole number while it is an int64 (a float64 outside the
    int64 range has no defined conversion; the model wraps there as
    well). *)
Fixpoint sub3_64 (a b c : list Z) : list Z :=
  match a, b, c with
  | u :: a', v :: b', w :: c' =>
      int64 (int64 (u - v) - w) :: sub3_64 a' b' c'
  | _, _, _ => []
  end.

Definition risk_set64 (N : Z) (d c : list Z) : list Z :=
  let r := repeat N (length d) in
  firstn 1 r
  ++ sub3_64 (skipn 1 r) (removelast (cumsum64 d)) (removelast (cumsum64 c)).

(** The recurrence of the comment [r = n(i-1) - d(i-1) - c(i-1)],
    started at [r]. *)
Fixpoint risk_recurrence (r : Z) (d c : list Z) : list Z :=
  match d, c with
  | d0 :: d', c0 :: c' => r :: risk_recurrence (r - d0 - c0) d' c'
  | _, _ => []
  end.

(** Input with aligned arrays, censoring codes 0 or 1 and counts that
    are not negative. *)
Definition aligned (x : list T) (censored counts : option (list Z)) : Prop :=
  (forall c, censored = Some c -> length c = length x) /\
  (forall k, counts = Some k -> length k = length x).

Definition valid_input (x : list T) (censored counts : option (list Z))
  : Prop :=
  aligned x censored counts /\
  (forall c, censored = Some c -> Forall (fun v => v = 0 \/ v = 1)%Z c) /\
  (forall k, counts = Some k -> Forall (fun v => 0 <= v)%Z k).

Definition get_r_c_d (x : list T) (censored counts : option (list Z))
  : result table :=
  let N := match counts with
           | None => Z.of_nat (length x)
           | Some cnt => int64 (zsum cnt)
           end in
  xdc <-
    match censored with
    | None =>
        match counts with
        | None =>
            let '(x, d) := np_unique_counts x in
            Ok (x, d, zeros_like x)
        | Some counts =>
            let idx := argsort x in
            x <- take x idx ;;
            d <- take counts idx ;;
            Ok (x, d, zeros_like x)
        end
    | Some censored =>
        match counts with
        | None =>
            let t := x in
            let x := np_unique t in
            let d := zeros_like x in
            let c := zeros_like x in
            dc <- accumulate x t censored (fun _ => Ok 1%Z)
                             (seq 0 (length t)) d c ;;
            Ok (x, fst dc, snd dc)
        | Some counts =>
            let idx := argsort x in
            x <- take x idx ;;
            counts <- take counts idx ;;
            censored <- take censored idx ;;
            let t := x in
            let x := np_unique t in
            let d := zeros_like x in
            let c := zeros_like x in
            dc <- accumulate_counts x t censored counts
                                    (seq 0 (length t)) d c ;;
            Ok (x, fst dc, snd dc)
        end
    end ;;
  let '(x, d, c) := xdc in
  let r := match counts with
           | None => risk_set N d c
           | Some _ => risk_set64 N d c
           end in
  Ok (Table x r c d).

(** The dtype of the column [d]: that of [x] where [d] starts as
    [np.zeros_like(x)], an integer one where it holds the counts of
    [np.unique] or [counts[idx]]. *)
Definition d_floating (censored : option (list Z)) : bool :=
  match censored with
  | Some _ => @floating T _
  | None => false
  end.

(** Counts whose total the arithmetic of the builder holds exactly:
    below [2^63] in int64, below [2^53] where float64 arrays take
    part. *)
Definition exact_range : Z :=
  if @floating T _ then (2 ^ 53)%Z else (2 ^ 63)%Z.

Definition no_overflow (counts : option (list Z)) : Prop :=
  forall k, counts = Some k -> (zsum k < exact_range)%Z.

End Arrays.

Arguments table T : clear implicits.


(** ** Idealised float64 values *)

Inductive npfloat : Type :=
| Fin (q : Qc)
| Inf (neg : bool)
| NaN.

Definition qzero (q : Qc) : bool := (Qnum q =? 0)%Z.
Definition qneg (q : Qc) : bool := (Qnum q <? 0)%Z.

Definition of_Q (q : Q) : npfloat := Fin (Q2Qc q).
Definition of_Z (z : Z) : npfloat := of_Q (inject_Z z).
Definition of_nat (n : nat) : npfloat := of_Z (Z.of_nat n).

Definition fneg (a : npfloat) : npfloat :=
  match a with
  | Fin q => Fin (- q)
  | Inf s => Inf (negb s)
  | NaN => NaN
  end.

Definition fadd (a b : npfloat) : npfloat :=
  match a, b with
  | Fin p, Fin q => Fin (p + q)
  | Fin _, Inf s => Inf s
  | Inf s, Fin _ => Inf s
  | Inf s, Inf s' => if Bool.eqb s s' then Inf s else NaN
  | _, _ => NaN
  end.

Definition fsub (a b : npfloat) : npfloat := fadd a (fneg b).

Definition fmul (a b : npfloat) : npfloat :=
  match a, b with
  | Fin p, Fin q => Fin (p * q)
  | Fin p, Inf s => if qzero p then NaN else Inf (xorb (qneg p) s)
  | Inf s, Fin q => if qzero q then NaN else Inf (xorb s (qneg q))
  | Inf s, Inf s' => Inf (xorb s s')
  | _, _ => NaN
  end.

(** numpy division: [x/0] is [inf], [-inf] or [nan], with a warning only.
    A zero divisor is taken as [+0.0]. *)
Definition fdiv (a b : npfloat) : npfloat :=
  match a, b with
  | Fin p, Fin q =>
      if qzero q then (if qzero p then NaN else Inf (qneg p))
      else Fin (p / q)
  | Fin _, Inf _ => Fin 0
  | Inf s, Fin q => Inf (xorb s (qneg q))
  | _, _ => NaN
  end.

(** [np.sum], [np.cumsum] and [np.cumprod] of a float array. *)
Definition fsum (l : list npfloat) : npfloat := fold_right fadd (Fin 0) l.

Fixpoint fcumsum_from (acc : npfloat) (l : list npfloat) : list npfloat :=
  match l with
  | [] => []
  | v :: l' => fadd acc v :: fcumsum_from (fadd acc v) l'
  end.

Definition fcumsum (l : list npfloat) : list npfloat :=
  match l with
  | [] => []
  | v :: l' => v :: fcumsum_from v l'
  end.

Fixpoint fcumprod_from (acc : npfloat) (l : list npfloat) : list npfloat :=
  match l with
  | [] => []
  | v :: l' => fmul acc v :: fcumprod_from (fmul acc v) l'
  end.

Definition fcumprod (l : list npfloat) : list npfloat :=
  match l with
  | [] => []
  | v :: l' => v :: fcumprod_from v l'
  end.

(** Elementwise operation on two arrays of one shape. *)
Fixpoint map2 {A B C : Type} (f : A -> B -> C) (a : list A) (b : list B)
  : list C :=
  match a, b with
  | u :: a', v :: b' => f u v :: map2 f a' b'
  | _, _ => []
  end.

(** [range(k)] for an integer [k]; empty when [k <= 0]. *)
Definition range (k : Z) : list Z := map Z.of_nat (seq 0 (Z.to_nat k)).

(** ** Non-parametric estimators *)

(** The class [NonParametric]: every attribute starts as [None].  The
    attributes the estimators compute through [np.exp] or [np.log]
    ([R], [F] of Nelson-Aalen and Fleming-Harrington, [H], [h] of
    Kaplan-Meier) are outside rational arithmetic and stay unset here;
    neither [np.exp] nor [np.log] raises. *)
Record NonParametric (T : Type) : Type := mkNonParametric {
  out_R : option (list npfloat);
  out_F : option (list npfloat);
  out_h : option (list npfloat);
  out_H : option (list npfloat);
  out_d : option (list Z);
  out_N : option Z;
  out_c : option (list Z);
  out_x : option (list T);
  out_r : option (list Z);
  out_model : option string
}.

Section Estimators.

Context {T : Type} `{Ordered T}.

(** [N]: [len(x)], or [np.sum(counts)], an int64. *)
Definition population (x : list T) (counts : option (list Z)) : Z :=
  match counts with
  | None => Z.of_nat (length x)
  | Some cnt => int64 (zsum cnt)
  end.

(** [r - d] on the columns of the table: exact without counts, and with
    counts an int64 difference, or a float64 one where [d] is a float
    array. *)
Definition risk_minus (censored counts : option (list Z)) (a b : Z) : Z :=
  match counts with
  | None => (a - b)%Z
  | Some _ => if d_floating censored then (a - b)%Z else int64 (a - b)
  end.

(** [r[i] - j] for an entry of [r] and a Python integer. *)
Definition entry_minus (counts : option (list Z)) (a j : Z) : Z :=
  match counts with
  | None => (a - j)%Z
  | Some _ => int64 (a - j)
  end.

Definition nelson_aalen (x : list T) (censored counts : option (list Z))
  : result (NonParametric T) :=
  let N := population x counts in
  tbl <- get_r_c_d x censored counts ;;
  let '(Table x r c d) := tbl in
  let h := map2 fdiv (map of_Z d) (map of_Z r) in
  let H := fcumsum h in
  Ok {| out_R := None; out_F := None; out_h := Some h; out_H := Some H;
        out_d := Some d; out_N := Some N; out_c := Some c; out_x := Some x;
        out_r := Some r; out_model := Some "Nelson-Aalen"%string |}.

Definition kaplan_meier (x : list T) (censored counts : option (list Z))
  : result (NonParametric T) :=
  let N := population x counts in
  tbl <- get_r_c_d x censored counts ;;
  let '(Table x r c d) := tbl in
  let R := fcumprod (map2 fdiv
                          (map of_Z (map2 (risk_minus censored counts) r d))
                          (map of_Z r)) in
  (* [h[0] = H[0]], with [H = -np.log(R)]: fails on an empty array *)
  _ <- getitem R 0 ;;
  Ok {| out_R := Some R; out_F := Some (map (fsub (of_Z 1)) R);
        out_h := None; out_H := None;
        out_d := Some d; out_N := Some N; out_c := Some c; out_x := Some x;
        out_r := Some r; out_model := Some "Kaplan-Meier"%string |}.

(** [range(d[i])]: an entry of a float array is no integer. *)
Definition py_range (is_float : bool) (k : Z) : result (list Z) :=
  if is_float then Raise TypeError else Ok (range k).

(** [np.sum([1./(r[i]-j) for j in js])], with [minus] for [r[i]-j]. *)
Definition fh_sum (minus : Z -> Z -> Z) (ri : Z) (js : list Z) : npfloat :=
  fsum (map (fun j => fdiv (of_Z 1) (of_Z (minus ri j))) js).

(** [[np.sum([1./(r[i]-j) for j in range(d[i])])
      for i in range(len(x))]]. *)
Fixpoint fh_hazards (is_float : bool) (minus : Z -> Z -> Z) (r d : list Z)
  : result (list npfloat) :=
  match r, d with
  | ri :: r', di :: d' =>
      js <- py_range is_float di ;;
      hs <- fh_hazards is_float minus r' d' ;;
      Ok (fh_sum minus ri js :: hs)
  | _, _ => Ok []
  end.

(** The sum of one row over exact integers. *)
Definition fh_term (ri di : Z) : npfloat := fh_sum Z.sub ri (range di).

Definition fleming_harrington (x : list T) (censored counts : option (list Z))
  : result (NonParametric T) :=
  let N := population x counts in
  tbl <- get_r_c_d x censored counts ;;
  let '(Table x r c d) := tbl in
  h <- fh_hazards (d_floating censored) (entry_minus counts) r d ;;
  let H := fcumsum h in
  Ok {| out_R := None; out_F := None; out_h := Some h; out_H := Some H;
        out_d := Some d; out_N := Some N; out_c := Some c; out_x := Some x;
        out_r := Some r; out_model := Some "Fleming-Harrington"%string |}.

End Estimators.


(** The reliability column of [kaplan_meier] once more, in binary64
    proper (rounding to nearest even), to compare the idealised values
    with the rounded ones on examples; [b64 z] is meant for
    [0 <= z < 2^63]. *)
Definition b64 (z : Z) : PrimFloat.float :=
  PrimFloat.of_uint63 (Uint63.of_Z z).

Fixpoint cumprod64_from (acc : PrimFloat.float) (l : list PrimFloat.float)
  : list PrimFloat.float :=
  match l with
  | [] => []
  | v :: l' => PrimFloat.mul acc v :: cumprod64_from (PrimFloat.mul acc v) l'
  end.

Definition cumprod64 (l : list PrimFloat.float) : list PrimFloat.float :=
  match l with
  | [] => []
  | v :: l' => v :: cumprod64_from v l'
  end.

Definition kaplan_meier_R64 (r d : list Z) : list PrimFloat.float :=
  cumprod64 (map2 PrimFloat.div (map b64 (map2 Z.sub r d)) (map b64 r)).

(** ** The Turnbull pass *)

Definition of_bool (b : bool) : npfloat := if b then of_Z 1 else of_Z 0.

(** [1./m] on Python numbers: a zero divisor raises. *)
Definition py_inv (m : nat) : result npfloat :=
  match m with
  | O => Raise ZeroDivisionError
  | S _ => Ok (fdiv (of_Z 1) (of_nat m))
  end.

Section Turnbull.

Context {T : Type} `{Ordered T}.

(** Row [i] of [alphas]:
    [int((lower[i] <= x[j]) and (upper[i] >= x[j]))] for each [j]. *)
Definition alpha_row (x : list T) (lo up : T) : list npfloat :=
  map (fun xj => of_bool (leb lo xj && leb xj up)) x.

Fixpoint alpha_rows (x lower upper : list T) (ixs : list nat)
  : result (list (list npfloat)) :=
  match ixs with
  | [] => Ok []
  | i :: ixs' =>
      lo <- getitem lower i ;;
      up <- getitem upper i ;;
      rows <- alpha_rows x lower upper ixs' ;;
      Ok (alpha_row x lo up :: rows)
  end.

(** The inner loop over [k]: [denominator += alphas[i, k] * p[k]]
    from [denominator = 0]. *)
Definition denominator (row p : list npfloat) : npfloat :=
  fold_left fadd (map2 fmul row p) (of_Z 0).

(** [dd[i] = numerator / denominator] for one [j] and one row. *)
Definition contribution (p : list npfloat) (j : nat) (row : list npfloat)
  : npfloat :=
  let numerator := fmul (nth j row NaN) (nth j p NaN) in
  fdiv numerator (denominator row p).

Definition turnbull (lower upper : list T)
  : result (list (list npfloat) * list npfloat) :=
  let n := length lower in
  let x := np_unique (lower ++ upper) in
  let m := length x in
  pm <- py_inv m ;;
  let p := repeat pm m in
  alphas <- alpha_rows x lower upper (seq 0 n) ;;
  let d := map (fun j => fsum (map (contribution p j) alphas)) (seq 0 m) in
  Ok (alphas, d).

End Turnbull.

(** Exact sums of rationals, the rational of a natural number, and the
    rows of [alphas] as bits, used to state what the pass computes. *)
Definition qsum (l : list Qc) : Qc := fold_right Qcplus (Q2Qc 0) l.

Definition qnat (k : nat) : Qc := Q2Qc (inject_Z (Z.of_nat k)).

Definition bit_mass (q : Qc) (b : bool) : Qc := if b then q else Q2Qc 0.

Definition good_row (m : nat) (row : list npfloat) : Prop :=
  exists bs, row = map of_bool bs /\ length bs = m /\ In true bs.

(** An interval-censored sample: one upper end per lower end, not below
    it, and at least one unit. *)
Definition valid_sample {T : Type} `{Ordered T} (lower upper : list T) : Prop :=
  lower <> [] /\ Forall2 (fun lo up => leb lo up = true) lower upper.

(** ** Rank adjustment and plotting positions *)

(** [censored[idx]]: subscripting [None] raises. *)
Definition subscript (censored : option (list Z)) (idx : list nat)
  : result (option (list Z)) :=
  match censored with
  | None => Raise TypeError
  | Some c => c' <- take c idx ;; Ok (Some c')
  end.

(** The loop [for i in range(0, n)] of [rank_adjust]; a censored entry
    gets [np.nan]. *)
Fixpoint rank_loop (n : Z) (censored : list Z) (ixs : list nat)
         (PMON : npfloat) : result (list npfloat) :=
  match ixs with
  | [] => Ok []
  | i :: ixs' =>
      ci <- getitem censored i ;;
      if (ci =? 0)%Z then
        let rank := fadd PMON (fdiv (fsub (of_Z (n + 1)) PMON)
                                    (of_Z (n - Z.of_nat i + 2))) in
        ranks <- rank_loop n censored ixs' rank ;;
        Ok (rank :: ranks)
      else
        ranks <- rank_loop n censored ixs' PMON ;;
        Ok (NaN :: ranks)
  end.

(** The [if]/[elif] chain on [formula]; [None] when no branch binds
    [A] and [B]. *)
Definition formula_constants (formula : string) : option (Q * Q) :=
  if String.eqb formula "Blom" then Some (0.375, 0.25)%Q
  else if String.eqb formula "Median" then Some (0.3, 0.4)%Q
  else if String.eqb formula "Modal" then Some (1.0, -1.0)%Q
  else if String.eqb formula "Midpoint" then Some (0.5, 0.0)%Q
  else if String.eqb formula "Mean" then Some (0.0, 1.0)%Q
  else if String.eqb formula "Weibull" then Some (0.0, 1.0)%Q
  else if String.eqb formula "Benard" then Some (0.3, 0.2)%Q
  else if String.eqb formula "Beard" then Some (0.31, 0.38)%Q
  else if String.eqb formula "Hazen" then Some (0.5, 0.0)%Q
  else if String.eqb formula "Filiben" then Some (0.3175, 1.635)%Q
  else if String.eqb formula "Gringorten" then Some (0.44, 0.12)%Q
  else if String.eqb formula "None" then Some (0.0, 0.0)%Q
  else if String.eqb formula "Tukey" then Some (1 / 3, 1 / 3)%Q
  else if String.eqb formula "DPW" then Some (1.0, 0.0)%Q
  else None.

(** The plotting-position table of the specification, name by name;
    [Mean/Weibull] stands for the two names [Mean] and [Weibull]. *)
Definition formula_table : list (string * (Q * Q)) :=
  [("Blom", (0.375, 0.25)); ("Median", (0.3, 0.4)); ("Modal", (1.0, -1.0));
   ("Midpoint", (0.5, 0.0)); ("Mean", (0.0, 1.0)); ("Weibull", (0.0, 1.0));
   ("Benard", (0.3, 0.2)); ("Beard", (0.31, 0.38)); ("Hazen", (0.5, 0.0));
   ("Filiben", (0.3175, 1.635)); ("Gringorten", (0.44, 0.12));
   ("None", (0.0, 0.0)); ("Tukey", (1 / 3, 1 / 3));
   ("DPW", (1.0, 0.0))]%Q%string.

Definition known_formula (formula : string) : Prop :=
  In formula (map fst formula_table).

Section Ranks.

Context {T : Type} `{Ordered T}.

Definition rank_adjust (t : list T) (censored : option (list Z))
  : result (list npfloat) :=
  let idx := argsort t in
  t <- take t idx ;;
  censored <- subscript censored idx ;;
  let n := length t in
  let censored := match censored with
                  | None => repeat 0%Z n
                  | Some c => c
                  end in
  rank_loop (Z.of_nat n) censored (seq 0 n) (of_Z 0).

(** The ranks of [plotting_positions]: adjusted when [censored] is
    given, [range(1, len(t) + 1)] otherwise. *)
Definition ranks_of (t : list T) (censored : option (list Z))
  : result (list npfloat) :=
  match censored with
  | Some _ => rank_adjust t censored
  | None => Ok (map of_nat (seq 1 (length t)))
  end.

(** [pp = (ranks - A)/(len(ranks) + B)]. *)
Definition positions (A B : Q) (ranks : list npfloat) : list npfloat :=
  map (fun rank => fdiv (fsub rank (of_Q A))
                        (fadd (of_nat (length ranks)) (of_Q B)))
      ranks.

Definition plotting_positions (t : list T) (censored : option (list Z))
           (formula : string) : result (list npfloat) :=
  ranks <- ranks_of t censored ;;
  AB <- match formula_constants formula with
        | Some ab => Ok ab
        | None => Raise UnboundLocalError
        end ;;
  let '(A, B) := AB in
  Ok (positions A B ranks).

End Ranks.

(** The rank that the loop gives entry [i] of [n] uncensored entries. *)
Definition mean_order_rank (n i : nat) : npfloat :=
  Fin (qnat (S i) * (qnat (S n) / qnat (S (S n)))).

(** ** Rank-regression fitters *)

(** What the fitters take from numpy, scipy and the [warnings] module
    beyond arithmetic.  The functions are left open: the fitters are
    modelled for every library.
    [np_polyfit x y] is [np.polyfit(x, y, 1)], slope first; [minimize] is
    [scipy.optimize.minimize(fun, init, bounds=bounds).x] for three
    parameters; [warnings_warn msg] is [warnings.warn(msg)], which
    reports the warning and returns, or raises it where the warning
    filters turn warnings into errors. *)
Record NumLib : Type := {
  np_log : npfloat -> npfloat;
  np_exp : npfloat -> npfloat;
  np_power : npfloat -> npfloat -> npfloat;
  np_std : list npfloat -> npfloat;
  norm_ppf : npfloat -> npfloat;
  norm_cdf : npfloat -> npfloat -> npfloat -> npfloat;
  np_polyfit : list npfloat -> list npfloat -> result (npfloat * npfloat);
  minimize : (npfloat * npfloat * npfloat -> npfloat) ->
             npfloat * npfloat * npfloat ->
             list (option npfloat * option npfloat) ->
             result (npfloat * npfloat * npfloat);
  warnings_warn : string -> result unit
}.

(** The fitters return [None], a pair or a triple. *)
Inductive fit : Type :=
| Fit2 (a b : npfloat)
| Fit3 (a b p : npfloat).

Definition np_mean (l : list npfloat) : npfloat :=
  fdiv (fsum l) (of_nat (length l)).

(** [a[censored == 0]]. *)
Definition uncensored {A : Type} (a : list A) (censored : list Z) : list A :=
  map fst (filter (fun ac => (snd ac =? 0)%Z) (combine a censored)).

Definition square (v : npfloat) : npfloat := fmul v v.

Definition rr_message : string := "rr must either be 'x' or 'y'".

Definition rrx_message : string := "RRX only used for lfp = False".

(** Censoring codes, where given, come one per time. *)
Definition censoring_aligned {A : Type} (t : list A)
           (censored : option (list Z)) : Prop :=
  match censored with
  | None => True
  | Some c => length c = length t
  end.

Section Fitters.

Variable lib : NumLib.

Definition weibull_lsq (t : list Qc) (censored : option (list Z))
           (plotting : string) (lfp : bool) (rr : string)
  : result (option fit) :=
  if (length t =? 0)%nat then Ok None else
  let censored := match censored with
                  | None => repeat 0%Z (length t)
                  | Some c => c
                  end in
  let idx := argsort t in
  t <- take t idx ;;
  censored <- take censored idx ;;
  f <- plotting_positions t (Some censored) plotting ;;
  let x := map (np_log lib) (map Fin (uncensored t censored)) in
  let y := map (fun fi => np_log lib (np_log lib
                  (fdiv (of_Z 1) (fsub (of_Z 1) fi))))
               (uncensored f censored) in
  if negb lfp then
    if String.eqb rr "y" then
      model <- np_polyfit lib x y ;;
      let beta := fst model in
      let alpha := np_exp lib (fdiv (snd model) (fneg beta)) in
      Ok (Some (Fit2 alpha beta))
    else if String.eqb rr "x" then
      model <- np_polyfit lib y x ;;
      let beta := fdiv (of_Z 1) (fst model) in
      let alpha := np_exp lib (fdiv (snd model) (fmul beta (fst model))) in
      Ok (Some (Fit2 alpha beta))
    else Ok None
  else
    _ <- (if String.eqb rr "x" then warnings_warn lib rrx_message
          else Ok tt) ;;
    let fun_ := fun '(x0, x1, x2) =>
      fsum (map2 (fun ti fi =>
                    square (fsub (fmul x0 (fsub (of_Z 1)
                      (np_exp lib (fneg (np_power lib (fdiv ti x1) x2)))))
                      fi))
                 (map Fin (uncensored t censored))
                 (uncensored f censored)) in
    let bounds := [(Some (of_Z 0), Some (of_Z 1));
                   (Some (of_Z 0), None); (Some (of_Z 0), None)] in
    res <- minimize lib fun_
             (of_Q 0.95, np_mean (map Fin t), of_Z 1) bounds ;;
    let '(p, alpha, beta) := res in
    Ok (Some (Fit3 alpha beta p)).

Definition gumbel_lsq (t : list Qc) (censored : option (list Z))
           (plotting : string) (lfp : bool) (rr : string)
  : result (option fit) :=
  if (length t =? 0)%nat then Ok None else
  let censored := match censored with
                  | None => repeat 0%Z (length t)
                  | Some c => c
                  end in
  let idx := argsort t in
  t <- take t idx ;;
  censored <- take censored idx ;;
  f <- plotting_positions t (Some censored) plotting ;;
  let x := map Fin (uncensored t censored) in
  let y := map (fun fi => fneg (np_log lib (fneg (np_log lib fi))))
               (uncensored f censored) in
  if negb lfp then
    mu_beta <-
      (if String.eqb rr "y" then
         mb <- np_polyfit lib x y ;;
         let '(m, b) := mb in
         let beta := fdiv (of_Z 1) m in
         let mu := fmul (fneg b) beta in
         Ok (mu, beta)
       else if String.eqb rr "x" then
         mb <- np_polyfit lib y x ;;
         let '(m, b) := mb in
         let beta := m in
         let mu := fdiv (fmul beta b) m in
         Ok (mu, beta)
       else Raise (Exception rr_message)) ;;
    Ok (Some (Fit2 (fst mu_beta) (snd mu_beta)))
  else
    _ <- (if String.eqb rr "x" then warnings_warn lib rrx_message
          else Ok tt) ;;
    let fun_ := fun '(p0, p1, p2) =>
      fsum (map2 (fun xi fi =>
                    square (fsub (fmul p0
                      (np_exp lib (fneg (np_exp lib
                         (fdiv (fneg (fsub xi p1)) p2)))))
                      fi))
                 x (uncensored f censored)) in
    let bounds := [(Some (of_Z 0), Some (of_Z 1));
                   (None, None); (Some (of_Z 0), None)] in
    let init := (of_Q 0.5, np_mean (map Fin t), np_std lib (map Fin t)) in
    res <- minimize lib fun_ init bounds ;;
    let '(p, mu, beta) := res in
    Ok (Some (Fit3 mu beta p)).

Definition normal_lsq (t : list Qc) (censored : option (list Z))
           (plotting : string) (lfp : bool) (rr : string)
  : result (option fit) :=
  if (length t =? 0)%nat then Ok None else
  let censored := match censored with
                  | None => repeat 0%Z (length t)
                  | Some c => c
                  end in
  let idx := argsort t in
  t <- take t idx ;;
  censored <- take censored idx ;;
  f <- plotting_positions t (Some censored) plotting ;;
  let x := map Fin (uncensored t censored) in
  let y := map (norm_ppf lib) (uncensored f censored) in
  if negb lfp then
    mu_sigma <-
      (if String.eqb rr "y" then
         mb <- np_polyfit lib x y ;;
         let '(m, b) := mb in
         let sigma := fdiv (of_Z 1) m in
         let mu := fmul (fneg b) sigma in
         Ok (mu, sigma)
       else if String.eqb rr "x" then
         mb <- np_polyfit lib y x ;;
         let '(m, b) := mb in
         let sigma := m in
         let mu := fdiv (fmul sigma b) m in
         Ok (mu, sigma)
       else Raise (Exception rr_message)) ;;
    Ok (Some (Fit2 (fst mu_sigma) (snd mu_sigma)))
  else
    _ <- (if String.eqb rr "x" then warnings_warn lib rrx_message
          else Ok tt) ;;
    let fun_ := fun '(p0, p1, p2) =>
      fsum (map2 (fun xi fi =>
                    square (fsub (fmul p0 (norm_cdf lib xi p1 p2)) fi))
                 x (uncensored f censored)) in
    let bounds := [(Some (of_Z 0), Some (of_Z 1));
                   (None, None); (Some (of_Z 0), None)] in
    let init := (of_Q 0.5, np_mean (map Fin t), np_std lib (map Fin t)) in
    res <- minimize lib fun_ init bounds ;;
    let '(p, mu, sigma) := res in
    Ok (Some (Fit3 mu sigma p)).

End Fitters.

(** A library instance on which the fitters can be run: the open functions
    answer [nan], [np.polyfit] rejects an empty [x] with numpy's
    [TypeError], and [warnings.warn] returns. *)
Definition nan_lib : NumLib := {|
  np_log := fun _ => NaN;
  np_exp := fun _ => NaN;
  np_power := fun _ _ => NaN;
  np_std := fun _ => NaN;
  norm_ppf := fun _ => NaN;
  norm_cdf := fun _ _ _ => NaN;
  np_polyfit := fun x _ => match x with
                           | [] => Raise TypeError
                           | _ => Ok (NaN, NaN)
                           end;
  minimize := fun _ init _ => Ok init;
  warnings_warn := fun _ => Ok tt
|}.


(** ** Notions used to state further properties *)

(** What the loop of the censored branches adds at the time [xj] over an
    index list: [f ci wi] for every entry [i] recorded at [xj]. *)
Definition tally {T : Type} `{Ordered T} (t : list T) (censored : list Z)
           (weight : nat -> result Z) (f : Z -> Z -> Z) (ixs : list nat)
           (xj : T) : Z :=
  zsum (map (fun i => match nth_error t i, nth_error censored i, weight i with
                      | Some ti, Some ci, Ok wi =>
                          if eqb xj ti then f ci wi else 0%Z
                      | _, _, _ => 0%Z
                      end) ixs).

(** The recurrence of the comment once more, on int64 numbers. *)
Fixpoint risk_recurrence64 (r : Z) (d c : list Z) : list Z :=
  match d, c with
  | d0 :: d', c0 :: c' => r :: risk_recurrence64 (int64 (r - d0 - c0)) d' c'
  | _, _ => []
  end.

(** The rational of an integer. *)
Definition qz (z : Z) : Qc := Q2Qc (inject_Z z).

(** The ranks that are numbers, in order, and what a rank is at a code. *)
Definition finite_values (l : list npfloat) : list Qc :=
  flat_map (fun v => match v with Fin q => [q] | _ => [] end) l.

Definition rank_at_code (ci : Z) (v : npfloat) : Prop :=
  (ci = 0%Z /\ exists q, v = Fin q) \/ (ci <> 0%Z /\ v = NaN).

(** * Properties *)

(** ** Evaluating idealised floats *)

Lemma Fin_eq (p q : Qc) : Qeq_bool p q = true -> Fin p = Fin q.
Proof.
  intros E. f_equal. apply Qc_is_canon, Qeq_bool_iff, E.
Qed.

Ltac fin_list :=
  repeat match goal with
         | |- Some _ = Some _ => apply f_equal
         | |- Ok _ = Ok _ => apply f_equal
         | |- (_ :: _) = (_ :: _) => apply f_equal2
         | |- Fin _ = Fin _ => apply Fin_eq; vm_compute; reflexivity
         | |- _ => reflexivity
         end.

(** ** Sorting and indexing *)

Lemma getitem_Some {A : Type} (a : list A) i v :
  nth_error a i = Some v -> getitem a i = Ok v.
Proof. unfold getitem. intros ->. reflexivity. Qed.

Lemma take_spec {A : Type} (a : list A) (idx : list nat) :
  Forall (fun i => (i < length a)%nat) idx ->
  exists l, take a idx = Ok l /\ map Some l = map (nth_error a) idx.
Proof.
  induction 1 as [| i idx Hi _ IH]; simpl.
  - exists []. split; reflexivity.
  - destruct IH as [l [Hl Hm]].
    destruct (nth_error a i) as [v |] eqn:E.
    + exists (v :: l). rewrite (getitem_Some _ _ E), Hl. simpl.
      rewrite Hm. split; reflexivity.
    + apply nth_error_None in E. lia.
Qed.

Lemma take_raises {A : Type} (a : list A) (idx : list nat) e :
  take a idx = Raise e -> e = IndexError.
Proof.
  induction idx as [| i idx IH]; simpl; [discriminate |].
  unfold getitem. destruct (nth_error a i); simpl.
  - destruct (take a idx); simpl; [discriminate |].
    intros E. injection E as <-. apply IH. reflexivity.
  - intros E. injection E as <-. reflexivity.
Qed.

Lemma map_nth_error_seq {A : Type} (a : list A) :
  map (nth_error a) (seq 0 (length a)) = map Some a.
Proof.
  induction a as [| v a IH]; simpl; [reflexivity |].
  f_equal. rewrite <- seq_shift, map_map. simpl. exact IH.
Qed.

Lemma map_Some_inj {A : Type} (l l' : list A) :
  map Some l = map Some l' -> l = l'.
Proof.
  revert l'. induction l as [| v l IH]; intros [| v' l']; simpl;
    try discriminate; [reflexivity |].
  intros E. injection E as -> E. f_equal. apply IH, E.
Qed.

Lemma take_out_of_range {A : Type} (a : list A) (idx : list nat) i :
  In i idx -> (length a <= i)%nat -> take a idx = Raise IndexError.
Proof.
  intros I L.
  destruct (take a idx) as [l | e] eqn:E.
  - exfalso. revert l E. induction idx as [| j idx IH]; [contradiction |].
    intros l. cbn [take]. unfold getitem.
    destruct (nth_error a j) eqn:Ej; cbn [bind]; [| discriminate].
    destruct (take a idx) as [l' |]; cbn [bind]; [| discriminate].
    intros _. destruct I as [-> | I].
    + apply nth_error_None in L. congruence.
    + apply (IH I l'). reflexivity.
  - rewrite (take_raises _ _ E). reflexivity.
Qed.

Lemma take_perm {A : Type} (a : list A) (idx : list nat) :
  Permutation idx (seq 0 (length a)) ->
  exists l, take a idx = Ok l /\ Permutation l a.
Proof.
  intros P.
  assert (R : Forall (fun i => (i < length a)%nat) idx).
  { apply Forall_forall. intros i Hi.
    apply (Permutation_in _ P), in_seq in Hi. lia. }
  destruct (take_spec a R) as [l [Hl Hm]].
  exists l. split; [exact Hl |].
  assert (Q : Permutation (map Some l) (map Some a)).
  { rewrite Hm, <- map_nth_error_seq. apply Permutation_map, P. }
  apply Permutation_sym, Permutation_map_inv in Q.
  destruct Q as [l3 [E Q]]. apply map_Some_inj in E. subst l3.
  exact Q.
Qed.

Lemma take_length {A : Type} (a : list A) (idx : list nat) l :
  take a idx = Ok l -> length l = length idx.
Proof.
  revert l. induction idx as [| i idx IH]; simpl; intros l.
  - intros E. injection E as <-. reflexivity.
  - destruct (getitem a i); simpl; [| discriminate].
    destruct (take a idx); simpl; [| discriminate].
    intros E. injection E as <-. simpl. f_equal. apply IH. reflexivity.
Qed.

Section OrderFacts.

Context {T : Type} `{Ordered T}.

Lemma leb_refl (a : T) : leb a a = true.
Proof. destruct (leb_total a a); assumption. Qed.

Lemma eqb_eq (a b : T) : eqb a b = true <-> a = b.
Proof.
  unfold eqb. rewrite andb_true_iff. split.
  - intros [H1 H2]. apply leb_antisym; assumption.
  - intros ->. split; apply leb_refl.
Qed.

Lemma insert_key_perm (p : T * nat) l :
  Permutation (insert_key p l) (p :: l).
Proof.
  induction l as [| q l IH]; simpl; [reflexivity |].
  destruct (leb (fst p) (fst q)); [reflexivity |].
  rewrite IH. apply perm_swap.
Qed.

Lemma argsort_perm (x : list T) :
  Permutation (argsort x) (seq 0 (length x)).
Proof.
  unfold argsort.
  assert (P : forall l : list (T * nat),
             Permutation (fold_right insert_key [] l) l).
  { induction l as [| p l IH]; simpl; [reflexivity |].
    rewrite insert_key_perm. constructor. exact IH. }
  rewrite (Permutation_map snd (P _)).
  assert (E : forall (l : list T) k,
             map snd (combine l (seq k (length l))) = seq k (length l)).
  { induction l as [| a l IH]; intros k; simpl; [reflexivity |].
    f_equal. apply IH. }
  rewrite E. reflexivity.
Qed.

Lemma argsort_length (x : list T) : length (argsort x) = length x.
Proof.
  rewrite (Permutation_length (argsort_perm x)). apply length_seq.
Qed.

(** [np.unique] keeps exactly the values of its argument, in strictly
    increasing order. *)
Lemma uinsert_In (a b : T) l : In a (uinsert b l) <-> a = b \/ In a l.
Proof.
  induction l as [| c l IH]; simpl.
  - intuition.
  - destruct (leb b c) eqn:E1.
    + destruct (leb c b) eqn:E2; simpl.
      * assert (b = c) by (apply leb_antisym; assumption). subst.
        intuition.
      * intuition.
    + simpl. rewrite IH. intuition.
Qed.

Lemma np_unique_In (a : T) x : In a (np_unique x) <-> In a x.
Proof.
  induction x as [| b x IH]; simpl; [reflexivity |].
  rewrite uinsert_In, IH. intuition.
Qed.

Lemma uinsert_sorted (a : T) l :
  StronglySorted ltb l -> StronglySorted ltb (uinsert a l).
Proof.
  induction 1 as [| c l Hs IH Hc]; simpl.
  - repeat constructor.
  - destruct (leb a c) eqn:E1.
    + destruct (leb c a) eqn:E2.
      * constructor; assumption.
      * constructor; [constructor; assumption |].
        constructor; [exact E2 |].
        apply Forall_forall. intros e He.
        rewrite Forall_forall in Hc. specialize (Hc e He).
        unfold ltb in *. destruct (leb e a) eqn:E3; [| reflexivity].
        rewrite (leb_trans _ _ _ E3 E1) in Hc. discriminate.
    + constructor; [exact IH |].
      apply Forall_forall. intros e He.
      apply uinsert_In in He. destruct He as [-> | He].
      * exact E1.
      * rewrite Forall_forall in Hc. apply Hc, He.
Qed.

Lemma np_unique_sorted (x : list T) : StronglySorted ltb (np_unique x).
Proof.
  induction x as [| a x IH]; simpl; [constructor |].
  apply uinsert_sorted, IH.
Qed.

Lemma np_unique_NoDup (x : list T) : NoDup (np_unique x).
Proof.
  generalize (np_unique_sorted x).
  induction 1 as [| c l Hs IH Hc]; constructor; [| exact IH].
  intros Hin. rewrite Forall_forall in Hc. specialize (Hc c Hin).
  unfold ltb in Hc. rewrite leb_refl in Hc. discriminate.
Qed.

End OrderFacts.

(** ** The risk set *)

Lemma risk_set_recurrence (N : Z) (d c : list Z) :
  length d = length c -> risk_set N d c = risk_recurrence N d c.
Proof.
  assert (A : forall d' c' a b d0 c0,
             length d' = length c' ->
             sub3 (repeat N (length d'))
                  (removelast (cumsum_from a (d0 :: d')))
                  (removelast (cumsum_from b (c0 :: c')))
             = risk_recurrence (N - (a + d0) - (b + c0)) d' c').
  { induction d' as [| d1 d' IH]; intros [| c1 c'] a b d0 c0 L;
      try discriminate; [reflexivity |].
    injection L as L.
    specialize (IH c' (a + d0)%Z (b + c0)%Z d1 c1 L).
    simpl in IH |- *. rewrite IH.
    f_equal. f_equal. lia. }
  destruct d as [| d0 d], c as [| c0 c]; try discriminate; [reflexivity |].
  intros L. injection L as L.
  change (risk_set N (d0 :: d) (c0 :: c))
    with (N :: sub3 (repeat N (length d))
                    (removelast (cumsum_from 0 (d0 :: d)))
                    (removelast (cumsum_from 0 (c0 :: c)))).
  rewrite (A d c 0%Z 0%Z d0 c0 L). simpl.
  f_equal; f_equal; lia.
Qed.

Lemma risk_recurrence_le (d c : list Z) : forall r,
  Forall (fun v => 0 <= v)%Z d -> Forall (fun v => 0 <= v)%Z c ->
  Forall (fun v => v <= r)%Z (risk_recurrence r d c).
Proof.
  revert c. induction d as [| d0 d IH]; intros [| c0 c] r Hd Hc;
    simpl; try constructor.
  - lia.
  - inversion Hd; inversion Hc; subst.
    eapply Forall_impl; [| apply IH; assumption].
    simpl. intros v Hv. lia.
Qed.

Lemma risk_recurrence_sorted (d c : list Z) : forall r,
  Forall (fun v => 0 <= v)%Z d -> Forall (fun v => 0 <= v)%Z c ->
  StronglySorted Z.ge (risk_recurrence r d c).
Proof.
  revert c. induction d as [| d0 d IH]; intros [| c0 c] r Hd Hc;
    simpl; try constructor.
  - inversion Hd; inversion Hc; subst. apply IH; assumption.
  - inversion Hd; inversion Hc; subst.
    eapply Forall_impl; [| apply risk_recurrence_le; eassumption].
    simpl. intros v Hv. lia.
Qed.

Lemma zsum_nonneg (l : list Z) :
  Forall (fun v => 0 <= v)%Z l -> (0 <= zsum l)%Z.
Proof. induction 1; simpl; lia. Qed.

Lemma risk_recurrence_covers (d c : list Z) : forall r i ri di ci,
  Forall (fun v => 0 <= v)%Z d -> Forall (fun v => 0 <= v)%Z c ->
  (zsum d + zsum c <= r)%Z ->
  nth_error (risk_recurrence r d c) i = Some ri ->
  nth_error d i = Some di -> nth_error c i = Some ci ->
  (di + ci <= ri)%Z.
Proof.
  revert c. induction d as [| d0 d IH]; intros [| c0 c] r i ri di ci Hd Hc S;
    try (destruct i; discriminate).
  inversion Hd; inversion Hc; subst. simpl in S.
  destruct i as [| i]; simpl.
  - intros E1 E2 E3. injection E1 as <-. injection E2 as <-.
    injection E3 as <-.
    pose proof (zsum_nonneg H2). pose proof (zsum_nonneg H6). lia.
  - apply IH; try assumption. lia.
Qed.

(** ** int64 arithmetic *)

Lemma int64_id (z : Z) : (- 2 ^ 63 <= z < 2 ^ 63)%Z -> int64 z = z.
Proof.
  intros R. unfold int64. rewrite Z.mod_small; lia.
Qed.

Lemma int64_range (z : Z) : (- 2 ^ 63 <= int64 z < 2 ^ 63)%Z.
Proof.
  unfold int64.
  pose proof (Z.mod_pos_bound (z + 2 ^ 63) (2 ^ 64) ltac:(lia)). lia.
Qed.

Lemma int64_decomp (z : Z) : exists q, int64 z = (z + 2 ^ 64 * q)%Z.
Proof.
  exists (- ((z + 2 ^ 63) / 2 ^ 64))%Z. unfold int64.
  pose proof (Z.div_mod (z + 2 ^ 63) (2 ^ 64) ltac:(lia)). lia.
Qed.

Lemma int64_congr (a b k : Z) : a = (b + 2 ^ 64 * k)%Z -> int64 a = int64 b.
Proof.
  intros ->. unfold int64. f_equal.
  replace (b + 2 ^ 64 * k + 2 ^ 63)%Z with (b + 2 ^ 63 + k * 2 ^ 64)%Z by lia.
  apply Z.mod_add. lia.
Qed.

Lemma int64_idem (z : Z) : int64 (int64 z) = int64 z.
Proof. apply int64_id, int64_range. Qed.

Lemma risk_set64_recurrence (N : Z) (d c : list Z) :
  length d = length c -> risk_set64 N d c = risk_recurrence64 N d c.
Proof.
  assert (A : forall d' c' a b d0 c0,
             length d' = length c' ->
             sub3_64 (repeat N (length d'))
                     (removelast (cumsum64_from a (d0 :: d')))
                     (removelast (cumsum64_from b (c0 :: c')))
             = risk_recurrence64 (int64 (N - (a + d0) - (b + c0))) d' c').
  { induction d' as [| d1 d' IH]; intros [| c1 c'] a b d0 c0 L;
      try discriminate; [reflexivity |].
    injection L as L.
    specialize (IH c' (int64 (a + d0)) (int64 (b + c0)) d1 c1 L).
    cbn [length repeat cumsum64_from removelast sub3_64 risk_recurrence64]
      in IH |- *.
    rewrite IH.
    destruct (int64_decomp (a + d0)) as [q1 E1].
    destruct (int64_decomp (b + c0)) as [q2 E2].
    destruct (int64_decomp (N - int64 (a + d0))) as [q3 E3].
    destruct (int64_decomp (N - (a + d0) - (b + c0))) as [q4 E4].
    f_equal.
    - apply (@int64_congr _ _ (q3 - q1 - q2)%Z). lia.
    - f_equal. apply (@int64_congr _ _ (- q1 - q2 - q4)%Z). lia. }
  destruct d as [| d0 d], c as [| c0 c]; try discriminate; [reflexivity |].
  intros L. injection L as L.
  change (risk_set64 N (d0 :: d) (c0 :: c))
    with (N :: sub3_64 (repeat N (length d))
                       (removelast (cumsum64_from 0 (d0 :: d)))
                       (removelast (cumsum64_from 0 (c0 :: c)))).
  rewrite (A d c 0%Z 0%Z d0 c0 L). cbn [risk_recurrence64].
  f_equal; f_equal; f_equal; lia.
Qed.

Lemma risk_recurrence64_exact (d c : list Z) : forall r,
  Forall (fun v => 0 <= v)%Z d -> Forall (fun v => 0 <= v)%Z c ->
  (zsum d + zsum c <= r < 2 ^ 63)%Z ->
  risk_recurrence64 r d c = risk_recurrence r d c.
Proof.
  revert c. induction d as [| d0 d IH]; intros [| c0 c] r Hd Hc B;
    try reflexivity.
  inversion Hd as [| ? ? D0 Hd']; inversion Hc as [| ? ? C0 Hc']; subst.
  cbn [risk_recurrence64 risk_recurrence zsum fold_right] in *.
  fold (zsum d) in B. fold (zsum c) in B.
  pose proof (zsum_nonneg Hd'). pose proof (zsum_nonneg Hc').
  rewrite int64_id by lia. f_equal. apply IH; try assumption. lia.
Qed.

Lemma risk_recurrence64_length (d c : list Z) : forall r,
  length d = length c -> length (risk_recurrence64 r d c) = length d.
Proof.
  revert c. induction d as [| d0 d IH]; intros [| c0 c] r L;
    try discriminate; [reflexivity |].
  injection L as L. simpl. f_equal. apply IH, L.
Qed.

Lemma risk_set64_exact (N : Z) (d c : list Z) :
  length d = length c ->
  Forall (fun v => 0 <= v)%Z d -> Forall (fun v => 0 <= v)%Z c ->
  (zsum d + zsum c <= N < 2 ^ 63)%Z ->
  risk_set64 N d c = risk_set N d c.
Proof.
  intros L Pd Pc B.
  rewrite (risk_set64_recurrence N d c L), (risk_set_recurrence N d c L).
  apply risk_recurrence64_exact; assumption.
Qed.

(** ** Accumulating failures and censorings per unique time *)

Lemma zsum_app (l l' : list Z) : zsum (l ++ l') = (zsum l + zsum l')%Z.
Proof. induction l; simpl; lia. Qed.

Lemma zsum_perm (l l' : list Z) : Permutation l l' -> zsum l = zsum l'.
Proof. induction 1; simpl; lia. Qed.

Lemma zsum_repeat_0 (n : nat) : zsum (repeat 0%Z n) = 0%Z.
Proof. induction n; simpl; lia. Qed.

Lemma zsum_map_add {A : Type} (f g : A -> Z) (l : list A) :
  zsum (map (fun a => f a + g a)%Z l) = (zsum (map f l) + zsum (map g l))%Z.
Proof. induction l; simpl; lia. Qed.

Lemma Forall_repeat_0 (n : nat) : Forall (fun v => 0 <= v)%Z (repeat 0%Z n).
Proof. induction n; simpl; constructor; [lia | assumption]. Qed.

Section BuilderFacts.

Context {T : Type} `{Ordered T}.

Lemma zsum_indicator (u : list T) (a : T) (k : Z) :
  NoDup u -> In a u ->
  zsum (map (fun v => if eqb v a then k else 0%Z) u) = k.
Proof.
  induction 1 as [| b u Hb Hu IH]; simpl; [contradiction |].
  assert (Z0 : ~ In a u ->
               zsum (map (fun v => if eqb v a then k else 0%Z) u) = 0%Z).
  { clear. induction u as [| c u IHu]; simpl; [reflexivity |].
    intros N. destruct (eqb c a) eqn:E.
    - apply eqb_eq in E. subst. exfalso. apply N. left. reflexivity.
    - rewrite IHu; [reflexivity |]. intros I. apply N. right. exact I. }
  intros [-> | I].
  - rewrite (proj2 (eqb_eq a a) eq_refl), (Z0 Hb). lia.
  - destruct (eqb b a) eqn:E.
    + apply eqb_eq in E. subst. contradiction.
    + rewrite (IH I). reflexivity.
Qed.

Lemma add_at_length (x : list T) ti v (d : list Z) :
  length d = length x -> length (add_at x ti v d) = length x.
Proof.
  intros L. unfold add_at. rewrite length_map, length_combine. lia.
Qed.

Lemma add_at_nonneg (x : list T) ti v (d : list Z) :
  (0 <= v)%Z -> Forall (fun u => 0 <= u)%Z d ->
  Forall (fun u => 0 <= u)%Z (add_at x ti v d).
Proof.
  intros Hv Hd. revert x. unfold add_at.
  induction Hd as [| u d Hu Hd IH]; intros [| a x]; simpl;
    try constructor.
  - destruct (eqb a ti); lia.
  - apply IH.
Qed.

Lemma zsum_add_at (x : list T) ti v (d : list Z) :
  length d = length x -> NoDup x -> In ti x ->
  zsum (add_at x ti v d) = (zsum d + v)%Z.
Proof.
  intros L N I. rewrite <- (@zsum_indicator x ti v N I) at 2.
  clear N I. revert d L. unfold add_at.
  induction x as [| a x IH]; intros [| u d] L; try discriminate;
    [reflexivity |].
  injection L as L. simpl. rewrite (IH d L).
  destruct (eqb a ti); lia.
Qed.

Lemma accumulate_spec (x t : list T) (censored : list Z)
      (weight : nat -> result Z) (ixs : list nat) :
  NoDup x ->
  Forall (fun i => exists ti ci wi,
              nth_error t i = Some ti /\ nth_error censored i = Some ci /\
              weight i = Ok wi /\ In ti x /\ (0 <= wi)%Z /\
              (ci = 0 \/ ci = 1)%Z) ixs ->
  forall d0 c0,
    length d0 = length x -> length c0 = length x ->
    Forall (fun u => 0 <= u)%Z d0 -> Forall (fun u => 0 <= u)%Z c0 ->
    exists d c,
      accumulate x t censored weight ixs d0 c0 = Ok (d, c) /\
      length d = length x /\ length c = length x /\
      Forall (fun u => 0 <= u)%Z d /\ Forall (fun u => 0 <= u)%Z c /\
      (zsum d + zsum c = zsum d0 + zsum c0 + weights weight ixs)%Z.
Proof.
  intros N. induction 1 as [| i ixs Hi _ IH]; intros d0 c0 Ld Lc Pd Pc.
  - exists d0, c0. unfold weights. simpl. repeat split; try assumption. lia.
  - destruct Hi as [ti [ci [wi [Et [Ec [Ew [I [Pw Hc]]]]]]]].
    simpl. rewrite (getitem_Some _ _ Et), (getitem_Some _ _ Ec), Ew. simpl.
    destruct (IH (add_at x ti ((1 - ci) * wi) d0) (add_at x ti (ci * wi) c0))
      as [d [c [E [Ld' [Lc' [Pd' [Pc' S]]]]]]].
    + apply add_at_length, Ld.
    + apply add_at_length, Lc.
    + apply add_at_nonneg; [nia | exact Pd].
    + apply add_at_nonneg; [nia | exact Pc].
    + exists d, c. repeat split; try assumption.
      rewrite S, !zsum_add_at by assumption.
      change (weights weight (i :: ixs))
        with ((match weight i with Ok w => w | Raise _ => 0 end)
              + weights weight ixs)%Z.
      rewrite Ew. nia.
Qed.

Lemma accumulate_total (x t : list T) (censored : list Z)
      (weight : nat -> result Z) (ixs : list nat) :
  Forall (fun i => (i < length t)%nat /\ (i < length censored)%nat /\
                   exists wi, weight i = Ok wi) ixs ->
  forall d0 c0, exists dc, accumulate x t censored weight ixs d0 c0 = Ok dc.
Proof.
  induction 1 as [| i ixs [Lt [Lc [wi Ew]]] _ IH]; intros d0 c0; simpl.
  - eexists. reflexivity.
  - destruct (nth_error t i) as [ti |] eqn:Et;
      [| apply nth_error_None in Et; lia].
    destruct (nth_error censored i) as [ci |] eqn:Ec;
      [| apply nth_error_None in Ec; lia].
    rewrite (getitem_Some _ _ Et), (getitem_Some _ _ Ec), Ew. simpl.
    apply IH.
Qed.

Lemma accumulate_length (x t : list T) (censored : list Z)
      (weight : nat -> result Z) (ixs : list nat) : forall d0 c0 d c,
  accumulate x t censored weight ixs d0 c0 = Ok (d, c) ->
  length d0 = length x -> length c0 = length x ->
  length d = length x /\ length c = length x.
Proof.
  induction ixs as [| i ixs IH]; intros d0 c0 d c; simpl.
  - intros E. injection E as <- <-. auto.
  - destruct (getitem t i); simpl; [| discriminate].
    destruct (getitem censored i); simpl; [| discriminate].
    destruct (weight i); simpl; [| discriminate].
    intros E Ld Lc. apply (IH _ _ _ _ E); apply add_at_length; assumption.
Qed.

Lemma add_at_counts_length (x : list T) ti v (d : list Z) :
  length d = length x -> length (add_at_counts x ti v d) = length x.
Proof.
  intros L. unfold add_at_counts. rewrite length_map, length_combine. lia.
Qed.

Lemma accumulate_counts_total (x t : list T) (censored counts : list Z)
      (ixs : list nat) :
  Forall (fun i => (i < length t)%nat /\ (i < length censored)%nat /\
                   (i < length counts)%nat) ixs ->
  forall d0 c0,
  exists dc, accumulate_counts x t censored counts ixs d0 c0 = Ok dc.
Proof.
  induction 1 as [| i ixs [Lt [Lc Lk]] _ IH]; intros d0 c0;
    cbn [accumulate_counts].
  - eexists. reflexivity.
  - destruct (nth_error t i) as [ti |] eqn:Et;
      [| apply nth_error_None in Et; lia].
    destruct (nth_error censored i) as [ci |] eqn:Ec;
      [| apply nth_error_None in Ec; lia].
    destruct (nth_error counts i) as [wi |] eqn:Ek;
      [| apply nth_error_None in Ek; lia].
    rewrite (getitem_Some _ _ Et), (getitem_Some _ _ Ec),
      (getitem_Some _ _ Ek).
    cbn [bind]. apply IH.
Qed.

Lemma accumulate_counts_length (x t : list T) (censored counts : list Z)
      (ixs : list nat) : forall d0 c0 d c,
  accumulate_counts x t censored counts ixs d0 c0 = Ok (d, c) ->
  length d0 = length x -> length c0 = length x ->
  length d = length x /\ length c = length x.
Proof.
  induction ixs as [| i ixs IH]; intros d0 c0 d c; cbn [accumulate_counts].
  - intros E. injection E as <- <-. auto.
  - destruct (getitem t i); cbn [bind]; [| discriminate].
    destruct (getitem censored i); cbn [bind]; [| discriminate].
    destruct (getitem counts i); cbn [bind]; [| discriminate].
    intros E Ld Lc.
    apply (IH _ _ _ _ E); apply add_at_counts_length; assumption.
Qed.

Lemma accumulate_counts_raises (x t : list T) (censored counts : list Z)
      (ixs : list nat) : forall d0 c0 e,
  accumulate_counts x t censored counts ixs d0 c0 = Raise e ->
  e = IndexError.
Proof.
  induction ixs as [| i ixs IH]; intros d0 c0 e; cbn [accumulate_counts];
    [discriminate |].
  unfold getitem.
  destruct (nth_error t i); cbn [bind];
    [| intros E; injection E as <-; reflexivity].
  destruct (nth_error censored i); cbn [bind];
    [| intros E; injection E as <-; reflexivity].
  destruct (nth_error counts i); cbn [bind];
    [| intros E; injection E as <-; reflexivity].
  apply IH.
Qed.

Lemma le_zsum (d : list Z) :
  Forall (fun u => 0 <= u)%Z d -> Forall (fun u => 0 <= u <= zsum d)%Z d.
Proof.
  induction 1 as [| u d Hu Hd IH]; [constructor |].
  pose proof (zsum_nonneg Hd) as P. constructor; [simpl; lia |].
  eapply Forall_impl; [| exact IH]. simpl. intros a Ha. lia.
Qed.

Lemma add_at_counts_exact (x : list T) ti v (d : list Z) :
  Forall (fun u => 0 <= u)%Z d -> (0 <= v)%Z -> (zsum d + v < 2 ^ 63)%Z ->
  add_at_counts x ti v d = add_at x ti v d.
Proof.
  intros P Hv B. apply le_zsum in P.
  assert (Q : Forall (fun u => - 2 ^ 63 <= u + v < 2 ^ 63)%Z d).
  { eapply Forall_impl; [| exact P]. simpl. intros u Hu. lia. }
  clear P B. unfold add_at_counts, add_at. revert x.
  induction Q as [| u l Hu _ IH]; intros [| a x]; try reflexivity.
  cbn [combine map fst snd]. rewrite IH. f_equal.
  destruct (eqb a ti); [| reflexivity].
  unfold store. destruct floating; [reflexivity |].
  apply int64_id. exact Hu.
Qed.

Lemma weights_cons (weight : nat -> result Z) (i : nat) (ixs : list nat) :
  weights weight (i :: ixs)
  = ((match weight i with Ok w => w | Raise _ => 0 end)
     + weights weight ixs)%Z.
Proof. reflexivity. Qed.

Lemma weights_nonneg (t : list T) (x : list T) (censored : list Z)
      (weight : nat -> result Z) (ixs : list nat) :
  Forall (fun i => exists ti ci wi,
              nth_error t i = Some ti /\ nth_error censored i = Some ci /\
              weight i = Ok wi /\ In ti x /\ (0 <= wi)%Z /\
              (ci = 0 \/ ci = 1)%Z) ixs ->
  (0 <= weights weight ixs)%Z.
Proof.
  induction 1 as [| i ixs [ti [ci [wi [_ [_ [Ew [_ [Pw _]]]]]]]] _ IH].
  - unfold weights. simpl. lia.
  - rewrite weights_cons, Ew. lia.
Qed.

Lemma accumulate_counts_exact (x t : list T) (censored counts : list Z)
      (ixs : list nat) :
  NoDup x ->
  Forall (fun i => exists ti ci wi,
              nth_error t i = Some ti /\ nth_error censored i = Some ci /\
              getitem counts i = Ok wi /\ In ti x /\ (0 <= wi)%Z /\
              (ci = 0 \/ ci = 1)%Z) ixs ->
  forall d0 c0,
    length d0 = length x -> length c0 = length x ->
    Forall (fun u => 0 <= u)%Z d0 -> Forall (fun u => 0 <= u)%Z c0 ->
    (zsum d0 + zsum c0 + weights (getitem counts) ixs < 2 ^ 63)%Z ->
    accumulate_counts x t censored counts ixs d0 c0
    = accumulate x t censored (getitem counts) ixs d0 c0.
Proof.
  intros N. induction 1 as [| i ixs Hi Hr IH]; intros d0 c0 Ld Lc Pd Pc B;
    [reflexivity |].
  pose proof (@weights_nonneg t x censored (getitem counts) ixs Hr) as W.
  destruct Hi as [ti [ci [wi [Et [Ec [Ew [I [Pw Hc]]]]]]]].
  rewrite weights_cons, Ew in B.
  pose proof (zsum_nonneg Pd). pose proof (zsum_nonneg Pc).
  cbn [accumulate_counts accumulate].
  rewrite (getitem_Some _ _ Et), (getitem_Some _ _ Ec), Ew. cbn [bind].
  assert (E1 : int64 (int64 (1 - ci) * wi) = ((1 - ci) * wi)%Z).
  { rewrite (int64_id (z := (1 - ci)%Z)) by lia. apply int64_id. nia. }
  assert (E2 : int64 (ci * wi) = (ci * wi)%Z) by (apply int64_id; nia).
  rewrite E1, E2.
  rewrite !add_at_counts_exact by (try assumption; nia).
  apply IH.
  - apply add_at_length, Ld.
  - apply add_at_length, Lc.
  - apply add_at_nonneg; [nia | exact Pd].
  - apply add_at_nonneg; [nia | exact Pc].
  - rewrite !zsum_add_at by assumption. nia.
Qed.

Lemma count_of_cons (a : T) (x : list T) (v : T) :
  count_of (a :: x) v = (count_of x v + (if eqb v a then 1 else 0))%Z.
Proof.
  unfold count_of. simpl. destruct (eqb v a); simpl length; lia.
Qed.

Lemma count_of_nonneg (x : list T) (v : T) : (0 <= count_of x v)%Z.
Proof. unfold count_of. lia. Qed.

Lemma zsum_counts (u x : list T) :
  NoDup u -> (forall a, In a x -> In a u) ->
  zsum (map (count_of x) u) = Z.of_nat (length x).
Proof.
  intros N. induction x as [| a x IH]; intros I.
  - unfold count_of. simpl. clear. induction u; simpl; lia.
  - rewrite (map_ext _ _ (count_of_cons a x)), zsum_map_add.
    rewrite IH by (intros b Hb; apply I; right; exact Hb).
    rewrite (@zsum_indicator u a 1%Z N) by (apply I; left; reflexivity).
    simpl length. lia.
Qed.

End BuilderFacts.

(** ** The risk-set table *)

Lemma risk_recurrence_length (d c : list Z) : forall r,
  length d = length c -> length (risk_recurrence r d c) = length d.
Proof.
  revert c. induction d as [| d0 d IH]; intros [| c0 c] r L;
    try discriminate; [reflexivity |].
  injection L as L. simpl. f_equal. apply IH, L.
Qed.

Lemma table_invariants (N : Z) (d c : list Z) :
  length d = length c ->
  Forall (fun v => 0 <= v)%Z d -> Forall (fun v => 0 <= v)%Z c ->
  (zsum d + zsum c <= N)%Z ->
  length (risk_set N d c) = length d /\
  StronglySorted Z.ge (risk_set N d c) /\
  forall i ri di ci,
    nth_error (risk_set N d c) i = Some ri ->
    nth_error d i = Some di -> nth_error c i = Some ci ->
    (di + ci <= ri)%Z.
Proof.
  intros L Pd Pc S. rewrite (risk_set_recurrence N d c L).
  split; [apply risk_recurrence_length, L |].
  split; [apply risk_recurrence_sorted; assumption |].
  intros i ri di ci. apply risk_recurrence_covers; assumption.
Qed.

Lemma weights_const (ixs : list nat) :
  weights (fun _ => Ok 1%Z) ixs = Z.of_nat (length ixs).
Proof.
  unfold weights. induction ixs as [| i ixs IH]; [reflexivity |].
  rewrite map_cons. unfold zsum in *.
  change (fold_right Z.add 0%Z (1%Z :: ?l)) with (1 + fold_right Z.add 0%Z l)%Z.
  cbn [fold_right]. rewrite IH. simpl length. lia.
Qed.

Lemma weights_getitem (l : list Z) :
  weights (getitem l) (seq 0 (length l)) = zsum l.
Proof.
  unfold weights. induction l as [| v l IH]; [reflexivity |].
  simpl length. simpl seq. rewrite <- seq_shift, map_cons, map_map.
  simpl. unfold getitem in *. simpl. rewrite IH. reflexivity.
Qed.

Lemma Forall_nth_error {A : Type} (P : A -> Prop) (l : list A) i v :
  Forall P l -> nth_error l i = Some v -> P v.
Proof.
  intros F E. rewrite Forall_forall in F. apply F.
  eapply nth_error_In, E.
Qed.

Section TableFacts.

Context {T : Type} `{Ordered T}.

Lemma accumulate_premise (x t : list T) (censored : list Z)
      (weight : nat -> result Z) :
  length censored = length t ->
  (forall i, (i < length t)%nat -> exists wi, weight i = Ok wi /\ (0 <= wi)%Z) ->
  Forall (fun v => v = 0 \/ v = 1)%Z censored ->
  (forall a, In a t -> In a x) ->
  Forall (fun i => exists ti ci wi,
              nth_error t i = Some ti /\ nth_error censored i = Some ci /\
              weight i = Ok wi /\ In ti x /\ (0 <= wi)%Z /\
              (ci = 0 \/ ci = 1)%Z) (seq 0 (length t)).
Proof.
  intros L W C I. apply Forall_forall. intros i Hi. apply in_seq in Hi.
  destruct (nth_error t i) as [ti |] eqn:Et;
    [| apply nth_error_None in Et; lia].
  destruct (nth_error censored i) as [ci |] eqn:Ec;
    [| apply nth_error_None in Ec; lia].
  destruct (W i) as [wi [Ew Pw]]; [lia |].
  exists ti, ci, wi. repeat split; try assumption.
  - apply I. eapply nth_error_In, Et.
  - apply (Forall_nth_error _ C Ec).
Qed.

Lemma getitem_weight (counts : list Z) (n : nat) :
  length counts = n -> Forall (fun v => 0 <= v)%Z counts ->
  forall i, (i < n)%nat ->
            exists wi, getitem counts i = Ok wi /\ (0 <= wi)%Z.
Proof.
  intros L P i Hi. unfold getitem.
  destruct (nth_error counts i) as [wi |] eqn:E;
    [| apply nth_error_None in E; lia].
  exists wi. split; [reflexivity |]. apply (Forall_nth_error _ P E).
Qed.

Lemma zeros_like_length (x : list T) : length (zeros_like x) = length x.
Proof. apply repeat_length. Qed.

Lemma exact_range_le : (exact_range <= 2 ^ 63)%Z.
Proof. unfold exact_range. destruct floating; lia. Qed.

Lemma no_overflow_None : no_overflow None.
Proof. intros k E. discriminate. Qed.

Lemma population_exact (x : list T) (counts : option (list Z)) :
  (forall k, counts = Some k -> Forall (fun v => 0 <= v)%Z k) ->
  no_overflow counts ->
  population x counts
  = match counts with
    | None => Z.of_nat (length x)
    | Some k => zsum k
    end.
Proof.
  intros Vk NO. destruct counts as [k |]; [| reflexivity].
  unfold population. apply int64_id.
  pose proof (zsum_nonneg (Vk _ eq_refl)).
  pose proof (NO _ eq_refl). pose proof exact_range_le. lia.
Qed.

Lemma get_r_c_d_valid (x : list T) (censored counts : option (list Z)) :
  valid_input x censored counts -> no_overflow counts ->
  exists x' d c,
    get_r_c_d x censored counts
    = Ok (Table x' (risk_set (population x counts) d c) c d) /\
    length d = length x' /\ length c = length x' /\
    Forall (fun v => 0 <= v)%Z d /\ Forall (fun v => 0 <= v)%Z c /\
    (zsum d + zsum c = population x counts)%Z.
Proof.
  intros [[Ac Ak] [Vc Vk]] NO.
  rewrite (population_exact x Vk NO). unfold get_r_c_d.
  destruct censored as [censored |], counts as [counts |].
  - (* counts and censoring *)
    specialize (Ac _ eq_refl). specialize (Ak _ eq_refl).
    specialize (Vc _ eq_refl). specialize (Vk _ eq_refl).
    specialize (NO _ eq_refl). pose proof exact_range_le as XR.
    pose proof (zsum_nonneg Vk) as Z0.
    rewrite (int64_id (z := zsum counts)) by lia.
    pose proof (argsort_perm x) as P.
    destruct (take_perm x P) as [t [Et Pt]].
    destruct (@take_perm _ counts (argsort x)) as [k [Ek Pk]];
      [rewrite Ak; exact P |].
    destruct (@take_perm _ censored (argsort x)) as [cs [Ecs Pcs]];
      [rewrite Ac; exact P |].
    rewrite Et, Ek, Ecs. cbn [bind].
    pose proof (take_length _ _ Et) as Lt.
    pose proof (take_length _ _ Ek) as Lk.
    pose proof (take_length _ _ Ecs) as Lcs.
    assert (Pr : Forall (fun i => exists ti ci wi,
                   nth_error t i = Some ti /\ nth_error cs i = Some ci /\
                   getitem k i = Ok wi /\ In ti (np_unique t) /\
                   (0 <= wi)%Z /\ (ci = 0 \/ ci = 1)%Z)
                   (seq 0 (length t))).
    { apply accumulate_premise.
      * congruence.
      * apply getitem_weight; [congruence |].
        eapply Permutation_Forall; [apply Permutation_sym, Pk | exact Vk].
      * eapply Permutation_Forall; [apply Permutation_sym, Pcs | exact Vc].
      * intros a. apply np_unique_In. }
    assert (Wk : weights (getitem k) (seq 0 (length t)) = zsum counts).
    { replace (length t) with (length k) by congruence.
      rewrite weights_getitem. apply zsum_perm, Pk. }
    rewrite (@accumulate_counts_exact _ _ (np_unique t) t cs k
               (seq 0 (length t)) (np_unique_NoDup t) Pr)
      by (try apply zeros_like_length; try apply Forall_repeat_0;
          unfold zeros_like; rewrite zsum_repeat_0, Wk; lia).
    destruct (@accumulate_spec _ _ (np_unique t) t cs (getitem k)
                (seq 0 (length t)) (np_unique_NoDup t) Pr)
      with (d0 := zeros_like (np_unique t)) (c0 := zeros_like (np_unique t))
      as [d [c [E [Ld [Lc [Pd [Pc S]]]]]]].
    + apply zeros_like_length.
    + apply zeros_like_length.
    + apply Forall_repeat_0.
    + apply Forall_repeat_0.
    + rewrite E. cbn [bind fst snd]. exists (np_unique t), d, c.
      assert (S' : (zsum d + zsum c = zsum counts)%Z).
      { rewrite S. unfold zeros_like. rewrite zsum_repeat_0, Wk. lia. }
      rewrite risk_set64_exact by (try assumption; try congruence; lia).
      repeat split; assumption.
  - (* censoring, no counts *)
    specialize (Ac _ eq_refl). specialize (Vc _ eq_refl).
    destruct (@accumulate_spec _ _ (np_unique x) x censored
                (fun _ => Ok 1%Z) (seq 0 (length x)) (np_unique_NoDup x))
      with (d0 := zeros_like (np_unique x)) (c0 := zeros_like (np_unique x))
      as [d [c [E [Ld [Lc [Pd [Pc S]]]]]]].
    + apply accumulate_premise; try assumption.
      * intros i _. exists 1%Z. split; [reflexivity | lia].
      * intros a. apply np_unique_In.
    + apply zeros_like_length.
    + apply zeros_like_length.
    + apply Forall_repeat_0.
    + apply Forall_repeat_0.
    + rewrite E. simpl. exists (np_unique x), d, c.
      repeat split; try assumption.
      rewrite S. unfold zeros_like.
      rewrite zsum_repeat_0, weights_const, length_seq. lia.
  - (* counts, no censoring *)
    specialize (Ak _ eq_refl). specialize (Vk _ eq_refl).
    specialize (NO _ eq_refl). pose proof exact_range_le as XR.
    pose proof (zsum_nonneg Vk) as Z0.
    rewrite (int64_id (z := zsum counts)) by lia.
    pose proof (argsort_perm x) as P.
    destruct (take_perm x P) as [t [Et Pt]].
    destruct (@take_perm _ counts (argsort x)) as [d [Ed Pd]];
      [rewrite Ak; exact P |].
    rewrite Et, Ed. cbn [bind].
    pose proof (take_length _ _ Et) as Lt.
    pose proof (take_length _ _ Ed) as Ld.
    assert (Fd : Forall (fun v => 0 <= v)%Z d)
      by (eapply Permutation_Forall; [apply Permutation_sym, Pd | exact Vk]).
    assert (S : (zsum d + zsum (zeros_like t) = zsum counts)%Z)
      by (unfold zeros_like; rewrite zsum_repeat_0, (zsum_perm Pd); lia).
    rewrite risk_set64_exact;
      [| rewrite zeros_like_length; congruence | exact Fd
       | apply Forall_repeat_0 | lia].
    exists t, d, (zeros_like t). repeat split.
    + congruence.
    + apply zeros_like_length.
    + exact Fd.
    + apply Forall_repeat_0.
    + exact S.
  - (* neither *)
    unfold np_unique_counts. simpl.
    exists (np_unique x), (map (count_of x) (np_unique x)),
      (zeros_like (np_unique x)). repeat split.
    + apply length_map.
    + apply zeros_like_length.
    + apply Forall_forall. intros v Hv. apply in_map_iff in Hv.
      destruct Hv as [u [<- _]]. apply count_of_nonneg.
    + apply Forall_repeat_0.
    + unfold zeros_like. rewrite zsum_repeat_0, zsum_counts.
      * lia.
      * apply np_unique_NoDup.
      * intros a. apply np_unique_In.
Qed.

End TableFacts.

Section BuilderTotal.

Context {T : Type} `{Ordered T}.

Lemma getitem_raises {A : Type} (a : list A) i e :
  getitem a i = Raise e -> e = IndexError.
Proof.
  unfold getitem. destruct (nth_error a i); [discriminate |].
  intros E. injection E as <-. reflexivity.
Qed.

Lemma accumulate_raises (x t : list T) (censored : list Z)
      (weight : nat -> result Z) (ixs : list nat) :
  (forall i e, weight i = Raise e -> e = IndexError) ->
  forall d0 c0 e,
    accumulate x t censored weight ixs d0 c0 = Raise e -> e = IndexError.
Proof.
  intros W. induction ixs as [| i ixs IH]; intros d0 c0 e; simpl;
    [discriminate |].
  destruct (getitem t i) eqn:Et; simpl;
    [| intros E; injection E as <-; apply (getitem_raises _ _ Et)].
  destruct (getitem censored i) eqn:Ec; simpl;
    [| intros E; injection E as <-; apply (getitem_raises _ _ Ec)].
  destruct (weight i) eqn:Ew; simpl;
    [| intros E; injection E as <-; apply (W _ _ Ew)].
  apply IH.
Qed.

Lemma seq_in_range (t : list T) (censored : list Z)
      (weight : nat -> result Z) :
  length censored = length t ->
  (forall i, (i < length t)%nat -> exists wi, weight i = Ok wi) ->
  Forall (fun i => (i < length t)%nat /\ (i < length censored)%nat /\
                   exists wi, weight i = Ok wi) (seq 0 (length t)).
Proof.
  intros L W. apply Forall_forall. intros i Hi. apply in_seq in Hi.
  repeat split; try lia. apply W. lia.
Qed.

Lemma get_r_c_d_total (x : list T) (censored counts : option (list Z)) :
  aligned x censored counts ->
  exists tbl, get_r_c_d x censored counts = Ok tbl.
Proof.
  intros [Ac Ak]. unfold get_r_c_d.
  pose proof (argsort_perm x) as P.
  destruct censored as [censored |], counts as [counts |].
  - specialize (Ac _ eq_refl). specialize (Ak _ eq_refl).
    destruct (take_perm x P) as [t [Et _]].
    destruct (@take_perm _ counts (argsort x)) as [k [Ek _]];
      [rewrite Ak; exact P |].
    destruct (@take_perm _ censored (argsort x)) as [cs [Ecs _]];
      [rewrite Ac; exact P |].
    rewrite Et, Ek, Ecs. cbn [bind].
    pose proof (take_length _ _ Et) as Lt.
    pose proof (take_length _ _ Ek) as Lk.
    pose proof (take_length _ _ Ecs) as Lcs.
    destruct (@accumulate_counts_total _ _ (np_unique t) t cs k
                (seq 0 (length t)))
      with (d0 := zeros_like (np_unique t)) (c0 := zeros_like (np_unique t))
      as [dc E].
    + apply Forall_forall. intros i Hi. apply in_seq in Hi.
      repeat split; lia.
    + rewrite E. cbn [bind]. destruct dc as [d c]. eexists. reflexivity.
  - specialize (Ac _ eq_refl).
    destruct (@accumulate_total _ _ (np_unique x) x censored
                (fun _ => Ok 1%Z) (seq 0 (length x)))
      with (d0 := zeros_like (np_unique x)) (c0 := zeros_like (np_unique x))
      as [dc E].
    + apply seq_in_range; [assumption |].
      intros i _. exists 1%Z. reflexivity.
    + rewrite E. simpl. eexists. reflexivity.
  - specialize (Ak _ eq_refl).
    destruct (take_perm x P) as [t [Et _]].
    destruct (@take_perm _ counts (argsort x)) as [k [Ek _]];
      [rewrite Ak; exact P |].
    rewrite Et, Ek. simpl. eexists. reflexivity.
  - simpl. eexists. reflexivity.
Qed.

Lemma get_r_c_d_raises (x : list T) (censored counts : option (list Z)) e :
  get_r_c_d x censored counts = Raise e -> e = IndexError.
Proof.
  unfold get_r_c_d.
  destruct censored as [censored |], counts as [counts |].
  - destruct (take x (argsort x)) as [t |] eqn:Et; simpl;
      [| intros E; injection E as <-; apply (take_raises _ _ Et)].
    destruct (take counts (argsort x)) as [k |] eqn:Ek; simpl;
      [| intros E; injection E as <-; apply (take_raises _ _ Ek)].
    destruct (take censored (argsort x)) as [cs |] eqn:Ecs; simpl;
      [| intros E; injection E as <-; apply (take_raises _ _ Ecs)].
    destruct (accumulate_counts _ _ _ _ _ _ _) as [dc |] eqn:Ea; simpl;
      [destruct dc; discriminate |].
    intros E. injection E as <-.
    eapply accumulate_counts_raises. exact Ea.
  - destruct (accumulate _ _ _ _ _ _ _) as [dc |] eqn:Ea; simpl;
      [discriminate |].
    intros E. injection E as <-.
    eapply accumulate_raises; [| exact Ea]. discriminate.
  - destruct (take x (argsort x)) as [t |] eqn:Et; simpl;
      [| intros E; injection E as <-; apply (take_raises _ _ Et)].
    destruct (take counts (argsort x)) as [k |] eqn:Ek; simpl;
      [discriminate |].
    intros E; injection E as <-; apply (take_raises _ _ Ek).
  - simpl. discriminate.
Qed.



End BuilderTotal.

(** ** The claims on the risk-set builder *)

(** C1 (as stated it fails): the builder does not return the four-row
    table [x = 2,5,8,10], [r = 5,4,3,2], [d = 1,0,1,1], [c = 0,1,0,1] for
    times [2,3,5,8,10] with censoring [0,1,0,0,1]. *)
Lemma get_r_c_d_example_not_four_rows :
  get_r_c_d [2; 3; 5; 8; 10]%Z (Some [0; 1; 0; 0; 1]%Z) None
  <> Ok (Table [2; 5; 8; 10]%Z [5; 4; 3; 2]%Z [0; 1; 0; 1]%Z [1; 0; 1; 1]%Z).
Proof. vm_compute. discriminate. Qed.

(** C1 (amended): for times [2,3,5,8,10] with censoring [0,1,0,0,1] and
    no counts the builder returns one row per distinct recorded time,
    [x = 2,3,5,8,10], with [r = 5,4,3,2,1], [d = 1,0,1,1,0] and
    [c = 0,1,0,0,1]; the censored-only time 3 is a row of its own with
    [d = 0] and [c = 1]. *)
Theorem get_r_c_d_example :
  get_r_c_d [2; 3; 5; 8; 10]%Z (Some [0; 1; 0; 0; 1]%Z) None
  = Ok (Table [2; 3; 5; 8; 10]%Z [5; 4; 3; 2; 1]%Z
              [0; 1; 0; 0; 1]%Z [1; 0; 1; 1; 0]%Z).
Proof. reflexivity. Qed.

(** C6 (as stated it fails): the counts [2^62, 2^62] are valid, but
    their sum does not fit an int64: [np.sum(counts)] wraps to [-2^63],
    the risk column is [-2^63, 2^62], which increases, and in the first
    row [r] is below [d + c]. *)
Lemma get_r_c_d_overflowing_counts :
  valid_input [1; 2]%Z None (Some [2 ^ 62; 2 ^ 62]%Z) /\
  exists tbl,
    get_r_c_d [1; 2]%Z None (Some [2 ^ 62; 2 ^ 62]%Z) = Ok tbl /\
    tr tbl = [- 2 ^ 63; 2 ^ 62]%Z /\
    td tbl = [2 ^ 62; 2 ^ 62]%Z /\ tc tbl = [0; 0]%Z /\
    ~ StronglySorted Z.ge (tr tbl) /\
    exists ri di ci,
      nth_error (tr tbl) 0 = Some ri /\
      nth_error (td tbl) 0 = Some di /\
      nth_error (tc tbl) 0 = Some ci /\
      (ri < di + ci)%Z.
Proof.
  split.
  - repeat split; intros l E; try discriminate; injection E as <-;
      [reflexivity | repeat constructor; lia].
  - eexists. split; [vm_compute; reflexivity |]. cbn [tr td tc].
    split; [reflexivity |]. split; [reflexivity |]. split; [reflexivity |].
    split.
    + intros S. inversion S as [| ? ? _ F]; subst.
      inversion F as [| ? ? G _]; subst. vm_compute in G. apply G.
      reflexivity.
    + eexists. eexists. eexists.
      split; [reflexivity |]. split; [reflexivity |].
      split; [reflexivity |]. vm_compute. reflexivity.
Qed.

(** C6 (amended): on valid input (aligned arrays, censoring codes 0 or
    1, counts not negative) whose counts, if any, have a total that the
    arithmetic holds exactly (below [2^63] for integer times, below
    [2^53] for float times), the builder returns a table whose columns
    have the length of [x], whose risk column never increases, and in
    which [d[i] + c[i] <= r[i]] at every index. *)
Theorem get_r_c_d_invariants {T : Type} `{Ordered T}
        (x : list T) (censored counts : option (list Z)) :
  valid_input x censored counts -> no_overflow counts ->
  exists tbl,
    get_r_c_d x censored counts = Ok tbl /\
    length (tr tbl) = length (tx tbl) /\
    length (td tbl) = length (tx tbl) /\
    length (tc tbl) = length (tx tbl) /\
    StronglySorted Z.ge (tr tbl) /\
    forall i ri di ci,
      nth_error (tr tbl) i = Some ri ->
      nth_error (td tbl) i = Some di ->
      nth_error (tc tbl) i = Some ci ->
      (di + ci <= ri)%Z.
Proof.
  intros V NO.
  destruct (get_r_c_d_valid V NO) as [x' [d [c [E [Ld [Lc [Pd [Pc S]]]]]]]].
  destruct (@table_invariants (population x counts) d c)
    as [Lr [Hs Hc]]; try assumption; [congruence | lia |].
  eexists. split; [exact E |]. simpl.
  repeat split; try assumption. congruence.
Qed.

Lemma get_r_c_d_invariants_witness :
  valid_input [3; 1; 3; 2]%Z (Some [0; 1; 1; 0]%Z) (Some [2; 3; 4; 5]%Z) /\
  exists tbl,
    get_r_c_d [3; 1; 3; 2]%Z (Some [0; 1; 1; 0]%Z) (Some [2; 3; 4; 5]%Z)
    = Ok tbl /\
    length (tr tbl) = length (tx tbl) /\
    length (td tbl) = length (tx tbl) /\
    length (tc tbl) = length (tx tbl) /\
    StronglySorted Z.ge (tr tbl) /\
    forall i ri di ci,
      nth_error (tr tbl) i = Some ri ->
      nth_error (td tbl) i = Some di ->
      nth_error (tc tbl) i = Some ci ->
      (di + ci <= ri)%Z.
Proof.
  assert (V : valid_input [3; 1; 3; 2]%Z (Some [0; 1; 1; 0]%Z)
                          (Some [2; 3; 4; 5]%Z)).
  { repeat split; intros l E; injection E as <-;
      try reflexivity; repeat constructor; lia. }
  assert (NO : no_overflow (T := Z) (Some [2; 3; 4; 5]%Z)).
  { intros k E. injection E as <-. reflexivity. }
  split; [exact V | exact (get_r_c_d_invariants V NO)].
Defined.

(** C7 (as stated it fails): with a negative count, and with an empty
    population, the builder returns a table. *)
Lemma get_r_c_d_accepts_bad_input :
  get_r_c_d [1]%Z None (Some [-1]%Z) = Ok (Table [1]%Z [-1]%Z [0]%Z [-1]%Z) /\
  get_r_c_d ([] : list Z) None None = Ok (Table [] [] [] []).
Proof. split; reflexivity. Qed.

(** C7 (amended): the builder validates nothing.  On every input whose
    censoring and count arrays, where given, have the length of the
    times, it returns a table, whatever the counts and the population;
    and the only exception it ever raises is [IndexError]. *)
Theorem get_r_c_d_no_validation {T : Type} `{Ordered T}
        (x : list T) (censored counts : option (list Z)) :
  (aligned x censored counts ->
   exists tbl, get_r_c_d x censored counts = Ok tbl) /\
  (forall e, get_r_c_d x censored counts = Raise e -> e = IndexError).
Proof.
  split; [apply get_r_c_d_total | intros e; apply get_r_c_d_raises].
Qed.

Lemma get_r_c_d_no_validation_witness :
  aligned [4; 2]%Z None (Some [-3; 0]%Z) /\
  exists tbl, get_r_c_d [4; 2]%Z None (Some [-3; 0]%Z) = Ok tbl.
Proof.
  assert (A : aligned [4; 2]%Z None (Some [-3; 0]%Z)).
  { split; intros l E; [discriminate | injection E as <-; reflexivity]. }
  split; [exact A |].
  exact (proj1 (get_r_c_d_no_validation [4; 2]%Z None (Some [-3; 0]%Z)) A).
Defined.

(** ** The claims on the estimators *)

Lemma qzero_spec (q : Qc) : qzero q = true <-> q = Q2Qc 0.
Proof.
  unfold qzero. rewrite Z.eqb_eq. split.
  - intros E. apply Qc_is_canon. simpl. unfold Qeq. simpl. lia.
  - intros ->. reflexivity.
Qed.

Lemma qzero_of_Z (z : Z) : qzero (Q2Qc (inject_Z z)) = (z =? 0)%Z.
Proof.
  apply eq_true_iff_eq. rewrite qzero_spec, Q2Qc_eq_iff, Z.eqb_eq.
  unfold Qeq, inject_Z. simpl. lia.
Qed.



Lemma fh_hazards_int (minus : Z -> Z -> Z) (r d : list Z) :
  fh_hazards false minus r d
  = Ok (map2 (fun ri di => fh_sum minus ri (range di)) r d).
Proof.
  revert d. induction r as [| ri r IH]; intros [| di d]; try reflexivity.
  cbn [fh_hazards py_range bind map2]. rewrite IH. reflexivity.
Qed.

Lemma fh_hazards_exact (counts : option (list Z)) (r d : list Z) :
  (forall i ri di j,
      nth_error r i = Some ri -> nth_error d i = Some di ->
      In j (range di) -> entry_minus counts ri j = (ri - j)%Z) ->
  fh_hazards false (entry_minus counts) r d = Ok (map2 fh_term r d).
Proof.
  intros X. rewrite fh_hazards_int. f_equal. revert d X.
  induction r as [| ri r IH]; intros [| di d] X; try reflexivity.
  cbn [map2]. f_equal.
  - unfold fh_term, fh_sum. f_equal. apply map_ext_in. intros j Hj.
    rewrite (X 0%nat ri di j eq_refl eq_refl Hj). reflexivity.
  - apply IH. intros i a b j Ea Eb. apply (X (S i) a b j Ea Eb).
Qed.


Section CountsRisk.

Context {T : Type} `{Ordered T}.



End CountsRisk.

(** C3: for times [5,6,7,9], all uncensored and without counts,
    Kaplan-Meier has [N = 4] and [R = 0.75, 0.5, 0.25, 0.0]. *)
Theorem kaplan_meier_example :
  exists out,
    kaplan_meier [5; 6; 7; 9]%Z None None = Ok out /\
    out_N out = Some 4%Z /\
    out_R out = Some [of_Q 0.75; of_Q 0.5; of_Q 0.25; of_Q 0.0].
Proof.
  eexists. split; [reflexivity |]. split; [reflexivity |].
  vm_compute. fin_list.
Qed.

(** The same column in binary64: the rounded running products of
    [3/4], [2/3], [1/2] and [0/1] are exactly [0.75], [0.5], [0.25] and
    [0.0]. *)
Lemma binary64_reliability_example :
  exists tbl,
    get_r_c_d [5; 6; 7; 9]%Z None None = Ok tbl /\
    kaplan_meier_R64 (tr tbl) (td tbl)
    = [PrimFloat.div (b64 3) (b64 4); PrimFloat.div (b64 1) (b64 2);
       PrimFloat.div (b64 1) (b64 4); b64 0].
Proof. eexists. split; [reflexivity |]. vm_compute. reflexivity. Qed.




(** ** The claims on ranks and plotting positions *)

Section RankFacts.

Context {T : Type} `{Ordered T}.

Lemma take_argsort (t : list T) :
  exists t', take t (argsort t) = Ok t' /\ Permutation t' t.
Proof. apply take_perm, argsort_perm. Qed.

Lemma rank_loop_total (n : Z) (censored : list Z) (ixs : list nat) :
  Forall (fun i => (i < length censored)%nat) ixs ->
  forall PMON, exists ranks,
      rank_loop n censored ixs PMON = Ok ranks /\
      length ranks = length ixs.
Proof.
  induction 1 as [| i ixs Hi _ IH]; intros PMON; cbn [rank_loop].
  - exists []. split; reflexivity.
  - destruct (nth_error censored i) as [ci |] eqn:E;
      [| apply nth_error_None in E; lia].
    rewrite (getitem_Some _ _ E). cbn [bind].
    destruct (ci =? 0)%Z.
    + destruct (IH (fadd PMON (fdiv (fsub (of_Z (n + 1)) PMON)
                                    (of_Z (n - Z.of_nat i + 2)))))
        as [ranks [-> L]].
      cbn [bind]. eexists. split; [reflexivity |].
      cbn [length]. congruence.
    + destruct (IH PMON) as [ranks [-> L]].
      cbn [bind]. eexists. split; [reflexivity |].
      cbn [length]. congruence.
Qed.

Lemma rank_adjust_total (t : list T) (censored : list Z) :
  length censored = length t ->
  exists ranks,
    rank_adjust t (Some censored) = Ok ranks /\ length ranks = length t.
Proof.
  intros L. unfold rank_adjust, subscript.
  destruct (take_argsort t) as [t' [Et Pt]].
  destruct (@take_perm _ censored (argsort t)) as [cs [Ecs Pcs]];
    [rewrite L; apply argsort_perm |].
  rewrite Et, Ecs. simpl.
  pose proof (Permutation_length Pt) as Lt.
  pose proof (Permutation_length Pcs) as Lcs.
  destruct (@rank_loop_total (Z.of_nat (length t')) cs (seq 0 (length t')))
    with (PMON := of_Z 0) as [ranks [E Lr]].
  - apply Forall_forall. intros i Hi. apply in_seq in Hi. lia.
  - exists ranks. split; [exact E |]. rewrite Lr, length_seq. exact Lt.
Qed.

Lemma rank_adjust_short (t : list T) (c : list Z) :
  (length c < length t)%nat -> rank_adjust t (Some c) = Raise IndexError.
Proof.
  intros L. unfold rank_adjust, subscript.
  destruct (take_argsort t) as [t' [Et Pt]]. rewrite Et. cbn [bind].
  rewrite (@take_out_of_range _ c (argsort t) (length c));
    [reflexivity | | lia].
  apply (Permutation_in _ (Permutation_sym (argsort_perm t))), in_seq. lia.
Qed.

Lemma rank_adjust_enough (t : list T) (c : list Z) :
  (length t <= length c)%nat ->
  exists ranks, rank_adjust t (Some c) = Ok ranks /\
                length ranks = length t.
Proof.
  intros L. unfold rank_adjust, subscript.
  destruct (take_argsort t) as [t' [Et Pt]]. rewrite Et. cbn [bind].
  pose proof (argsort_perm t) as P.
  destruct (@take_spec _ c (argsort t)) as [cs [Ecs _]].
  { apply Forall_forall. intros i Hi.
    apply (Permutation_in _ P), in_seq in Hi. lia. }
  rewrite Ecs. cbn [bind].
  pose proof (take_length _ _ Ecs) as Lcs.
  rewrite argsort_length in Lcs.
  pose proof (Permutation_length Pt) as Lt.
  destruct (@rank_loop_total (Z.of_nat (length t')) cs (seq 0 (length t')))
    with (PMON := of_Z 0) as [ranks [E Lr]].
  - apply Forall_forall. intros i Hi. apply in_seq in Hi. lia.
  - exists ranks. split; [exact E |]. rewrite Lr, length_seq. exact Lt.
Qed.

Lemma formula_constants_table (formula : string) (A B : Q) :
  In (formula, (A, B)) formula_table ->
  formula_constants formula = Some (A, B).
Proof.
  unfold formula_table. simpl.
  intros I.
  repeat (destruct I as [I | I];
          [injection I as <- <- <-; reflexivity |]).
  contradiction.
Qed.

Lemma formula_constants_unknown (formula : string) :
  ~ known_formula formula -> formula_constants formula = None.
Proof.
  unfold known_formula, formula_table, formula_constants. simpl.
  intros N.
  repeat match goal with
         | |- context [String.eqb formula ?s] =>
             destruct (String.eqb_spec formula s) as [-> | _];
             [exfalso; apply N; tauto |]
         end.
  reflexivity.
Qed.

End RankFacts.

(** C10: with the censoring argument left out, [rank_adjust] raises
    [TypeError] on every array of times: [censored[idx]] is evaluated on
    [None] before the [None] test is reached. *)
Theorem rank_adjust_without_censoring {T : Type} `{Ordered T} (t : list T) :
  rank_adjust t None = Raise TypeError.
Proof.
  unfold rank_adjust. destruct (take_argsort t) as [t' [-> _]]. reflexivity.
Qed.

(** C8 (as stated it fails): with fewer censoring codes than times an
    unknown formula name does not lead to the [UnboundLocalError] of the
    unbound constants: the [IndexError] of [rank_adjust] comes first. *)
Lemma plotting_positions_short_codes :
  ~ known_formula "Bogus" /\
  plotting_positions [1; 2]%Z (Some [0]%Z) "Bogus" = Raise IndexError /\
  plotting_positions [1; 2]%Z (Some [0]%Z) "Bogus"
  <> Raise UnboundLocalError.
Proof.
  split; [unfold known_formula; simpl; intuition discriminate |].
  split; [reflexivity | discriminate].
Qed.

(** C8 (amended): with fewer censoring codes than times
    [plotting_positions] raises [IndexError], whatever the formula name.
    Otherwise (no codes, or at least one code per time) the ranks are
    computed, one per time; then a formula name outside the table makes
    the call fail with the [UnboundLocalError] of the unbound constants,
    and a name of the table gives one position per time,
    [p[i] = (rank[i] - A)/(n + B)] with the table's [A] and [B], [n]
    being the number of times. *)
Theorem plotting_positions_table {T : Type} `{Ordered T}
        (t : list T) (censored : option (list Z)) (formula : string) :
  (forall c, censored = Some c -> (length c < length t)%nat ->
             plotting_positions t censored formula = Raise IndexError) /\
  ((forall c, censored = Some c -> (length t <= length c)%nat) ->
   exists ranks,
     ranks_of t censored = Ok ranks /\ length ranks = length t /\
     (~ known_formula formula ->
      plotting_positions t censored formula = Raise UnboundLocalError) /\
     (forall A B, In (formula, (A, B)) formula_table ->
        exists p,
          plotting_positions t censored formula = Ok p /\
          length p = length t /\
          forall i rank,
            nth_error ranks i = Some rank ->
            nth_error p i
            = Some (fdiv (fsub rank (of_Q A))
                         (fadd (of_nat (length t)) (of_Q B))))).
Proof.
  split.
  - intros c -> L. unfold plotting_positions, ranks_of.
    rewrite (rank_adjust_short t c L). reflexivity.
  - intros L.
    assert (R : exists ranks, ranks_of t censored = Ok ranks /\
                              length ranks = length t).
    { destruct censored as [c |].
      - apply rank_adjust_enough, (L c eq_refl).
      - eexists. split; [reflexivity |].
        rewrite length_map, length_seq. reflexivity. }
    destruct R as [ranks [E Lr]]. exists ranks.
    split; [exact E |]. split; [exact Lr |].
    unfold plotting_positions. rewrite E. cbn [bind]. split.
    + intros N. rewrite (formula_constants_unknown N). reflexivity.
    + intros A B I. rewrite (formula_constants_table I). cbn [bind].
      eexists. split; [reflexivity |]. unfold positions.
      split; [rewrite length_map; exact Lr |].
      intros i rank Ei. rewrite nth_error_map, Ei, Lr. reflexivity.
Qed.

Lemma plotting_positions_table_witness :
  plotting_positions [5; 3; 8]%Z (Some [0; 1]%Z) "Benard"
  = Raise IndexError /\
  exists ranks,
    ranks_of [5; 3; 8]%Z (Some [0; 1; 0]%Z) = Ok ranks /\
    length ranks = 3%nat /\
    (~ known_formula "Benard" ->
     plotting_positions [5; 3; 8]%Z (Some [0; 1; 0]%Z) "Benard"
     = Raise UnboundLocalError) /\
    (forall A B, In ("Benard"%string, (A, B)) formula_table ->
       exists p,
         plotting_positions [5; 3; 8]%Z (Some [0; 1; 0]%Z) "Benard" = Ok p /\
         length p = 3%nat /\
         forall i rank,
           nth_error ranks i = Some rank ->
           nth_error p i
           = Some (fdiv (fsub rank (of_Q A))
                        (fadd (of_nat 3) (of_Q B)))).
Proof.
  split.
  - apply (proj1 (plotting_positions_table [5; 3; 8]%Z (Some [0; 1]%Z)
                                           "Benard") [0; 1]%Z eq_refl).
    simpl. lia.
  - apply (proj2 (plotting_positions_table [5; 3; 8]%Z (Some [0; 1; 0]%Z)
                                           "Benard")).
    intros c E. injection E as <-. simpl. lia.
Defined.

(** ** The Turnbull pass sums to the number of units *)

Lemma qnat_S (k : nat) : qnat (S k) = 1 + qnat k.
Proof.
  unfold qnat, Qcplus. apply Q2Qc_eq_iff. cbn [this Q2Qc].
  rewrite !Qred_correct, Nat2Z.inj_succ. unfold Z.succ.
  rewrite inject_Z_plus. change (inject_Z 1) with 1%Q. ring.
Qed.

Lemma qnat_nonzero (k : nat) : k <> O -> qnat k <> 0.
Proof.
  unfold qnat. intros N E. apply N.
  apply (proj1 (Q2Qc_eq_iff _ _)) in E.
  unfold Qeq, inject_Z in E. simpl in E. lia.
Qed.

Lemma fsum_Fin (l : list Qc) : fsum (map Fin l) = Fin (qsum l).
Proof.
  induction l as [| a l IH]; [reflexivity |].
  cbn [map].
  change (fsum (Fin a :: map Fin l)) with (fadd (Fin a) (fsum (map Fin l))).
  rewrite IH. reflexivity.
Qed.

Lemma fold_left_fadd_Fin (l : list Qc) : forall a,
  fold_left fadd (map Fin l) (Fin a) = Fin (a + qsum l).
Proof.
  induction l as [| v l IH]; intros a; simpl.
  - f_equal. ring.
  - rewrite IH. f_equal. ring.
Qed.

Lemma qsum_map_add {A : Type} (f g : A -> Qc) (l : list A) :
  qsum (map (fun a => f a + g a) l) = qsum (map f l) + qsum (map g l).
Proof. induction l as [| a l IH]; simpl; [| rewrite IH]; ring. Qed.

Lemma qsum_map_mul {A : Type} (f : A -> Qc) (k : Qc) (l : list A) :
  qsum (map (fun a => f a * k) l) = qsum (map f l) * k.
Proof. induction l as [| a l IH]; simpl; [| rewrite IH]; ring. Qed.

Lemma qsum_zero {A : Type} (l : list A) :
  qsum (map (fun _ => 0) l) = 0.
Proof. induction l as [| a l IH]; simpl; [| rewrite IH]; ring. Qed.

Lemma qsum_ones {A : Type} (l : list A) :
  qsum (map (fun _ => 1) l) = qnat (length l).
Proof.
  induction l as [| a l IH]; [reflexivity |].
  simpl length. rewrite qnat_S, <- IH. reflexivity.
Qed.

Lemma qsum_swap {A B : Type} (f : A -> B -> Qc) (la : list A) (lb : list B) :
  qsum (map (fun b => qsum (map (fun a => f a b) la)) lb)
  = qsum (map (fun a => qsum (map (f a) lb)) la).
Proof.
  induction lb as [| b lb IH]; simpl.
  - rewrite qsum_zero. reflexivity.
  - rewrite IH, <- qsum_map_add. reflexivity.
Qed.

Lemma map_nth_seq {A : Type} (l : list A) (d : A) :
  map (fun j => nth j l d) (seq 0 (length l)) = l.
Proof.
  induction l as [| a l IH]; simpl; [reflexivity |].
  f_equal. rewrite <- seq_shift, map_map. exact IH.
Qed.

Lemma bit_mass_sum (q : Qc) (bs : list bool) :
  qsum (map (bit_mass q) bs) = q * qnat (length (filter (fun b => b) bs)).
Proof.
  induction bs as [| b bs IH]; simpl.
  - change (qnat 0) with 0. ring.
  - rewrite IH. destruct b; simpl.
    + rewrite qnat_S. ring.
    + change (Q2Qc 0) with 0. ring.
Qed.

Lemma bit_mass_nonzero (q : Qc) (bs : list bool) :
  q <> 0 -> In true bs -> qsum (map (bit_mass q) bs) <> 0.
Proof.
  intros Hq I. rewrite bit_mass_sum. intros E.
  apply Qcmult_integral in E. destruct E as [E | E]; [contradiction |].
  revert E. apply qnat_nonzero.
  assert (J : In true (filter (fun b => b) bs))
    by (apply filter_In; split; [exact I | reflexivity]).
  destruct (filter (fun b => b) bs); [contradiction | discriminate].
Qed.

Lemma fmul_bit (q : Qc) (b : bool) : fmul (of_bool b) (Fin q) = Fin (bit_mass q b).
Proof.
  destruct b; unfold of_bool, of_Z, of_Q, fmul, bit_mass; f_equal.
  - change (Q2Qc (inject_Z 1)) with 1. ring.
  - change (Q2Qc (inject_Z 0)) with 0. change (Q2Qc 0) with 0. ring.
Qed.

Lemma products_bits (q : Qc) (bs : list bool) :
  map2 fmul (map of_bool bs) (repeat (Fin q) (length bs))
  = map Fin (map (bit_mass q) bs).
Proof.
  induction bs as [| b bs IH]; simpl; [reflexivity |].
  rewrite IH. f_equal. apply fmul_bit.
Qed.

Lemma denominator_bits (q : Qc) (bs : list bool) :
  denominator (map of_bool bs) (repeat (Fin q) (length bs))
  = Fin (qsum (map (bit_mass q) bs)).
Proof.
  unfold denominator. rewrite products_bits.
  change (of_Z 0) with (Fin 0). rewrite fold_left_fadd_Fin.
  f_equal. ring.
Qed.

Lemma qzero_false (q : Qc) : q <> 0 -> qzero q = false.
Proof.
  intros N. destruct (qzero q) eqn:E; [| reflexivity].
  apply qzero_spec in E. contradiction.
Qed.

Lemma contribution_bits (q : Qc) (bs : list bool) (j : nat) :
  q <> 0 -> In true bs -> (j < length bs)%nat ->
  contribution (repeat (Fin q) (length bs)) j (map of_bool bs)
  = Fin (bit_mass q (nth j bs false) / qsum (map (bit_mass q) bs)).
Proof.
  intros Hq I Hj. unfold contribution. rewrite denominator_bits.
  rewrite (nth_indep _ NaN (of_bool false)) by (rewrite length_map; exact Hj).
  rewrite map_nth.
  rewrite (nth_indep _ NaN (Fin q)) by (rewrite repeat_length; exact Hj).
  rewrite nth_repeat, fmul_bit. unfold fdiv.
  rewrite (qzero_false (@bit_mass_nonzero q bs Hq I)). reflexivity.
Qed.

Lemma good_rows_bits (m : nat) (rows : list (list npfloat)) :
  Forall (good_row m) rows ->
  exists rowsB,
    rows = map (map of_bool) rowsB /\
    Forall (fun bs => length bs = m /\ In true bs) rowsB.
Proof.
  induction 1 as [| row rows [bs [-> [L I]]] _ [rowsB [-> F]]].
  - exists []. split; [reflexivity | constructor].
  - exists (bs :: rowsB). split; [reflexivity |].
    constructor; [split; assumption | exact F].
Qed.

Lemma turnbull_mass (q : Qc) (m : nat) (rows : list (list npfloat)) :
  q <> 0 -> Forall (good_row m) rows ->
  fsum (map (fun j => fsum (map (contribution (repeat (Fin q) m) j) rows))
            (seq 0 m))
  = Fin (qnat (length rows)).
Proof.
  intros Hq G. destruct (good_rows_bits G) as [rowsB [-> F]].
  rewrite Forall_forall in F.
  set (c := fun (bs : list bool) (j : nat) =>
              bit_mass q (nth j bs false) / qsum (map (bit_mass q) bs)).
  assert (E : map (fun j => fsum (map (contribution (repeat (Fin q) m) j)
                                      (map (map of_bool) rowsB)))
                  (seq 0 m)
              = map Fin (map (fun j => qsum (map (fun bs => c bs j) rowsB))
                             (seq 0 m))).
  { rewrite map_map. apply map_ext_in. intros j Hj. apply in_seq in Hj.
    rewrite map_map, <- fsum_Fin, map_map. f_equal.
    apply map_ext_in. intros bs Hb. destruct (F bs Hb) as [L I].
    subst m. apply contribution_bits; [assumption | assumption | lia]. }
  rewrite E, fsum_Fin, length_map. f_equal.
  rewrite qsum_swap, <- (qsum_ones rowsB). f_equal.
  apply map_ext_in. intros bs Hb. destruct (F bs Hb) as [L I].
  unfold c, Qcdiv. rewrite qsum_map_mul.
  assert (S : qsum (map (fun j => bit_mass q (nth j bs false)) (seq 0 m))
              = qsum (map (bit_mass q) bs)).
  { rewrite <- L, <- (map_map (fun j => nth j bs false) (bit_mass q)).
    rewrite map_nth_seq. reflexivity. }
  rewrite S. apply Qcmult_inv_r, bit_mass_nonzero; assumption.
Qed.

Lemma Forall2_nth_error {A B : Type} (R : A -> B -> Prop) (l : list A)
      (l' : list B) :
  Forall2 R l l' ->
  forall i a, nth_error l i = Some a ->
              exists b, nth_error l' i = Some b /\ R a b.
Proof.
  induction 1 as [| a0 b0 l l' Hab _ IH]; intros [| i] a E;
    try discriminate.
  - injection E as <-. exists b0. split; [reflexivity | exact Hab].
  - apply (IH i a E).
Qed.

Section TurnbullFacts.

Context {T : Type} `{Ordered T}.

Lemma alpha_row_good (x : list T) (lo up : T) :
  In lo x -> leb lo up = true -> good_row (length x) (alpha_row x lo up).
Proof.
  intros I L.
  exists (map (fun xj => leb lo xj && leb xj up) x).
  split; [| split].
  - unfold alpha_row. rewrite map_map. reflexivity.
  - apply length_map.
  - apply in_map_iff. exists lo. split; [| exact I].
    rewrite leb_refl, L. reflexivity.
Qed.

Lemma alpha_rows_good (x lower upper : list T) (ixs : list nat) :
  Forall (fun i => exists lo up,
              nth_error lower i = Some lo /\ nth_error upper i = Some up /\
              leb lo up = true /\ In lo x) ixs ->
  exists rows,
    alpha_rows x lower upper ixs = Ok rows /\
    length rows = length ixs /\
    Forall (good_row (length x)) rows.
Proof.
  induction 1 as [| i ixs [lo [up [El [Eu [L I]]]]] _ [rows [E [Len G]]]].
  - exists []. repeat split. constructor.
  - exists (alpha_row x lo up :: rows). simpl.
    rewrite (getitem_Some _ _ El), (getitem_Some _ _ Eu), E. simpl.
    repeat split.
    + congruence.
    + constructor; [apply alpha_row_good; assumption | exact G].
Qed.

Lemma py_inv_positive (m : nat) :
  m <> O -> exists q, py_inv m = Ok (Fin q) /\ q <> 0.
Proof.
  intros N. destruct m as [| m']; [contradiction |].
  unfold py_inv, of_nat, of_Z, of_Q, fdiv.
  fold (qnat (S m')). rewrite (qzero_false (qnat_nonzero N)).
  eexists. split; [reflexivity |].
  intros E.
  pose proof (@Qcmult_div_r (Q2Qc (inject_Z 1)) _ (qnat_nonzero N)) as M.
  rewrite E, Qcmult_0_r in M. discriminate.
Qed.

End TurnbullFacts.

(** C2 (as stated it fails): for the two units [[1,2]] and [[1,2]] the
    pass returns the masses [1, 1], which sum to [2], the number of
    units, and not to [1]. *)
Lemma turnbull_mass_two_units :
  valid_sample [1; 1]%Z [2; 2]%Z /\
  exists alphas d,
    turnbull [1; 1]%Z [2; 2]%Z = Ok (alphas, d) /\
    d = [of_Z 1; of_Z 1] /\
    fsum d = of_Z 2 /\ fsum d <> of_Z 1.
Proof.
  split.
  - split; [discriminate | repeat constructor].
  - eexists. eexists. split; [reflexivity |].
    split; [vm_compute; fin_list |].
    split; [vm_compute; fin_list | vm_compute; discriminate].
Qed.

(** C2 (amended): for every interval-censored sample of [n >= 1] units
    with [lower[i] <= upper[i]], [turnbull] makes one pass from the
    uniform mass and returns a vector [d], one entry per distinct end
    point, that sums to [n], the number of units (in exact arithmetic);
    it neither normalises nor iterates. *)
Theorem turnbull_sums_to_units {T : Type} `{Ordered T} (lower upper : list T) :
  valid_sample lower upper ->
  exists alphas d,
    turnbull lower upper = Ok (alphas, d) /\
    length alphas = length lower /\
    length d = length (np_unique (lower ++ upper)) /\
    fsum d = of_nat (length lower).
Proof.
  intros [Ne F]. unfold turnbull.
  set (x := np_unique (lower ++ upper)).
  assert (Nx : length x <> O).
  { destruct lower as [| lo lower]; [contradiction |].
    assert (I : In lo x) by (apply np_unique_In; left; reflexivity).
    destruct x; [contradiction | discriminate]. }
  destruct (py_inv_positive Nx) as [q [Ep Hq]]. rewrite Ep. cbn [bind].
  destruct (@alpha_rows_good _ _ x lower upper (seq 0 (length lower)))
    as [rows [Er [Len G]]].
  { apply Forall_forall. intros i Hi. apply in_seq in Hi.
    destruct (nth_error lower i) as [lo |] eqn:El;
      [| apply nth_error_None in El; lia].
    destruct (Forall2_nth_error F _ El) as [up [Eu L]].
    exists lo, up. repeat split; try assumption.
    apply np_unique_In, in_or_app. left. eapply nth_error_In, El. }
  rewrite Er. cbn [bind]. eexists. eexists.
  split; [reflexivity |]. rewrite length_seq in Len.
  split; [exact Len |]. split; [rewrite length_map; apply length_seq |].
  rewrite (turnbull_mass Hq G), Len. reflexivity.
Qed.

Lemma turnbull_sums_to_units_witness :
  valid_sample [1; 2; 4]%Z [3; 2; 7]%Z /\
  exists alphas d,
    turnbull [1; 2; 4]%Z [3; 2; 7]%Z = Ok (alphas, d) /\
    length alphas = 3%nat /\
    length d = length (np_unique ([1; 2; 4] ++ [3; 2; 7])%Z) /\
    fsum d = of_nat 3.
Proof.
  assert (V : valid_sample [1; 2; 4]%Z [3; 2; 7]%Z)
    by (split; [discriminate | repeat constructor]).
  split; [exact V | exact (turnbull_sums_to_units V)].
Defined.

(** ** The claims on the rank-regression fitters *)

Lemma plotting_positions_total {T : Type} `{Ordered T}
      (t : list T) (censored : list Z) (plotting : string) :
  length censored = length t -> known_formula plotting ->
  exists f, plotting_positions t (Some censored) plotting = Ok f.
Proof.
  intros L K. unfold plotting_positions, ranks_of.
  destruct (rank_adjust_total t censored L) as [ranks [-> _]].
  unfold known_formula in K. apply in_map_iff in K.
  destruct K as [[name [A B]] [E I]]. simpl in E. subst name.
  rewrite (formula_constants_table I). cbn [bind]. eexists. reflexivity.
Qed.

Lemma fitter_prefix (t : list Qc) (censored : option (list Z))
      (plotting : string) :
  censoring_aligned t censored -> known_formula plotting ->
  exists t' cs f,
    take t (argsort t) = Ok t' /\
    take (match censored with
          | None => repeat 0%Z (length t)
          | Some c => c
          end) (argsort t) = Ok cs /\
    plotting_positions t' (Some cs) plotting = Ok f.
Proof.
  intros A K.
  destruct (take_argsort t) as [t' [Et Pt]].
  destruct (@take_perm _ (match censored with
                          | None => repeat 0%Z (length t)
                          | Some c => c
                          end) (argsort t)) as [cs [Ecs Pcs]].
  { replace (length _) with (length t); [apply argsort_perm |].
    destruct censored as [c |]; simpl in A;
      [congruence | rewrite repeat_length; reflexivity]. }
  destruct (@plotting_positions_total _ _ t' cs plotting) as [f Ef];
    [| exact K |].
  { rewrite (take_length _ _ Ecs), (take_length _ _ Et). reflexivity. }
  exists t', cs, f. repeat split; assumption.
Qed.

Ltac run_prefix Et Ecs Ef :=
  match goal with
  | |- context [(length (?a :: ?l) =? 0)%nat] =>
      change ((length (a :: l) =? 0)%nat) with false
  end;
  lazy beta iota zeta; rewrite Et; cbn [bind]; rewrite Ecs; cbn [bind];
  rewrite Ef; cbn [bind negb].




(** ** Ranks of fully uncensored data *)

Lemma qnat_add (i j : nat) : qnat (i + j) = qnat i + qnat j.
Proof.
  induction i as [| i IH]; simpl Nat.add.
  - change (qnat 0) with 0. ring.
  - rewrite !qnat_S, IH. ring.
Qed.

Lemma of_Z_nat (j : nat) : of_Z (Z.of_nat j) = Fin (qnat j).
Proof. reflexivity. Qed.

Lemma mean_order_step (n k m : nat) :
  (k + S m = n)%nat ->
  fadd (Fin (qnat k * (qnat (S n) / qnat (S (S n)))))
       (fdiv (fsub (of_Z (Z.of_nat n + 1))
                   (Fin (qnat k * (qnat (S n) / qnat (S (S n))))))
             (of_Z (Z.of_nat n - Z.of_nat k + 2)))
  = mean_order_rank n k.
Proof.
  intros E.
  replace (Z.of_nat n + 1)%Z with (Z.of_nat (S n)) by lia.
  replace (Z.of_nat n - Z.of_nat k + 2)%Z with (Z.of_nat (S (S (S m))))
    by lia.
  rewrite !of_Z_nat. unfold mean_order_rank, fsub, fneg, fadd, fdiv.
  assert (Nv : qnat (S (S (S m))) <> 0) by (apply qnat_nonzero; discriminate).
  assert (Nb : qnat (S (S n)) <> 0) by (apply qnat_nonzero; discriminate).
  rewrite (qzero_false Nv). f_equal.
  assert (B : qnat (S (S n)) = qnat k + qnat (S (S (S m)))).
  { rewrite <- qnat_add. f_equal. lia. }
  rewrite (qnat_S k). rewrite B in *. field. split; assumption.
Qed.

Lemma rank_loop_uncensored (n : nat) : forall m k,
  (k + m = n)%nat ->
  rank_loop (Z.of_nat n) (repeat 0%Z n) (seq k m)
            (Fin (qnat k * (qnat (S n) / qnat (S (S n)))))
  = Ok (map (mean_order_rank n) (seq k m)).
Proof.
  induction m as [| m IH]; intros k E; [reflexivity |].
  cbn [seq rank_loop map].
  rewrite (getitem_Some _ _ (nth_error_repeat 0%Z (n := k) (m := n)
                               ltac:(lia))).
  cbn [bind Z.eqb]. rewrite (@mean_order_step n k m E).
  unfold mean_order_rank at 1 2. rewrite IH by lia. reflexivity.
Qed.

(** With every censoring code 0, entry [i] (from 0) of [n] gets the rank
    [(i + 1)(n + 1)/(n + 2)]. *)
Lemma rank_adjust_uncensored {T : Type} `{Ordered T} (t : list T) :
  rank_adjust t (Some (repeat 0%Z (length t)))
  = Ok (map (mean_order_rank (length t)) (seq 0 (length t))).
Proof.
  unfold rank_adjust, subscript.
  destruct (take_argsort t) as [t' [Et Pt]].
  destruct (@take_perm _ (repeat 0%Z (length t)) (argsort t)) as [cs [Ecs Pcs]];
    [rewrite repeat_length; apply argsort_perm |].
  apply Permutation_repeat in Pcs. subst cs.
  rewrite Et, Ecs. cbn [bind].
  rewrite (Permutation_length Pt).
  rewrite <- (@rank_loop_uncensored (length t) (length t) 0%nat eq_refl).
  f_equal. unfold of_Z, of_Q. f_equal. change (qnat 0) with 0.
  change (Q2Qc (inject_Z 0)) with 0. unfold Qcdiv. ring.
Qed.

Lemma Fin_inj (p q : Qc) : Fin p = Fin q -> p = q.
Proof.
  intros E.
  exact (f_equal (fun v => match v with Fin x => x | _ => p end) E).
Qed.

(** None of these ranks is the plain rank [i + 1]. *)
Lemma mean_order_rank_not_plain (n i : nat) :
  mean_order_rank n i <> of_nat (S i).
Proof.
  unfold mean_order_rank, of_nat. rewrite of_Z_nat. intros E.
  apply Fin_inj in E.
  assert (Ni : qnat (S i) <> 0) by (apply qnat_nonzero; discriminate).
  assert (Nb : qnat (S (S n)) <> 0) by (apply qnat_nonzero; discriminate).
  assert (R : qnat (S n) / qnat (S (S n)) = 1).
  { assert (Z0 : qnat (S i) * (qnat (S n) / qnat (S (S n)) - 1) = 0)
      by (transitivity (qnat (S i) * (qnat (S n) / qnat (S (S n)))
                        - qnat (S i)); [ring | rewrite E; ring]).
    apply (Qcmult_integral_l _ _ Ni) in Z0.
    rewrite <- (Qcplus_0_l 1), <- Z0. ring. }
  pose proof (Qcmult_div_r (qnat (S n)) _ Nb) as M.
  rewrite R, Qcmult_1_r, (qnat_S (S n)) in M.
  apply Q_apart_0_1.
  assert (Z1 : 1 + qnat (S n) - qnat (S n) = 0) by (rewrite M at 1; ring).
  rewrite <- Z1. ring.
Qed.

(** C4 (the code departs from it): a single uncensored time gets the
    rank [2/3], not the plain rank [1]; three uncensored times get
    [4/5, 8/5, 12/5], not [1, 2, 3]. *)
Theorem rank_adjust_uncensored_example :
  rank_adjust [5]%Z (Some [0]%Z) = Ok [of_Q (2 # 3)] /\
  rank_adjust [5]%Z (Some [0]%Z) <> Ok [of_Z 1] /\
  rank_adjust [5; 3; 8]%Z (Some [0; 0; 0]%Z)
  = Ok [of_Q (4 # 5); of_Q (8 # 5); of_Q (12 # 5)].
Proof.
  split; [vm_compute; fin_list |].
  split; [vm_compute; discriminate |].
  vm_compute; fin_list.
Qed.

(** * Further properties of the code *)

(** ** [np.argsort] sorts *)

Section SortFacts.

Context {T : Type} `{Ordered T}.

Lemma leb_false_flip (a b : T) : leb a b = false -> leb b a = true.
Proof.
  intros E. destruct (leb_total a b) as [L | L]; [congruence | exact L].
Qed.

Lemma insert_key_In (p q : T * nat) l :
  In q (insert_key p l) <-> q = p \/ In q l.
Proof.
  split.
  - intros I. apply (Permutation_in _ (insert_key_perm p l)) in I.
    destruct I as [<- | I]; auto.
  - intros I. apply (Permutation_in _ (Permutation_sym (insert_key_perm p l))).
    destruct I as [-> | I]; [left; reflexivity | right; exact I].
Qed.

Lemma insert_key_sorted (p : T * nat) l :
  StronglySorted (fun a b => leb (fst a) (fst b) = true) l ->
  StronglySorted (fun a b => leb (fst a) (fst b) = true) (insert_key p l).
Proof.
  induction 1 as [| q l Hs IH Hq]; simpl.
  - repeat constructor.
  - destruct (leb (fst p) (fst q)) eqn:E.
    + constructor; [constructor; assumption |].
      constructor; [exact E |].
      eapply Forall_impl; [| exact Hq].
      simpl. intros e He. apply (leb_trans _ _ _ E He).
    + constructor; [exact IH |].
      apply Forall_forall. intros e He. apply insert_key_In in He.
      destruct He as [-> | He].
      * apply leb_false_flip, E.
      * rewrite Forall_forall in Hq. apply Hq, He.
Qed.

Lemma sort_keys_sorted (l : list (T * nat)) :
  StronglySorted (fun a b => leb (fst a) (fst b) = true)
                 (fold_right insert_key [] l).
Proof.
  induction l as [| p l IH]; simpl; [constructor |].
  apply insert_key_sorted, IH.
Qed.

Lemma sort_keys_perm (l : list (T * nat)) :
  Permutation (fold_right insert_key [] l) l.
Proof.
  induction l as [| p l IH]; simpl; [reflexivity |].
  rewrite insert_key_perm. constructor. exact IH.
Qed.

Lemma in_combine_seq {A : Type} (x : list A) : forall k a i,
  In (a, i) (combine x (seq k (length x))) ->
  (k <= i)%nat /\ nth_error x (i - k) = Some a.
Proof.
  induction x as [| b x IH]; intros k a i; simpl; [contradiction |].
  intros [E | I].
  - injection E as -> ->. rewrite Nat.sub_diag. split; [lia | reflexivity].
  - destruct (IH _ _ _ I) as [L E]. split; [lia |].
    replace (i - k)%nat with (S (i - S k)) by lia. exact E.
Qed.

Lemma take_pairs {A : Type} (x : list A) (l : list (A * nat)) :
  (forall a i, In (a, i) l -> nth_error x i = Some a) ->
  take x (map snd l) = Ok (map fst l).
Proof.
  induction l as [| [a i] l IH]; intros I; simpl; [reflexivity |].
  rewrite (getitem_Some _ _ (I a i (or_introl eq_refl))). simpl.
  rewrite IH by (intros b j Hb; apply I; right; exact Hb).
  reflexivity.
Qed.

Lemma StronglySorted_map {A B : Type} (R : B -> B -> Prop) (f : A -> B)
      (l : list A) :
  StronglySorted (fun a b => R (f a) (f b)) l -> StronglySorted R (map f l).
Proof.
  induction 1 as [| a l Hs IH Ha]; simpl; constructor; [exact IH |].
  apply Forall_forall. intros b Hb. apply in_map_iff in Hb.
  destruct Hb as [c [<- Hc]]. rewrite Forall_forall in Ha. apply Ha, Hc.
Qed.

(** [x[np.argsort(x)]] is [x] in non-decreasing order. *)
Lemma take_argsort_sorted (x : list T) :
  exists t,
    take x (argsort x) = Ok t /\ Permutation t x /\
    StronglySorted (fun a b => leb a b = true) t.
Proof.
  unfold argsort.
  set (l := fold_right insert_key [] (combine x (seq 0 (length x)))).
  exists (map fst l). split; [| split].
  - apply take_pairs. intros a i I.
    apply (Permutation_in _ (sort_keys_perm _)), in_combine_seq in I.
    rewrite Nat.sub_0_r in I. apply I.
  - subst l. rewrite (Permutation_map fst (sort_keys_perm _)).
    assert (E : forall (y : list T) k,
               map fst (combine y (seq k (length y))) = y).
    { induction y as [| a y IH]; intros k; simpl; [reflexivity |].
      f_equal. apply IH. }
    rewrite E. reflexivity.
  - apply StronglySorted_map, sort_keys_sorted.
Qed.

Lemma ltb_leb (a b : T) : ltb a b -> leb a b = true.
Proof. unfold ltb. apply leb_false_flip. Qed.

Lemma np_unique_sorted_le (x : list T) :
  StronglySorted (fun a b => leb a b = true) (np_unique x).
Proof.
  generalize (np_unique_sorted x).
  induction 1 as [| a l Hs IH Ha]; constructor; [exact IH |].
  eapply Forall_impl; [| exact Ha]. intros b. apply ltb_leb.
Qed.

End SortFacts.

(** ** The shape of the risk-set table *)

Section ShapeFacts.

Context {T : Type} `{Ordered T}.

Lemma get_r_c_d_shape (x : list T) (censored counts : option (list Z)) :
  aligned x censored counts ->
  exists x' d c,
    get_r_c_d x censored counts
    = Ok (Table x'
            match counts with
            | None => risk_set (population x counts) d c
            | Some _ => risk_set64 (population x counts) d c
            end c d) /\
    length d = length x' /\ length c = length x' /\
    (forall a, In a x' <-> In a x) /\
    StronglySorted (fun a b => leb a b = true) x' /\
    (censored <> None \/ counts = None -> StronglySorted ltb x') /\
    (censored = None -> counts <> None -> Permutation x' x).
Proof.
  intros [Ac Ak]. unfold get_r_c_d, population.
  destruct (take_argsort_sorted x) as [t [Et [Pt St]]].
  pose proof (argsort_perm x) as P.
  assert (It : forall a, In a (np_unique t) <-> In a x).
  { intros a. rewrite np_unique_In. split; apply Permutation_in;
      [exact Pt | apply Permutation_sym, Pt]. }
  destruct censored as [censored |], counts as [counts |].
  - specialize (Ac _ eq_refl). specialize (Ak _ eq_refl).
    destruct (@take_perm _ counts (argsort x)) as [k [Ek _]];
      [rewrite Ak; exact P |].
    destruct (@take_perm _ censored (argsort x)) as [cs [Ecs _]];
      [rewrite Ac; exact P |].
    rewrite Et, Ek, Ecs. cbn [bind].
    pose proof (take_length _ _ Et) as Lt.
    pose proof (take_length _ _ Ek) as Lk.
    pose proof (take_length _ _ Ecs) as Lcs.
    destruct (@accumulate_counts_total _ _ (np_unique t) t cs k
                (seq 0 (length t)))
      with (d0 := zeros_like (np_unique t)) (c0 := zeros_like (np_unique t))
      as [[d c] E].
    { apply Forall_forall. intros i Hi. apply in_seq in Hi.
      repeat split; lia. }
    rewrite E. cbn [bind fst snd].
    destruct (accumulate_counts_length _ _ _ _ _ _ _ E) as [Ld Lc];
      try apply zeros_like_length.
    exists (np_unique t), d, c.
    split; [reflexivity |]. split; [exact Ld |]. split; [exact Lc |].
    split; [exact It |]. split; [apply np_unique_sorted_le |].
    split; [intros _; apply np_unique_sorted | discriminate].
  - specialize (Ac _ eq_refl).
    destruct (@accumulate_total _ _ (np_unique x) x censored
                (fun _ => Ok 1%Z) (seq 0 (length x)))
      with (d0 := zeros_like (np_unique x)) (c0 := zeros_like (np_unique x))
      as [[d c] E].
    { apply seq_in_range; [assumption |].
      intros i _. exists 1%Z. reflexivity. }
    rewrite E. simpl.
    destruct (accumulate_length _ _ _ _ _ _ _ E) as [Ld Lc];
      try apply zeros_like_length.
    exists (np_unique x), d, c.
    split; [reflexivity |]. split; [exact Ld |]. split; [exact Lc |].
    split; [intros a; apply np_unique_In |].
    split; [apply np_unique_sorted_le |].
    split; [intros _; apply np_unique_sorted | discriminate].
  - specialize (Ak _ eq_refl).
    destruct (@take_perm _ counts (argsort x)) as [k [Ek _]];
      [rewrite Ak; exact P |].
    rewrite Et, Ek. simpl.
    pose proof (take_length _ _ Et) as Lt.
    pose proof (take_length _ _ Ek) as Lk.
    exists t, k, (zeros_like t).
    split; [reflexivity |]. split; [congruence |].
    split; [apply zeros_like_length |].
    split; [intros a; split; apply Permutation_in;
            [exact Pt | apply Permutation_sym, Pt] |].
    split; [exact St |].
    split; [intros [N | N]; [contradiction | discriminate] |].
    intros _ _. exact Pt.
  - simpl. exists (np_unique x), (map (count_of x) (np_unique x)),
             (zeros_like (np_unique x)).
    split; [reflexivity |]. split; [apply length_map |].
    split; [apply zeros_like_length |].
    split; [intros a; apply np_unique_In |].
    split; [apply np_unique_sorted_le |].
    split; [intros _; apply np_unique_sorted |].
    intros _ N. contradiction.
Qed.

Lemma risk_recurrence_last (d c : list Z) : forall r rl dl cl,
  length d = length c -> (zsum d + zsum c = r)%Z ->
  nth_error (risk_recurrence r d c) (length d - 1) = Some rl ->
  nth_error d (length d - 1) = Some dl ->
  nth_error c (length d - 1) = Some cl ->
  rl = (dl + cl)%Z.
Proof.
  revert c. induction d as [| d0 d IH]; intros [| c0 c] r rl dl cl L Hs;
    try discriminate.
  injection L as L. destruct d as [| d1 d], c as [| c1 c]; try discriminate.
  - simpl in *. intros E1 E2 E3.
    injection E1 as <-. injection E2 as <-. injection E3 as <-. lia.
  - replace (length (d0 :: d1 :: d) - 1)%nat
      with (Datatypes.S (length (d1 :: d) - 1)%nat) by (simpl; lia).
    change (risk_recurrence r (d0 :: d1 :: d) (c0 :: c1 :: c))
      with (r :: risk_recurrence (r - d0 - c0) (d1 :: d) (c1 :: c)).
    cbn [nth_error]. apply IH; [exact L |].
    change (zsum (d0 :: d1 :: d)) with (d0 + zsum (d1 :: d))%Z in Hs.
    change (zsum (c0 :: c1 :: c)) with (c0 + zsum (c1 :: c))%Z in Hs.
    lia.
Qed.

End ShapeFacts.

(** X1: on aligned input the time column of the table holds exactly the
    values of the input times in non-decreasing order; it is strictly
    increasing whenever censoring codes are given or counts are absent,
    and with counts alone it is the sorted input, duplicates kept. *)
Theorem get_r_c_d_times {T : Type} `{Ordered T}
        (x : list T) (censored counts : option (list Z)) :
  aligned x censored counts ->
  exists tbl,
    get_r_c_d x censored counts = Ok tbl /\
    (forall a, In a (tx tbl) <-> In a x) /\
    StronglySorted (fun a b => leb a b = true) (tx tbl) /\
    (censored <> None \/ counts = None -> StronglySorted ltb (tx tbl)) /\
    (censored = None -> counts <> None -> Permutation (tx tbl) x).
Proof.
  intros A.
  destruct (get_r_c_d_shape A) as [x' [d [c [E [_ [_ [I [S [S' P]]]]]]]]].
  eexists. split; [exact E |]. simpl. repeat split; try assumption; apply I.
Qed.

Lemma get_r_c_d_times_witness :
  exists tbl,
    get_r_c_d [7; 2; 7; 4]%Z None (Some [1; 2; 3; 4]%Z) = Ok tbl /\
    (forall a, In a (tx tbl) <-> In a [7; 2; 7; 4]%Z) /\
    StronglySorted (fun a b => leb a b = true) (tx tbl) /\
    (@None (list Z) <> None \/ Some [1; 2; 3; 4]%Z = None ->
     StronglySorted ltb (tx tbl)) /\
    (@None (list Z) = None -> Some [1; 2; 3; 4]%Z <> None ->
     Permutation (tx tbl) [7; 2; 7; 4]%Z).
Proof.
  apply (@get_r_c_d_times Z _ [7; 2; 7; 4]%Z None (Some [1; 2; 3; 4]%Z)).
  split; intros l E; [discriminate | injection E as <-; reflexivity].
Defined.

(** X2: on valid input whose counts, if any, have a total that the
    arithmetic holds exactly (below [2^63] for integer times, below
    [2^53] for float times), the columns of the table have one length
    and the risk column follows the recurrence of the code's comment:
    [r[0] = N] and [r[i+1] = r[i] - d[i] - c[i]]. *)
Theorem get_r_c_d_risk_recurrence {T : Type} `{Ordered T}
        (x : list T) (censored counts : option (list Z)) :
  valid_input x censored counts -> no_overflow counts ->
  exists tbl,
    get_r_c_d x censored counts = Ok tbl /\
    length (td tbl) = length (tx tbl) /\
    length (tc tbl) = length (tx tbl) /\
    length (tr tbl) = length (tx tbl) /\
    tr tbl = risk_recurrence (population x counts) (td tbl) (tc tbl).
Proof.
  intros V NO.
  destruct (get_r_c_d_valid V NO) as [x' [d [c [E [Ld [Lc _]]]]]].
  eexists. split; [exact E |]. simpl.
  assert (L : length d = length c) by congruence.
  rewrite (risk_set_recurrence _ d c L).
  repeat split; try assumption.
  rewrite (risk_recurrence_length d c _ L). exact Ld.
Qed.

Lemma get_r_c_d_risk_recurrence_witness :
  exists tbl,
    get_r_c_d [3; 1; 3; 2]%Z (Some [0; 1; 1; 0]%Z) (Some [2; 3; 4; 5]%Z)
    = Ok tbl /\
    length (td tbl) = length (tx tbl) /\
    length (tc tbl) = length (tx tbl) /\
    length (tr tbl) = length (tx tbl) /\
    tr tbl = risk_recurrence
               (population [3; 1; 3; 2]%Z (Some [2; 3; 4; 5]%Z))
               (td tbl) (tc tbl).
Proof.
  apply (@get_r_c_d_risk_recurrence Z _ [3; 1; 3; 2]%Z
           (Some [0; 1; 1; 0]%Z) (Some [2; 3; 4; 5]%Z)).
  - repeat split; intros l E; injection E as <-;
      try reflexivity; repeat constructor; lia.
  - intros k E. injection E as <-. reflexivity.
Defined.

(** X3: on valid input whose counts, if any, have a total that the
    arithmetic holds exactly (below [2^63] for integer times, below
    [2^53] for float times), every unit is counted once, as a failure or
    as a censoring: [sum(d) + sum(c) = N]; and the risk set is used up
    at the last time, [r = d + c] in the last row. *)
Theorem get_r_c_d_conservation {T : Type} `{Ordered T}
        (x : list T) (censored counts : option (list Z)) :
  valid_input x censored counts -> no_overflow counts ->
  exists tbl,
    get_r_c_d x censored counts = Ok tbl /\
    (zsum (td tbl) + zsum (tc tbl) = population x counts)%Z /\
    forall rl dl cl,
      nth_error (tr tbl) (length (tx tbl) - 1) = Some rl ->
      nth_error (td tbl) (length (tx tbl) - 1) = Some dl ->
      nth_error (tc tbl) (length (tx tbl) - 1) = Some cl ->
      rl = (dl + cl)%Z.
Proof.
  intros V NO.
  destruct (get_r_c_d_valid V NO) as [x' [d [c [E [Ld [Lc [_ [_ S]]]]]]]].
  eexists. split; [exact E |]. simpl. split; [exact S |].
  assert (L : length d = length c) by congruence.
  rewrite (risk_set_recurrence _ d c L), <- Ld.
  intros rl dl cl. apply risk_recurrence_last; assumption.
Qed.

Lemma get_r_c_d_conservation_witness :
  exists tbl,
    get_r_c_d [3; 1; 3; 2]%Z (Some [0; 1; 1; 0]%Z) (Some [2; 3; 4; 5]%Z)
    = Ok tbl /\
    (zsum (td tbl) + zsum (tc tbl)
     = population [3; 1; 3; 2]%Z (Some [2; 3; 4; 5]%Z))%Z /\
    forall rl dl cl,
      nth_error (tr tbl) (length (tx tbl) - 1) = Some rl ->
      nth_error (td tbl) (length (tx tbl) - 1) = Some dl ->
      nth_error (tc tbl) (length (tx tbl) - 1) = Some cl ->
      rl = (dl + cl)%Z.
Proof.
  apply (@get_r_c_d_conservation Z _ [3; 1; 3; 2]%Z
           (Some [0; 1; 1; 0]%Z) (Some [2; 3; 4; 5]%Z)).
  - repeat split; intros l E; injection E as <-;
      try reflexivity; repeat constructor; lia.
  - intros k E. injection E as <-. reflexivity.
Defined.

(** ** What the accumulation loop computes, time by time *)

Lemma map_seq_combine {A B C : Type} (F : option A -> option B -> C)
      (t : list A) (cs : list B) :
  length cs = length t ->
  map (fun i => F (nth_error t i) (nth_error cs i)) (seq 0 (length t))
  = map (fun p => F (Some (fst p)) (Some (snd p))) (combine t cs).
Proof.
  revert cs. induction t as [| a t IH]; intros [| b cs] L;
    try discriminate; [reflexivity |].
  injection L as L. simpl. f_equal.
  rewrite <- seq_shift, map_map. apply (IH cs L).
Qed.

Section TallyFacts.

Context {T : Type} `{Ordered T}.

Lemma tally_cons (t : list T) cs weight f i ixs xj :
  tally t cs weight f (i :: ixs) xj
  = ((match nth_error t i, nth_error cs i, weight i with
      | Some ti, Some ci, Ok wi => if eqb xj ti then f ci wi else 0
      | _, _, _ => 0
      end) + tally t cs weight f ixs xj)%Z.
Proof. reflexivity. Qed.

Lemma combine_add_at (G : T -> Z) (x : list T) ti v : forall d0,
  length d0 = length x ->
  map (fun xd => snd xd + G (fst xd))%Z (combine x (add_at x ti v d0))
  = map (fun xd => snd xd
                   + ((if eqb (fst xd) ti then v else 0) + G (fst xd)))%Z
        (combine x d0).
Proof.
  unfold add_at. induction x as [| a x IH]; intros [| u d0] L;
    try discriminate; [reflexivity |].
  injection L as L. cbn [combine map fst snd]. rewrite (IH d0 L).
  f_equal. destruct (eqb a ti); lia.
Qed.

Lemma accumulate_pointwise (x t : list T) (censored : list Z)
      (weight : nat -> result Z) (ixs : list nat) :
  Forall (fun i => (i < length t)%nat /\ (i < length censored)%nat /\
                   exists wi, weight i = Ok wi) ixs ->
  forall d0 c0,
    length d0 = length x -> length c0 = length x ->
    accumulate x t censored weight ixs d0 c0
    = Ok (map (fun xd => snd xd
                 + tally t censored weight (fun c w => (1 - c) * w) ixs
                         (fst xd))%Z (combine x d0),
          map (fun xd => snd xd
                 + tally t censored weight (fun c w => c * w) ixs
                         (fst xd))%Z (combine x c0)).
Proof.
  induction 1 as [| i ixs [Lt [Lc [wi Ew]]] _ IH]; intros d0 c0 Ld Lc0.
  - cbn [accumulate]. f_equal. f_equal.
    + clear Lc0. revert d0 Ld. induction x as [| a x IHx];
        intros [| u d0] L; try discriminate; [reflexivity |].
      injection L as L. cbn [combine map fst snd]. rewrite <- (IHx d0 L).
      f_equal. unfold tally. simpl. lia.
    + clear Ld. revert c0 Lc0. induction x as [| a x IHx];
        intros [| u c0] L; try discriminate; [reflexivity |].
      injection L as L. cbn [combine map fst snd]. rewrite <- (IHx c0 L).
      f_equal. unfold tally. simpl. lia.
  - destruct (nth_error t i) as [ti |] eqn:Et;
      [| apply nth_error_None in Et; lia].
    destruct (nth_error censored i) as [ci |] eqn:Ec;
      [| apply nth_error_None in Ec; lia].
    cbn [accumulate].
    rewrite (getitem_Some _ _ Et), (getitem_Some _ _ Ec), Ew. cbn [bind].
    rewrite IH by (apply add_at_length; assumption).
    rewrite !combine_add_at by assumption.
    f_equal. f_equal.
    + apply map_ext. intros [a u]. cbn [fst snd].
      rewrite tally_cons, Et, Ec, Ew. reflexivity.
    + apply map_ext. intros [a u]. cbn [fst snd].
      rewrite tally_cons, Et, Ec, Ew. reflexivity.
Qed.

Lemma combine_zeros (G : T -> Z) (x : list T) :
  map (fun xd => snd xd + G (fst xd))%Z (combine x (zeros_like x))
  = map G x.
Proof.
  unfold zeros_like. induction x as [| a x IH]; [reflexivity |].
  cbn [length repeat combine map fst snd]. rewrite IH. reflexivity.
Qed.

(** Without counts, the loop tallies at [xj] the entries recorded at
    [xj]: the uncensored ones in [d], the censored ones in [c]. *)
Lemma tally_unit_weight (t : list T) (cs : list Z) (f : Z -> Z -> Z) xj :
  length cs = length t ->
  tally t cs (fun _ => Ok 1%Z) f (seq 0 (length t)) xj
  = zsum (map (fun p => if eqb xj (fst p) then f (snd p) 1%Z else 0%Z)
              (combine t cs)).
Proof.
  intros L. unfold tally.
  rewrite (map_seq_combine
             (fun ot oc => match ot, oc with
                           | Some ti, Some ci =>
                               if eqb xj ti then f ci 1%Z else 0%Z
                           | _, _ => 0%Z
                           end) t cs L).
  reflexivity.
Qed.

Lemma count_of_sum (t : list T) (xj : T) :
  count_of t xj = zsum (map (fun ti => if eqb xj ti then 1 else 0)%Z t).
Proof.
  induction t as [| a t IH]; [reflexivity |].
  rewrite count_of_cons, IH. simpl. destruct (eqb xj a); lia.
Qed.

Lemma count_of_positive (t : list T) (xj : T) :
  In xj t -> (1 <= count_of t xj)%Z.
Proof.
  intros I. unfold count_of.
  assert (J : In xj (filter (eqb xj) t)).
  { apply filter_In. split; [exact I | apply eqb_eq; reflexivity]. }
  destruct (filter (eqb xj) t); [contradiction | simpl length; lia].
Qed.

Lemma tally_rows (t : list T) (cs : list Z) xj :
  length cs = length t ->
  (tally t cs (fun _ => Ok 1%Z) (fun c w => (1 - c) * w) (seq 0 (length t)) xj
   + tally t cs (fun _ => Ok 1%Z) (fun c w => c * w) (seq 0 (length t)) xj
   = count_of t xj)%Z.
Proof.
  intros L. rewrite !tally_unit_weight, count_of_sum by exact L.
  revert cs L. induction t as [| a t IH]; intros [| b cs] L;
    try discriminate; [reflexivity |].
  injection L as L.
  cbn [combine map fst snd]. unfold zsum in *. cbn [fold_right].
  specialize (IH cs L). destruct (eqb xj a); lia.
Qed.

Lemma tally_all_failures (t : list T) xj :
  tally t (repeat 0%Z (length t)) (fun _ => Ok 1%Z)
        (fun c w => (1 - c) * w)%Z (seq 0 (length t)) xj
  = count_of t xj /\
  tally t (repeat 0%Z (length t)) (fun _ => Ok 1%Z)
        (fun c w => c * w)%Z (seq 0 (length t)) xj
  = 0%Z.
Proof.
  rewrite !tally_unit_weight by apply repeat_length.
  rewrite count_of_sum.
  induction t as [| a t [IH1 IH2]]; [split; reflexivity |].
  cbn [length repeat combine map fst snd]. unfold zsum in *.
  cbn [fold_right]. rewrite IH1, IH2. destruct (eqb xj a); split; lia.
Qed.

End TallyFacts.

(** ** All-zero censoring codes *)

Lemma map_zero_repeat {A : Type} (l : list A) :
  map (fun _ => 0%Z) l = repeat 0%Z (length l).
Proof. induction l as [| a l IH]; simpl; [| rewrite IH]; reflexivity. Qed.

Lemma get_r_c_d_codes {T : Type} `{Ordered T} (x : list T) (cs : list Z) :
  length cs = length x ->
  get_r_c_d x (Some cs) None
  = Ok (Table (np_unique x)
         (risk_set (Z.of_nat (length x))
            (map (tally x cs (fun _ => Ok 1%Z) (fun c w => (1 - c) * w)%Z
                        (seq 0 (length x))) (np_unique x))
            (map (tally x cs (fun _ => Ok 1%Z) (fun c w => c * w)%Z
                        (seq 0 (length x))) (np_unique x)))
         (map (tally x cs (fun _ => Ok 1%Z) (fun c w => c * w)%Z
                     (seq 0 (length x))) (np_unique x))
         (map (tally x cs (fun _ => Ok 1%Z) (fun c w => (1 - c) * w)%Z
                     (seq 0 (length x))) (np_unique x))).
Proof.
  intros L. unfold get_r_c_d.
  rewrite accumulate_pointwise; try apply zeros_like_length.
  - cbn [bind fst snd]. rewrite !combine_zeros. reflexivity.
  - apply seq_in_range; [exact L |]. intros i _. exists 1%Z. reflexivity.
Qed.

(** X4: without counts, censoring codes that are all zero give the same
    numbers as no censoring codes: the same table, the same Nelson-Aalen
    and the same Kaplan-Meier results.  Fleming-Harrington agrees as
    well for integer times; for float times with at least one time the
    call with the codes raises [TypeError], because [d] is then a float
    array, while the call without codes returns. *)
Theorem zero_codes_are_no_censoring {T : Type} `{Ordered T} (x : list T) :
  get_r_c_d x (Some (repeat 0%Z (length x))) None = get_r_c_d x None None /\
  nelson_aalen x (Some (repeat 0%Z (length x))) None
  = nelson_aalen x None None /\
  kaplan_meier x (Some (repeat 0%Z (length x))) None
  = kaplan_meier x None None /\
  (@floating T _ = false ->
   fleming_harrington x (Some (repeat 0%Z (length x))) None
   = fleming_harrington x None None) /\
  (@floating T _ = true -> x <> [] ->
   fleming_harrington x (Some (repeat 0%Z (length x))) None
   = Raise TypeError /\
   exists fh, fleming_harrington x None None = Ok fh).
Proof.
  assert (E : get_r_c_d x (Some (repeat 0%Z (length x))) None
              = get_r_c_d x None None).
  { rewrite get_r_c_d_codes by apply repeat_length.
    unfold get_r_c_d, np_unique_counts. cbn [bind].
    rewrite (map_ext _ _ (fun xj => proj1 (tally_all_failures x xj))).
    rewrite (map_ext _ _ (fun xj => proj2 (tally_all_failures x xj))).
    rewrite map_zero_repeat. reflexivity. }
  split; [exact E |].
  unfold nelson_aalen, kaplan_meier, fleming_harrington.
  rewrite E. split; [reflexivity |]. split; [reflexivity |].
  unfold d_floating. split.
  - intros ->. reflexivity.
  - intros -> Nx.
    destruct (@get_r_c_d_shape _ _ x None None)
      as [x' [d [c [E0 [Ld [Lc [I _]]]]]]];
      [split; intros l El; discriminate |].
    rewrite E0. cbn [bind].
    destruct x as [| a x]; [contradiction |].
    assert (Ia : In a x') by (apply I; left; reflexivity).
    destruct x' as [| a' x']; [contradiction |].
    destruct d as [| d0 d]; [discriminate |].
    unfold risk_set. cbn [length repeat firstn app].
    split; [reflexivity |].
    rewrite fh_hazards_int. cbn [bind]. eexists. reflexivity.
Qed.

Lemma zero_codes_are_no_censoring_witness :
  fleming_harrington [4; 9; 4]%Z (Some (repeat 0%Z 3)) None
  = fleming_harrington [4; 9; 4]%Z None None /\
  fleming_harrington [Q2Qc 1.5; Q2Qc 2.5] (Some (repeat 0%Z 2)) None
  = Raise TypeError /\
  exists fh, fleming_harrington [Q2Qc 1.5; Q2Qc 2.5] None None = Ok fh.
Proof.
  split.
  - apply (proj1 (proj2 (proj2 (proj2
             (@zero_codes_are_no_censoring Z Ordered_Z [4; 9; 4]%Z))))).
    reflexivity.
  - apply (proj2 (proj2 (proj2 (proj2
             (@zero_codes_are_no_censoring Qc Ordered_Qc
                [Q2Qc 1.5; Q2Qc 2.5]))))).
    + reflexivity.
    + discriminate.
Defined.

(** ** Tables without counts have no empty row *)

Section RowFacts.

Context {T : Type} `{Ordered T}.

Lemma nth_error_map_inv {A B : Type} (f : A -> B) (l : list A) j v :
  nth_error (map f l) j = Some v ->
  exists a, nth_error l j = Some a /\ v = f a.
Proof.
  rewrite nth_error_map. destruct (nth_error l j) as [a |]; simpl;
    [| discriminate].
  intros E. injection E as <-. exists a. split; reflexivity.
Qed.

Lemma get_r_c_d_rows (x : list T) (censored : option (list Z)) tbl :
  censoring_aligned x censored ->
  get_r_c_d x censored None = Ok tbl ->
  forall j dj cj,
    nth_error (td tbl) j = Some dj -> nth_error (tc tbl) j = Some cj ->
    (1 <= dj + cj)%Z.
Proof.
  intros A E j dj cj.
  destruct censored as [cs |].
  - simpl in A. rewrite (get_r_c_d_codes x cs A) in E.
    injection E as <-. cbn [td tc]. intros Ed Ec.
    apply nth_error_map_inv in Ed. destruct Ed as [a [Ea ->]].
    apply nth_error_map_inv in Ec. destruct Ec as [a' [Ea' ->]].
    assert (a' = a) by congruence. subst a'.
    rewrite (tally_rows x cs a A). apply count_of_positive.
    apply np_unique_In. eapply nth_error_In, Ea.
  - unfold get_r_c_d, np_unique_counts in E. cbn [bind] in E.
    injection E as <-. cbn [td tc]. intros Ed Ec.
    apply nth_error_map_inv in Ed. destruct Ed as [a [Ea ->]].
    unfold zeros_like in Ec. apply nth_error_In, repeat_spec in Ec.
    subst cj. rewrite Z.add_0_r. apply count_of_positive.
    apply np_unique_In. eapply nth_error_In, Ea.
Qed.

Lemma valid_no_counts_aligned (x : list T) (censored : option (list Z)) :
  valid_input x censored None -> censoring_aligned x censored.
Proof.
  intros [[Ac _] _]. destruct censored as [cs |]; simpl; [| exact I].
  apply Ac. reflexivity.
Qed.

Lemma get_r_c_d_risk_positive (x : list T) (censored : option (list Z)) tbl :
  valid_input x censored None ->
  get_r_c_d x censored None = Ok tbl ->
  Forall (fun v => 1 <= v)%Z (tr tbl).
Proof.
  intros V E.
  pose proof (@get_r_c_d_rows x censored tbl (valid_no_counts_aligned V) E)
    as R.
  destruct (get_r_c_d_valid V no_overflow_None)
    as [x' [d [c [E' [Ld [Lc [Pd [Pc S]]]]]]]].
  destruct (@table_invariants (population x None) d c)
    as [Lr [_ C]]; try assumption; [congruence | lia |].
  rewrite E' in E. injection E as <-. unfold population in *.
  cbn [tr td tc] in *.
  apply Forall_forall. intros v Hv.
  destruct (In_nth_error _ _ Hv) as [j Ej].
  assert (Hj : (j < length (risk_set (Z.of_nat (length x)) d c))%nat)
    by (apply nth_error_Some; congruence).
  destruct (nth_error d j) as [dj |] eqn:Ed;
    [| apply nth_error_None in Ed; lia].
  destruct (nth_error c j) as [cj |] eqn:Ec;
    [| apply nth_error_None in Ec; lia].
  specialize (R j dj cj Ed Ec). specialize (C j v dj cj Ej Ed Ec). lia.
Qed.

End RowFacts.

(** ** Hazards without division by zero *)

Lemma qz_nonzero (z : Z) : z <> 0%Z -> qz z <> 0.
Proof.
  intros N E. apply N. unfold qz in E. apply Z.eqb_eq.
  rewrite <- qzero_of_Z. apply qzero_spec. exact E.
Qed.

Lemma fdiv_ints (d r : Z) :
  r <> 0%Z -> fdiv (of_Z d) (of_Z r) = Fin (qz d / qz r).
Proof.
  intros N. unfold of_Z, of_Q, fdiv. fold (qz r). fold (qz d).
  rewrite (qzero_false (qz_nonzero N)). reflexivity.
Qed.

Lemma hazards_finite (d r : list Z) :
  Forall (fun v => 1 <= v)%Z r ->
  map2 fdiv (map of_Z d) (map of_Z r)
  = map2 (fun di ri => Fin (qz di / qz ri)) d r.
Proof.
  intros F. revert d. induction F as [| ri r Hr _ IH]; intros [| di d];
    try reflexivity.
  cbn [map map2]. rewrite IH, fdiv_ints by lia. reflexivity.
Qed.

Lemma fh_term_finite (r d : Z) :
  (d <= r)%Z ->
  fh_term r d = Fin (qsum (map (fun j => 1 / qz (r - j)) (range d))).
Proof.
  intros L. unfold fh_term, fh_sum. rewrite <- fsum_Fin, map_map. f_equal.
  apply map_ext_in. intros j Hj. unfold range in Hj.
  apply in_map_iff in Hj. destruct Hj as [k [<- Hk]]. apply in_seq in Hk.
  rewrite fdiv_ints by lia. reflexivity.
Qed.

Lemma fh_terms_finite (r d : list Z) :
  (forall i ri di, nth_error r i = Some ri -> nth_error d i = Some di ->
                   (di <= ri)%Z) ->
  map2 fh_term r d
  = map2 (fun ri di => Fin (qsum (map (fun j => 1 / qz (ri - j)) (range di))))
         r d.
Proof.
  revert d. induction r as [| ri r IH]; intros [| di d] C; try reflexivity.
  cbn [map2]. rewrite (fh_term_finite (C 0%nat ri di eq_refl eq_refl)).
  rewrite IH; [reflexivity |].
  intros i a b Ea Eb. apply (C (S i) a b Ea Eb).
Qed.

(** X5: on valid input without counts no row of the table has an empty
    risk set, and every Nelson-Aalen hazard is the finite fraction
    [d[i]/r[i]]: no division by zero occurs. *)
Theorem nelson_aalen_finite_hazards {T : Type} `{Ordered T}
        (x : list T) (censored : option (list Z)) :
  valid_input x censored None ->
  exists na r d,
    nelson_aalen x censored None = Ok na /\
    out_r na = Some r /\ out_d na = Some d /\
    Forall (fun v => 1 <= v)%Z r /\
    out_h na = Some (map2 (fun di ri => Fin (qz di / qz ri)) d r).
Proof.
  intros V.
  destruct (get_r_c_d_valid V no_overflow_None) as [x' [d [c [E _]]]].
  pose proof (get_r_c_d_risk_positive V E) as P. cbn [tr] in P.
  unfold nelson_aalen. rewrite E. cbn [bind].
  eexists. eexists. eexists. split; [reflexivity |].
  split; [reflexivity |]. split; [reflexivity |]. split; [exact P |].
  cbn [out_h]. rewrite (hazards_finite d P). reflexivity.
Qed.

Lemma nelson_aalen_finite_hazards_witness :
  exists na r d,
    nelson_aalen [4; 9; 4; 6]%Z (Some [0; 1; 1; 0]%Z) None = Ok na /\
    out_r na = Some r /\ out_d na = Some d /\
    Forall (fun v => 1 <= v)%Z r /\
    out_h na = Some (map2 (fun di ri => Fin (qz di / qz ri)) d r).
Proof.
  apply (@nelson_aalen_finite_hazards Z _ [4; 9; 4; 6]%Z
           (Some [0; 1; 1; 0]%Z)).
  repeat split; intros l E; try discriminate; injection E as <-;
    try reflexivity; repeat constructor; lia.
Defined.

Lemma risk_set_le (N : Z) (d c : list Z) :
  length d = length c ->
  Forall (fun v => 0 <= v)%Z d -> Forall (fun v => 0 <= v)%Z c ->
  Forall (fun v => v <= N)%Z (risk_set N d c).
Proof.
  intros L Pd Pc. rewrite (risk_set_recurrence N d c L).
  apply risk_recurrence_le; assumption.
Qed.

(** X6: on valid input whose counts, if any, have a total that the
    arithmetic holds exactly (below [2^63] for integer times, below
    [2^53] for float times), and where [d] is an integer array (integer
    times, or no censoring codes), every Fleming-Harrington hazard is a
    finite sum [1/r + 1/(r-1) + ... + 1/(r-d+1)]: the denominators never
    reach zero, because [d[i] <= r[i]]. *)
Theorem fleming_harrington_finite_hazards {T : Type} `{Ordered T}
        (x : list T) (censored counts : option (list Z)) :
  valid_input x censored counts -> no_overflow counts ->
  d_floating censored = false ->
  exists fh r d,
    fleming_harrington x censored counts = Ok fh /\
    out_r fh = Some r /\ out_d fh = Some d /\
    out_h fh
    = Some (map2 (fun ri di =>
                    Fin (qsum (map (fun j => 1 / qz (ri - j)) (range di))))
                 r d).
Proof.
  intros V NO DF.
  destruct (get_r_c_d_valid V NO) as [x' [d [c [E [Ld [Lc [Pd [Pc S]]]]]]]].
  destruct (@table_invariants (population x counts) d c)
    as [Lr [_ C]]; try assumption; [congruence | lia |].
  assert (B : forall i ri di,
             nth_error (risk_set (population x counts) d c) i = Some ri ->
             nth_error d i = Some di -> (0 <= di <= ri)%Z).
  { intros i ri di Er Ed.
    assert (Hi : (i < length c)%nat).
    { replace (length c) with (length d) by congruence.
      apply nth_error_Some. congruence. }
    destruct (nth_error c i) as [ci |] eqn:Ec;
      [| apply nth_error_None in Ec; lia].
    specialize (C i ri di ci Er Ed Ec).
    pose proof (Forall_nth_error _ Pc Ec) as P0.
    pose proof (Forall_nth_error _ Pd Ed) as P1.
    cbv beta in P0, P1. lia. }
  assert (X : forall i ri di j,
             nth_error (risk_set (population x counts) d c) i = Some ri ->
             nth_error d i = Some di -> In j (range di) ->
             entry_minus counts ri j = (ri - j)%Z).
  { intros i ri di j Er Ed Hj.
    destruct counts as [k |] eqn:Ek; [| reflexivity].
    apply int64_id.
    pose proof (B i ri di Er Ed) as Bi.
    assert (Ll : length d = length c) by congruence.
    pose proof (Forall_nth_error _ (risk_set_le _ Ll Pd Pc) Er) as Le.
    cbv beta in Le.
    destruct V as [_ [_ Vk]].
    rewrite (population_exact x Vk NO) in Le.
    pose proof (NO _ eq_refl) as Lt. pose proof (@exact_range_le T _) as XR.
    unfold range in Hj. apply in_map_iff in Hj.
    destruct Hj as [n [<- Hn]]. apply in_seq in Hn. lia. }
  unfold fleming_harrington. rewrite E. cbn [bind]. rewrite DF.
  rewrite (fh_hazards_exact counts _ d X). cbn [bind].
  eexists. eexists. eexists. split; [reflexivity |].
  split; [reflexivity |]. split; [reflexivity |].
  cbn [out_h]. rewrite fh_terms_finite; [reflexivity |].
  intros i ri di Er Ed. apply (B i ri di Er Ed).
Qed.

Lemma fleming_harrington_finite_hazards_witness :
  exists fh r d,
    fleming_harrington [3; 1; 3; 2]%Z (Some [0; 1; 1; 0]%Z)
                       (Some [2; 3; 0; 5]%Z) = Ok fh /\
    out_r fh = Some r /\ out_d fh = Some d /\
    out_h fh
    = Some (map2 (fun ri di =>
                    Fin (qsum (map (fun j => 1 / qz (ri - j)) (range di))))
                 r d).
Proof.
  apply (@fleming_harrington_finite_hazards Z _ [3; 1; 3; 2]%Z
           (Some [0; 1; 1; 0]%Z) (Some [2; 3; 0; 5]%Z)).
  - repeat split; intros l E; injection E as <-;
      try reflexivity; repeat constructor; lia.
  - intros k E. injection E as <-. reflexivity.
  - reflexivity.
Defined.

(** ** Which estimator returns on which input *)

Lemma risk_set_length (N : Z) (d c : list Z) :
  length d = length c -> length (risk_set N d c) = length d.
Proof.
  intros L. rewrite (risk_set_recurrence N d c L).
  apply risk_recurrence_length, L.
Qed.

Lemma map2_length {A B C : Type} (f : A -> B -> C) (a : list A) (b : list B) :
  length a = length b -> length (map2 f a b) = length a.
Proof.
  revert b. induction a as [| u a IH]; intros [| v b] L; try discriminate;
    [reflexivity |].
  injection L as L. simpl. f_equal. apply IH, L.
Qed.

Lemma fcumprod_from_length (l : list npfloat) : forall acc,
  length (fcumprod_from acc l) = length l.
Proof.
  induction l as [| v l IH]; intros acc; simpl; [| rewrite IH]; reflexivity.
Qed.

Lemma fcumprod_length (l : list npfloat) : length (fcumprod l) = length l.
Proof.
  destruct l as [| v l]; simpl; [| rewrite fcumprod_from_length]; reflexivity.
Qed.

Lemma risk_set64_length (N : Z) (d c : list Z) :
  length d = length c -> length (risk_set64 N d c) = length d.
Proof.
  intros L. rewrite (risk_set64_recurrence N d c L).
  apply risk_recurrence64_length, L.
Qed.

(** X7: on aligned input [nelson_aalen] always returns, also on no data
    at all; [kaplan_meier] returns exactly when there is at least one
    time, and raises [IndexError] on empty input, where [h[0] = H[0]]
    has nothing to index; [fleming_harrington] returns when [d] is an
    integer array (integer times, or no censoring codes) or there is no
    time at all, and raises [TypeError] at [range(d[i])] when [d] is a
    float array (float times with censoring codes) and there is a
    time. *)
Theorem estimators_on_aligned_input {T : Type} `{Ordered T}
        (x : list T) (censored counts : option (list Z)) :
  aligned x censored counts ->
  (exists na, nelson_aalen x censored counts = Ok na) /\
  (x = [] -> kaplan_meier x censored counts = Raise IndexError) /\
  (x <> [] -> exists km, kaplan_meier x censored counts = Ok km) /\
  (d_floating censored = false \/ x = [] ->
   exists fh, fleming_harrington x censored counts = Ok fh) /\
  (d_floating censored = true -> x <> [] ->
   fleming_harrington x censored counts = Raise TypeError).
Proof.
  intros A.
  destruct (get_r_c_d_shape A) as [x' [d [c [E [Ld [Lc [I _]]]]]]].
  assert (L : length d = length c) by congruence.
  set (r := match counts with
            | None => risk_set (population x counts) d c
            | Some _ => risk_set64 (population x counts) d c
            end) in E.
  assert (Lr : length r = length d).
  { unfold r. destruct counts;
      [apply risk_set64_length | apply risk_set_length]; exact L. }
  unfold nelson_aalen, fleming_harrington, kaplan_meier.
  rewrite E. cbn [bind].
  split; [eexists; reflexivity |].
  set (R := fcumprod (map2 fdiv
                        (map of_Z (map2 (risk_minus censored counts) r d))
                        (map of_Z r))).
  assert (LR : length R = length x').
  { unfold R. rewrite fcumprod_length, map2_length, !length_map, map2_length;
      try congruence.
    rewrite !length_map, map2_length; congruence. }
  split; [| split; [| split]].
  - intros ->. destruct x' as [| a x'];
      [| exfalso; apply (proj1 (I a)); left; reflexivity].
    destruct R; [reflexivity | discriminate].
  - intros Nx. destruct x as [| a x]; [contradiction |].
    assert (Ia : In a x') by (apply I; left; reflexivity).
    destruct x' as [| a' x']; [contradiction |].
    destruct R as [| v R]; [discriminate |].
    cbn [getitem nth_error bind]. eexists. reflexivity.
  - intros [DF | ->].
    + rewrite DF, fh_hazards_int. cbn [bind]. eexists. reflexivity.
    + destruct x' as [| a x'];
        [| exfalso; apply (proj1 (I a)); left; reflexivity].
      destruct d; [| discriminate]. destruct r; [| discriminate].
      cbn [fh_hazards bind]. eexists. reflexivity.
  - intros DF Nx. rewrite DF. destruct x as [| a x]; [contradiction |].
    assert (Ia : In a x') by (apply I; left; reflexivity).
    destruct x' as [| a' x']; [contradiction |].
    destruct d as [| d0 d]; [discriminate |].
    destruct r as [| r0 r]; [discriminate |]. reflexivity.
Qed.

Lemma estimators_on_aligned_input_witness :
  ((exists na, nelson_aalen [4; 4; 1]%Z (Some [1; 0; 1]%Z) None = Ok na) /\
   ([4; 4; 1]%Z = [] ->
    kaplan_meier [4; 4; 1]%Z (Some [1; 0; 1]%Z) None = Raise IndexError) /\
   ([4; 4; 1]%Z <> [] ->
    exists km, kaplan_meier [4; 4; 1]%Z (Some [1; 0; 1]%Z) None = Ok km) /\
   (d_floating (T := Z) (Some [1; 0; 1]%Z) = false \/ [4; 4; 1]%Z = [] ->
    exists fh, fleming_harrington [4; 4; 1]%Z (Some [1; 0; 1]%Z) None
               = Ok fh) /\
   (d_floating (T := Z) (Some [1; 0; 1]%Z) = true -> [4; 4; 1]%Z <> [] ->
    fleming_harrington [4; 4; 1]%Z (Some [1; 0; 1]%Z) None
    = Raise TypeError)) /\
  fleming_harrington [Q2Qc 1.5; Q2Qc 2.5] (Some [0; 1]%Z) None
  = Raise TypeError.
Proof.
  split.
  - apply (@estimators_on_aligned_input Z _ [4; 4; 1]%Z
             (Some [1; 0; 1]%Z) None).
    split; intros l E; [injection E as <-; reflexivity | discriminate].
  - apply (proj2 (proj2 (proj2 (proj2
             (@estimators_on_aligned_input Qc Ordered_Qc
                [Q2Qc 1.5; Q2Qc 2.5] (Some [0; 1]%Z) None
                ltac:(split; intros l E;
                      [injection E as <-; reflexivity | discriminate])))))).
    + reflexivity.
    + discriminate.
Defined.

(** ** Kaplan-Meier without censoring *)

Lemma km_step (r d0 N : Z) :
  r <> 0%Z -> N <> 0%Z ->
  fmul (Fin (qz r / qz N)) (fdiv (of_Z (r - d0)) (of_Z r))
  = Fin (qz (r - d0 - 0) / qz N).
Proof.
  intros Nr NN. rewrite fdiv_ints by exact Nr. unfold fmul.
  rewrite Z.sub_0_r. f_equal. field.
  split; apply qz_nonzero; assumption.
Qed.

Lemma km_telescope (N : Z) (d : list Z) :
  N <> 0%Z -> forall r,
  Forall (fun v => 1 <= v)%Z d -> (zsum d <= r)%Z ->
  fcumprod_from
    (Fin (qz r / qz N))
    (map2 fdiv
       (map of_Z (map2 Z.sub (risk_recurrence r d (repeat 0%Z (length d))) d))
       (map of_Z (risk_recurrence r d (repeat 0%Z (length d)))))
  = map2 (fun ri di => Fin (qz (ri - di) / qz N))
         (risk_recurrence r d (repeat 0%Z (length d))) d.
Proof.
  intros NN. induction d as [| d0 d IH]; intros r F S; [reflexivity |].
  inversion F as [| u l H0 Hd]; subst.
  pose proof (zsum_nonneg (l := d)) as P.
  assert (Pd : (0 <= zsum d)%Z).
  { apply P. eapply Forall_impl; [| exact Hd]. simpl. intros; lia. }
  change (zsum (d0 :: d)) with (d0 + zsum d)%Z in S.
  cbn [length repeat risk_recurrence map2 map fcumprod_from].
  rewrite km_step by lia.
  rewrite IH by (try assumption; lia).
  f_equal. rewrite Z.sub_0_r. reflexivity.
Qed.

Lemma km_product (N : Z) (d : list Z) :
  N <> 0%Z -> Forall (fun v => 1 <= v)%Z d -> (zsum d <= N)%Z ->
  fcumprod
    (map2 fdiv
       (map of_Z (map2 Z.sub (risk_recurrence N d (repeat 0%Z (length d))) d))
       (map of_Z (risk_recurrence N d (repeat 0%Z (length d)))))
  = map2 (fun ri di => Fin (qz (ri - di) / qz N))
         (risk_recurrence N d (repeat 0%Z (length d))) d.
Proof.
  intros NN F S. destruct d as [| d0 d]; [reflexivity |].
  inversion F as [| u l H0 Hd]; subst.
  assert (Pd : (0 <= zsum d)%Z).
  { apply zsum_nonneg. eapply Forall_impl; [| exact Hd]. simpl. intros; lia. }
  change (zsum (d0 :: d)) with (d0 + zsum d)%Z in S.
  cbn [length repeat risk_recurrence map2 map fcumprod].
  rewrite fdiv_ints by exact NN.
  replace (qz (N - d0) / qz N) with (qz (N - d0 - 0) / qz N)
    by (rewrite Z.sub_0_r; reflexivity).
  rewrite km_telescope by (try assumption; lia).
  reflexivity.
Qed.

(** X8: without censoring and without counts, Kaplan-Meier is the
    empirical survival function: at each distinct time,
    [R[i] = (r[i] - d[i])/N], the share of the [N] units whose time is
    later.  This is an equality of the exact values: the running product
    telescopes in exact arithmetic, and the float64 product of the code
    agrees with it up to rounding only. *)
Theorem kaplan_meier_empirical_survival {T : Type} `{Ordered T}
        (x : list T) :
  x <> [] ->
  exists km r d,
    kaplan_meier x None None = Ok km /\
    out_r km = Some r /\ out_d km = Some d /\
    out_R km
    = Some (map2 (fun ri di =>
                    Fin (qz (ri - di) / qz (Z.of_nat (length x)))) r d).
Proof.
  intros Nx. unfold kaplan_meier, get_r_c_d, np_unique_counts, population.
  cbn [bind]. change (risk_minus None None) with Z.sub.
  set (u := np_unique x). set (d := map (count_of x) u).
  assert (L : length d = length (zeros_like u))
    by (unfold d; rewrite length_map, zeros_like_length; reflexivity).
  assert (F : Forall (fun v => 1 <= v)%Z d).
  { apply Forall_forall. intros v Hv. apply in_map_iff in Hv.
    destruct Hv as [a [<- Ha]]. apply count_of_positive, np_unique_In, Ha. }
  assert (S : zsum d = Z.of_nat (length x)).
  { apply zsum_counts; [apply np_unique_NoDup |].
    intros a. apply np_unique_In. }
  assert (NN : Z.of_nat (length x) <> 0%Z)
    by (destruct x; [contradiction | simpl length; lia]).
  rewrite (risk_set_recurrence _ d _ L).
  replace (zeros_like u) with (repeat 0%Z (length d))
    by (unfold zeros_like, d; rewrite length_map; reflexivity).
  rewrite (km_product NN F) by lia.
  assert (Nd : d <> []).
  { unfold d, u. destruct x as [| a x]; [contradiction |].
    assert (Ia : In a (np_unique (a :: x)))
      by (apply np_unique_In; left; reflexivity).
    destruct (np_unique (a :: x)); [contradiction | discriminate]. }
  destruct d as [| d0 d']; [contradiction |].
  cbn [length repeat risk_recurrence map2 getitem nth_error bind].
  eexists. eexists. eexists. split; [reflexivity |].
  split; [reflexivity |]. split; reflexivity.
Qed.

Lemma kaplan_meier_empirical_survival_witness :
  exists km r d,
    kaplan_meier [6; 2; 6; 9; 2; 6]%Z None None = Ok km /\
    out_r km = Some r /\ out_d km = Some d /\
    out_R km
    = Some (map2 (fun ri di =>
                    Fin (qz (ri - di)
                         / qz (Z.of_nat (length [6; 2; 6; 9; 2; 6]%Z)))) r d).
Proof.
  apply (@kaplan_meier_empirical_survival Z _ [6; 2; 6; 9; 2; 6]%Z).
  discriminate.
Defined.

(** ** How [turnbull] fails and what shape it returns *)

Section TurnbullShape.

Context {T : Type} `{Ordered T}.

Lemma alpha_rows_raises (x lower upper : list T) (ixs : list nat) e :
  alpha_rows x lower upper ixs = Raise e -> e = IndexError.
Proof.
  induction ixs as [| i ixs IH]; cbn [alpha_rows]; [discriminate |].
  destruct (getitem lower i) eqn:El; cbn [bind];
    [| intros E; injection E as <-; apply (getitem_raises _ _ El)].
  destruct (getitem upper i) eqn:Eu; cbn [bind];
    [| intros E; injection E as <-; apply (getitem_raises _ _ Eu)].
  destruct (alpha_rows x lower upper ixs); cbn [bind]; [discriminate |].
  intros E. injection E as <-. apply IH. reflexivity.
Qed.

Lemma alpha_rows_ok_inv (x lower upper : list T) (ixs : list nat) rows :
  alpha_rows x lower upper ixs = Ok rows ->
  Forall (fun i => (i < length upper)%nat) ixs.
Proof.
  revert rows. induction ixs as [| i ixs IH]; intros rows;
    cbn [alpha_rows]; [constructor |].
  destruct (getitem lower i); cbn [bind]; [| discriminate].
  unfold getitem at 1. destruct (nth_error upper i) eqn:Eu; cbn [bind];
    [| discriminate].
  destruct (alpha_rows x lower upper ixs) as [rows' |] eqn:Er; cbn [bind];
    [| discriminate].
  intros _. constructor; [| apply (IH rows'); reflexivity].
  apply nth_error_Some. congruence.
Qed.

Lemma alpha_rows_shape (x lower upper : list T) (ixs : list nat) :
  Forall (fun i => (i < length lower)%nat /\ (i < length upper)%nat) ixs ->
  exists rows,
    alpha_rows x lower upper ixs = Ok rows /\
    length rows = length ixs /\
    Forall (fun row => length row = length x) rows.
Proof.
  induction 1 as [| i ixs [Ll Lu] _ [rows [E [Len F]]]].
  - exists []. repeat split. constructor.
  - destruct (nth_error lower i) as [lo |] eqn:El;
      [| apply nth_error_None in El; lia].
    destruct (nth_error upper i) as [up |] eqn:Eu;
      [| apply nth_error_None in Eu; lia].
    exists (alpha_row x lo up :: rows). cbn [alpha_rows].
    rewrite (getitem_Some _ _ El), (getitem_Some _ _ Eu), E. cbn [bind].
    repeat split.
    + simpl. congruence.
    + constructor; [apply length_map | exact F].
Qed.

Lemma np_unique_nil (x : list T) : np_unique x = [] <-> x = [].
Proof.
  split.
  - intros E. destruct x as [| a x]; [reflexivity |].
    assert (I : In a (np_unique (a :: x)))
      by (apply np_unique_In; left; reflexivity).
    rewrite E in I. contradiction.
  - intros ->. reflexivity.
Qed.

End TurnbullShape.

(** X9: [turnbull] raises [ZeroDivisionError] when there is no end point
    at all ([1./m] with [m = 0]), raises [IndexError] when [upper] is
    shorter than [lower], and otherwise returns, whatever the intervals:
    [alphas] has one row per unit and one column per distinct end point,
    and [d] one entry per distinct end point. *)
Theorem turnbull_failure_modes {T : Type} `{Ordered T} (lower upper : list T) :
  (lower = [] -> upper = [] -> turnbull lower upper = Raise ZeroDivisionError) /\
  ((length upper < length lower)%nat ->
   turnbull lower upper = Raise IndexError) /\
  (lower ++ upper <> [] -> (length lower <= length upper)%nat ->
   exists alphas d,
     turnbull lower upper = Ok (alphas, d) /\
     length alphas = length lower /\
     Forall (fun row => length row = length d) alphas /\
     length d = length (np_unique (lower ++ upper))).
Proof.
  split; [| split].
  - intros -> ->. reflexivity.
  - intros L. unfold turnbull.
    assert (Nx : length (np_unique (lower ++ upper)) <> O).
    { intros E. apply length_zero_iff_nil in E.
      apply (proj1 (np_unique_nil _)) in E.
      destruct lower; [simpl in L; lia | simpl in E; discriminate]. }
    destruct (length (np_unique (lower ++ upper))) as [| m] eqn:Em;
      [contradiction |].
    cbn [py_inv bind].
    destruct (alpha_rows _ lower upper (seq 0 (length lower)))
      as [rows | e] eqn:Er; cbn [bind].
    + apply alpha_rows_ok_inv in Er. rewrite Forall_forall in Er.
      specialize (Er (length upper)).
      assert (length upper < length upper)%nat; [| lia].
      apply Er, in_seq. lia.
    + rewrite (alpha_rows_raises _ _ _ _ Er). reflexivity.
  - intros Ne L. unfold turnbull.
    assert (Nx : length (np_unique (lower ++ upper)) <> O).
    { intros E. apply length_zero_iff_nil in E.
      apply (proj1 (np_unique_nil _)) in E. contradiction. }
    destruct (length (np_unique (lower ++ upper))) as [| m] eqn:Em;
      [contradiction |].
    cbn [py_inv bind].
    destruct (@alpha_rows_shape _ _ (np_unique (lower ++ upper)) lower upper
                (seq 0 (length lower))) as [rows [Er [Len F]]].
    { apply Forall_forall. intros i Hi. apply in_seq in Hi. lia. }
    rewrite Er. cbn [bind]. eexists. eexists. split; [reflexivity |].
    rewrite length_seq in Len. rewrite length_map, length_seq.
    split; [exact Len |]. split; [| reflexivity].
    rewrite <- Em. exact F.
Qed.

Lemma turnbull_failure_modes_witness :
  turnbull [5; 1]%Z [3]%Z = Raise IndexError /\
  exists alphas d,
    turnbull [5; 1]%Z [3; 8; 2]%Z = Ok (alphas, d) /\
    length alphas = 2%nat /\
    Forall (fun row => length row = length d) alphas /\
    length d = length (np_unique ([5; 1] ++ [3; 8; 2])%Z).
Proof.
  split.
  - apply (proj1 (proj2 (turnbull_failure_modes [5; 1]%Z [3]%Z))).
    simpl. lia.
  - apply (proj2 (proj2 (turnbull_failure_modes [5; 1]%Z [3; 8; 2]%Z))).
    + discriminate.
    + simpl. lia.
Defined.

(** ** The shape and the failures of [rank_adjust] *)

(** X10: with censoring codes given, [rank_adjust] raises [IndexError]
    when the codes are fewer than the times, and otherwise returns one
    rank per time (codes beyond the last time are never read). *)
Theorem rank_adjust_shape {T : Type} `{Ordered T} (t : list T) (c : list Z) :
  ((length c < length t)%nat -> rank_adjust t (Some c) = Raise IndexError) /\
  ((length t <= length c)%nat ->
   exists ranks, rank_adjust t (Some c) = Ok ranks /\
                 length ranks = length t).
Proof.
  unfold rank_adjust, subscript.
  destruct (take_argsort t) as [t' [Et Pt]]. rewrite Et. cbn [bind].
  pose proof (argsort_perm t) as P.
  split; intros L.
  - rewrite (@take_out_of_range _ c (argsort t) (length c)); [reflexivity | |lia].
    apply (Permutation_in _ (Permutation_sym P)), in_seq. lia.
  - destruct (@take_spec _ c (argsort t)) as [cs [Ecs _]].
    { apply Forall_forall. intros i Hi.
      apply (Permutation_in _ P), in_seq in Hi. lia. }
    rewrite Ecs. cbn [bind].
    pose proof (take_length _ _ Ecs) as Lcs.
    rewrite argsort_length in Lcs.
    pose proof (Permutation_length Pt) as Lt.
    destruct (@rank_loop_total (Z.of_nat (length t')) cs (seq 0 (length t')))
      with (PMON := of_Z 0) as [ranks [E Lr]].
    + apply Forall_forall. intros i Hi. apply in_seq in Hi. lia.
    + exists ranks. split; [exact E |]. rewrite Lr, length_seq. exact Lt.
Qed.

Lemma rank_adjust_shape_witness :
  rank_adjust [5; 3; 8]%Z (Some [0; 1]%Z) = Raise IndexError /\
  exists ranks,
    rank_adjust [5; 3; 8]%Z (Some [0; 1; 0; 1]%Z) = Ok ranks /\
    length ranks = 3%nat.
Proof.
  split.
  - apply (proj1 (rank_adjust_shape [5; 3; 8]%Z [0; 1]%Z)). simpl. lia.
  - apply (proj2 (rank_adjust_shape [5; 3; 8]%Z [0; 1; 0; 1]%Z)). simpl. lia.
Defined.

(** ** Failures that reach the caller of a fitter *)

Lemma plotting_positions_unknown {T : Type} `{Ordered T}
      (t : list T) (censored : list Z) (plotting : string) :
  length censored = length t -> ~ known_formula plotting ->
  plotting_positions t (Some censored) plotting = Raise UnboundLocalError.
Proof.
  intros L K. unfold plotting_positions, ranks_of.
  destruct (rank_adjust_total t censored L) as [ranks [-> _]].
  rewrite (formula_constants_unknown K). reflexivity.
Qed.

Lemma fitter_prefix_unknown (t : list Qc) (censored : option (list Z))
      (plotting : string) :
  censoring_aligned t censored -> ~ known_formula plotting ->
  exists t' cs,
    take t (argsort t) = Ok t' /\
    take (match censored with
          | None => repeat 0%Z (length t)
          | Some c => c
          end) (argsort t) = Ok cs /\
    plotting_positions t' (Some cs) plotting = Raise UnboundLocalError.
Proof.
  intros A K.
  destruct (take_argsort t) as [t' [Et Pt]].
  destruct (@take_perm _ (match censored with
                          | None => repeat 0%Z (length t)
                          | Some c => c
                          end) (argsort t)) as [cs [Ecs Pcs]].
  { replace (length _) with (length t); [apply argsort_perm |].
    destruct censored as [c |]; simpl in A;
      [congruence | rewrite repeat_length; reflexivity]. }
  exists t', cs. repeat split; try assumption.
  apply plotting_positions_unknown; [| exact K].
  rewrite (take_length _ _ Ecs), (take_length _ _ Et). reflexivity.
Qed.

(** X11: on a non-empty sample with aligned censoring codes, a plotting
    formula outside the table makes each fitter raise the
    [UnboundLocalError] of [plotting_positions], whatever [lfp], the
    direction and the numerical library. *)
Theorem lsq_unknown_formula (lib : NumLib) (t : list Qc)
        (censored : option (list Z)) (plotting : string)
        (lfp : bool) (rr : string) :
  t <> [] -> censoring_aligned t censored -> ~ known_formula plotting ->
  weibull_lsq lib t censored plotting lfp rr = Raise UnboundLocalError /\
  gumbel_lsq lib t censored plotting lfp rr = Raise UnboundLocalError /\
  normal_lsq lib t censored plotting lfp rr = Raise UnboundLocalError.
Proof.
  intros Ne A K.
  destruct (@fitter_prefix_unknown t censored plotting A K)
    as [t' [cs [Et [Ecs Ef]]]].
  destruct t as [| t0 t]; [contradiction |].
  repeat split.
  - unfold weibull_lsq. run_prefix Et Ecs Ef. reflexivity.
  - unfold gumbel_lsq. run_prefix Et Ecs Ef. reflexivity.
  - unfold normal_lsq. run_prefix Et Ecs Ef. reflexivity.
Qed.

Lemma lsq_unknown_formula_witness :
  weibull_lsq nan_lib [Q2Qc 3; Q2Qc 1] None "Bernard" true "x"
  = Raise UnboundLocalError /\
  gumbel_lsq nan_lib [Q2Qc 3; Q2Qc 1] None "Bernard" true "x"
  = Raise UnboundLocalError /\
  normal_lsq nan_lib [Q2Qc 3; Q2Qc 1] None "Bernard" true "x"
  = Raise UnboundLocalError.
Proof.
  apply (@lsq_unknown_formula nan_lib [Q2Qc 3; Q2Qc 1] None "Bernard"
           true "x").
  - discriminate.
  - exact I.
  - unfold known_formula. simpl. intuition discriminate.
Defined.

Ltac run_short Et Ecs :=
  match goal with
  | |- context [(length (?a :: ?l) =? 0)%nat] =>
      change ((length (a :: l) =? 0)%nat) with false
  end;
  lazy beta iota zeta; rewrite Et; cbn [bind]; rewrite Ecs; cbn [bind].

(** X12: censoring codes fewer than the times make each fitter raise
    [IndexError] at [censored[idx]], before any plotting position is
    computed: whatever the formula name, [lfp], the direction and the
    library. *)
Theorem lsq_short_censoring (lib : NumLib) (t : list Qc) (c : list Z)
        (plotting : string) (lfp : bool) (rr : string) :
  (length c < length t)%nat ->
  weibull_lsq lib t (Some c) plotting lfp rr = Raise IndexError /\
  gumbel_lsq lib t (Some c) plotting lfp rr = Raise IndexError /\
  normal_lsq lib t (Some c) plotting lfp rr = Raise IndexError.
Proof.
  intros L.
  destruct (take_argsort t) as [t' [Et Pt]].
  assert (Ecs : take c (argsort t) = Raise IndexError).
  { apply (@take_out_of_range _ c (argsort t) (length c)); [| lia].
    apply (Permutation_in _ (Permutation_sym (argsort_perm t))), in_seq.
    lia. }
  destruct t as [| t0 t]; [simpl in L; lia |].
  repeat split.
  - unfold weibull_lsq. run_short Et Ecs. reflexivity.
  - unfold gumbel_lsq. run_short Et Ecs. reflexivity.
  - unfold normal_lsq. run_short Et Ecs. reflexivity.
Qed.

Lemma lsq_short_censoring_witness :
  weibull_lsq nan_lib [Q2Qc 3; Q2Qc 1] (Some [0]%Z) "Blom" false "y"
  = Raise IndexError /\
  gumbel_lsq nan_lib [Q2Qc 3; Q2Qc 1] (Some [0]%Z) "Blom" false "y"
  = Raise IndexError /\
  normal_lsq nan_lib [Q2Qc 3; Q2Qc 1] (Some [0]%Z) "Blom" false "y"
  = Raise IndexError.
Proof.
  apply (@lsq_short_censoring nan_lib [Q2Qc 3; Q2Qc 1] [0]%Z "Blom"
           false "y").
  simpl. lia.
Defined.

Lemma uncensored_all_censored {A : Type} (a : list A) (cs : list Z) :
  Forall (fun v => v <> 0%Z) cs -> uncensored a cs = [].
Proof.
  intros F. revert a. unfold uncensored.
  induction F as [| v cs Hv _ IH]; intros [| u a]; try reflexivity.
  cbn [combine filter snd]. destruct (Z.eqb_spec v 0); [contradiction |].
  apply IH.
Qed.

(** X13: when every entry of a non-empty sample is censored, the line
    fit is asked for on empty arrays: with [lfp] false and the direction
    ['x'] or ['y'], whatever [np.polyfit] raises on empty arrays is what
    each fitter raises. *)
Theorem lsq_all_censored (lib : NumLib) (t : list Qc) (c : list Z)
        (plotting : string) (rr : string) (e : exn) :
  t <> [] -> length c = length t -> Forall (fun v => v <> 0%Z) c ->
  known_formula plotting -> rr = "y"%string \/ rr = "x"%string ->
  np_polyfit lib [] [] = Raise e ->
  weibull_lsq lib t (Some c) plotting false rr = Raise e /\
  gumbel_lsq lib t (Some c) plotting false rr = Raise e /\
  normal_lsq lib t (Some c) plotting false rr = Raise e.
Proof.
  intros Ne L F K Hr Ep.
  destruct (@fitter_prefix t (Some c) plotting L K)
    as [t' [cs [f [Et [Ecs Ef]]]]].
  assert (Fcs : Forall (fun v => v <> 0%Z) cs).
  { destruct (@take_perm _ c (argsort t)) as [cs' [Ecs' Pcs]];
      [rewrite L; apply argsort_perm |].
    cbn [censoring_aligned] in Ecs. rewrite Ecs' in Ecs.
    injection Ecs as ->.
    eapply Permutation_Forall; [apply Permutation_sym, Pcs | exact F]. }
  destruct t as [| t0 t]; [contradiction |].
  destruct Hr as [-> | ->]; repeat split.
  - unfold weibull_lsq. run_prefix Et Ecs Ef.
    rewrite !(uncensored_all_censored _ Fcs). cbn [map String.eqb].
    change (String.eqb "y" "y") with true. cbv iota. rewrite Ep. reflexivity.
  - unfold gumbel_lsq. run_prefix Et Ecs Ef.
    rewrite !(uncensored_all_censored _ Fcs). cbn [map].
    change (String.eqb "y" "y") with true. cbv iota. rewrite Ep. reflexivity.
  - unfold normal_lsq. run_prefix Et Ecs Ef.
    rewrite !(uncensored_all_censored _ Fcs). cbn [map].
    change (String.eqb "y" "y") with true. cbv iota. rewrite Ep. reflexivity.
  - unfold weibull_lsq. run_prefix Et Ecs Ef.
    rewrite !(uncensored_all_censored _ Fcs). cbn [map].
    change (String.eqb "x" "y") with false.
    change (String.eqb "x" "x") with true. cbv iota. rewrite Ep. reflexivity.
  - unfold gumbel_lsq. run_prefix Et Ecs Ef.
    rewrite !(uncensored_all_censored _ Fcs). cbn [map].
    change (String.eqb "x" "y") with false.
    change (String.eqb "x" "x") with true. cbv iota. rewrite Ep. reflexivity.
  - unfold normal_lsq. run_prefix Et Ecs Ef.
    rewrite !(uncensored_all_censored _ Fcs). cbn [map].
    change (String.eqb "x" "y") with false.
    change (String.eqb "x" "x") with true. cbv iota. rewrite Ep. reflexivity.
Qed.

Lemma lsq_all_censored_witness :
  weibull_lsq nan_lib [Q2Qc 3; Q2Qc 1] (Some [1; 1]%Z) "Blom" false "y"
  = Raise TypeError /\
  gumbel_lsq nan_lib [Q2Qc 3; Q2Qc 1] (Some [1; 1]%Z) "Blom" false "y"
  = Raise TypeError /\
  normal_lsq nan_lib [Q2Qc 3; Q2Qc 1] (Some [1; 1]%Z) "Blom" false "y"
  = Raise TypeError.
Proof.
  apply (@lsq_all_censored nan_lib [Q2Qc 3; Q2Qc 1] [1; 1]%Z "Blom" "y"
           TypeError).
  - discriminate.
  - reflexivity.
  - repeat constructor; discriminate.
  - unfold known_formula. simpl. tauto.
  - left. reflexivity.
  - reflexivity.
Defined.

(** ** The ranks grow *)

Lemma mean_order_between (P N1 K : Qc) :
  P < N1 -> 1 < K -> P < P + (N1 - P) / K /\ P + (N1 - P) / K < N1.
Proof.
  unfold Qclt.
  repeat (progress (unfold Qcplus, Qcminus, Qcdiv, Qcmult, Qcinv, Qcopp;
                    cbn [this Q2Qc]; rewrite ?Qred_correct)).
  change (this 1) with 1%Q.
  intros HP HK.
  assert (I0 : (0 < / K)%Q) by (apply Qinv_lt_0_compat; lra).
  assert (I1 : (/ K < 1)%Q).
  { change 1%Q with (/ 1)%Q. apply -> Qinv_lt_contravar; lra. }
  split; nra.
Qed.

Lemma qz_lt (a b : Z) : (a < b)%Z -> qz a < qz b.
Proof.
  intros L. unfold Qclt, qz. cbn [this Q2Qc]. rewrite !Qred_correct.
  unfold Qlt, inject_Z. simpl. lia.
Qed.

Lemma rank_step (n i : nat) (P : Qc) :
  (i < n)%nat -> P < qnat (S n) ->
  exists r,
    fadd (Fin P) (fdiv (fsub (of_Z (Z.of_nat n + 1)) (Fin P))
                       (of_Z (Z.of_nat n - Z.of_nat i + 2)))
    = Fin r /\ P < r /\ r < qnat (S n).
Proof.
  intros Hi HP.
  replace (Z.of_nat n + 1)%Z with (Z.of_nat (S n)) by lia.
  rewrite of_Z_nat.
  set (k := (Z.of_nat n - Z.of_nat i + 2)%Z).
  assert (Nk : qz k <> 0) by (apply qz_nonzero; unfold k; lia).
  assert (Gk : 1 < qz k)
    by (change (qz 1 < qz k); apply qz_lt; unfold k; lia).
  exists (P + (qnat (S n) - P) / qz k). split.
  - unfold fsub, fneg, fadd, fdiv, of_Z, of_Q. fold (qz k).
    rewrite (qzero_false Nk). reflexivity.
  - apply mean_order_between; assumption.
Qed.

Lemma rank_loop_grows (n : nat) (cs : list Z) : forall ixs codes P,
  Forall2 (fun i ci => nth_error cs i = Some ci /\ (i < n)%nat) ixs codes ->
  P < qnat (S n) ->
  exists ranks,
    rank_loop (Z.of_nat n) cs ixs (Fin P) = Ok ranks /\
    Forall2 rank_at_code codes ranks /\
    Forall (fun q => P < q /\ q < qnat (S n)) (finite_values ranks) /\
    StronglySorted Qclt (finite_values ranks).
Proof.
  induction ixs as [| i ixs IH]; intros codes P F HP.
  - inversion F; subst. exists []. repeat split; constructor.
  - inversion F as [| i' ci ixs' codes' [Ei Hi] F']; subst.
    cbn [rank_loop]. rewrite (getitem_Some _ _ Ei). cbn [bind].
    destruct (Z.eqb_spec ci 0) as [-> | Nc].
    + destruct (rank_step Hi HP) as [r [-> [Lo Hi']]].
      destruct (IH codes' r F' Hi') as [ranks [-> [C [B S]]]].
      cbn [bind]. exists (Fin r :: ranks).
      split; [reflexivity |]. split; [| split].
      * constructor; [left; split; [reflexivity | exists r; reflexivity] |].
        exact C.
      * cbn [finite_values flat_map app]. constructor; [split; assumption |].
        eapply Forall_impl; [| exact B]. simpl. intros q [L1 L2].
        split; [apply (Qclt_trans _ _ _ Lo L1) | exact L2].
      * cbn [finite_values flat_map app]. constructor; [exact S |].
        eapply Forall_impl; [| exact B]. simpl. intros q [L1 _]. exact L1.
    + destruct (IH codes' P F' HP) as [ranks [-> [C [B S]]]].
      cbn [bind]. exists (NaN :: ranks).
      split; [reflexivity |]. split; [| split].
      * constructor; [right; split; [exact Nc | reflexivity] | exact C].
      * exact B.
      * exact S.
Qed.

Lemma indices_codes (cs : list Z) : forall pre,
  Forall2 (fun i ci => nth_error (pre ++ cs) i = Some ci)
          (seq (length pre) (length cs)) cs.
Proof.
  induction cs as [| c cs IH]; intros pre; [constructor |].
  cbn [length seq]. constructor.
  - rewrite nth_error_app2, Nat.sub_diag by lia. reflexivity.
  - specialize (IH (pre ++ [c])).
    rewrite <- app_assoc, length_app in IH. cbn [length app] in IH.
    replace (length pre + 1)%nat with (S (length pre)) in IH by lia.
    exact IH.
Qed.

(** X14: with one censoring code per time, [rank_adjust] gives [nan] to
    the censored entries and a number to the others, in time order; the
    numbers increase strictly and stay strictly between [0] and
    [n + 1]. *)
Theorem rank_adjust_ranks_grow {T : Type} `{Ordered T}
        (t : list T) (c : list Z) :
  length c = length t ->
  exists cs ranks,
    take c (argsort t) = Ok cs /\
    rank_adjust t (Some c) = Ok ranks /\
    Forall2 rank_at_code cs ranks /\
    Forall (fun q => 0 < q /\ q < qnat (S (length t))) (finite_values ranks) /\
    StronglySorted Qclt (finite_values ranks).
Proof.
  intros L. unfold rank_adjust, subscript.
  destruct (take_argsort t) as [t' [Et Pt]].
  destruct (@take_perm _ c (argsort t)) as [cs [Ecs Pcs]];
    [rewrite L; apply argsort_perm |].
  rewrite Et, Ecs. cbn [bind].
  pose proof (Permutation_length Pt) as Lt.
  pose proof (Permutation_length Pcs) as Lcs.
  assert (Ln : length cs = length t') by congruence.
  pose proof (indices_codes cs []) as F. cbn [app length] in F.
  rewrite Ln in F.
  destruct (@rank_loop_grows (length t') cs (seq 0 (length t')) cs 0)
    as [ranks [E [C [B S]]]].
  - eapply Forall2_impl; [| exact F]. simpl. intros i ci E.
    split; [exact E |]. rewrite <- Ln. apply nth_error_Some. congruence.
  - change (qz 0 < qz (Z.of_nat (S (length t')))). apply qz_lt. lia.
  - exists cs, ranks. change (of_Z 0) with (Fin 0). rewrite <- Lt.
    repeat split; assumption.
Qed.

Lemma rank_adjust_ranks_grow_witness :
  exists cs ranks,
    take [0; 1; 0; 0]%Z (argsort [7; 2; 9; 4]%Z) = Ok cs /\
    rank_adjust [7; 2; 9; 4]%Z (Some [0; 1; 0; 0]%Z) = Ok ranks /\
    Forall2 rank_at_code cs ranks /\
    Forall (fun q => 0 < q /\ q < qnat 5) (finite_values ranks) /\
    StronglySorted Qclt (finite_values ranks).
Proof.
  apply (@rank_adjust_ranks_grow Z _ [7; 2; 9; 4]%Z [0; 1; 0; 0]%Z).
  reflexivity.
Defined.

(** ** The order of the data does not matter *)

Section OrderIndependence.

Context {T : Type} `{Ordered T}.

Lemma ltb_irrefl (a : T) : ~ ltb a a.
Proof. unfold ltb. rewrite leb_refl. discriminate. Qed.

Lemma ltb_asym (a b : T) : ltb a b -> ltb b a -> False.
Proof.
  unfold ltb. intros E1 E2.
  destruct (leb_total a b); congruence.
Qed.

Lemma strictly_sorted_ext (l : list T) : forall l',
  StronglySorted ltb l -> StronglySorted ltb l' ->
  (forall a, In a l <-> In a l') -> l = l'.
Proof.
  induction l as [| a l IH]; intros [| b l'] S S' I.
  - reflexivity.
  - exfalso. apply (proj2 (I b)). left. reflexivity.
  - exfalso. apply (proj1 (I a)). left. reflexivity.
  - inversion S as [| ? ? Sl Fa]; subst.
    inversion S' as [| ? ? Sl' Fb]; subst.
    rewrite Forall_forall in Fa, Fb.
    assert (E : a = b).
    { destruct (proj1 (I a) (or_introl eq_refl)) as [E | Ia];
        [symmetry; exact E |].
      destruct (proj2 (I b) (or_introl eq_refl)) as [E | Ib];
        [exact E |].
      exfalso. apply (ltb_asym (Fa b Ib) (Fb a Ia)). }
    subst b. f_equal. apply IH; try assumption.
    intros c. split; intros Ic.
    + destruct (proj1 (I c) (or_intror Ic)) as [E | Ic']; [| exact Ic'].
      subst c. exfalso. apply (ltb_irrefl (Fa a Ic)).
    + destruct (proj2 (I c) (or_intror Ic)) as [E | Ic']; [| exact Ic'].
      subst c. exfalso. apply (ltb_irrefl (Fb a Ic)).
Qed.

Lemma np_unique_perm (x y : list T) :
  Permutation x y -> np_unique x = np_unique y.
Proof.
  intros P. apply strictly_sorted_ext; try apply np_unique_sorted.
  intros a. rewrite !np_unique_In. split; apply Permutation_in;
    [exact P | apply Permutation_sym, P].
Qed.

Lemma count_of_perm (x y : list T) (u : T) :
  Permutation x y -> count_of x u = count_of y u.
Proof.
  intros P. rewrite !count_of_sum. apply zsum_perm, Permutation_map, P.
Qed.

Lemma tally_perm (x y : list T) (c c' : list Z) (f : Z -> Z -> Z) (u : T) :
  length c = length x -> length c' = length y ->
  Permutation (combine x c) (combine y c') ->
  tally x c (fun _ => Ok 1%Z) f (seq 0 (length x)) u
  = tally y c' (fun _ => Ok 1%Z) f (seq 0 (length y)) u.
Proof.
  intros L L' P. rewrite !tally_unit_weight by assumption.
  apply zsum_perm, Permutation_map, P.
Qed.

Lemma map_fst_combine {A B : Type} (l : list A) (l' : list B) :
  length l' = length l -> map fst (combine l l') = l.
Proof.
  revert l'. induction l as [| a l IH]; intros [| b l'] L;
    try discriminate; [reflexivity |].
  injection L as L. simpl. f_equal. apply IH, L.
Qed.

End OrderIndependence.

(** X15: without counts the table does not depend on the order in which
    the data are given: reordering the times (together with their
    censoring codes, when there are any) leaves the table of the builder
    and the results of the three estimators unchanged. *)
Theorem data_order_is_irrelevant {T : Type} `{Ordered T}
        (x y : list T) (c c' : list Z) :
  (Permutation x y ->
   get_r_c_d x None None = get_r_c_d y None None /\
   nelson_aalen x None None = nelson_aalen y None None /\
   kaplan_meier x None None = kaplan_meier y None None /\
   fleming_harrington x None None = fleming_harrington y None None) /\
  (length c = length x -> length c' = length y ->
   Permutation (combine x c) (combine y c') ->
   get_r_c_d x (Some c) None = get_r_c_d y (Some c') None /\
   nelson_aalen x (Some c) None = nelson_aalen y (Some c') None /\
   kaplan_meier x (Some c) None = kaplan_meier y (Some c') None /\
   fleming_harrington x (Some c) None
   = fleming_harrington y (Some c') None).
Proof.
  split.
  - intros P.
    assert (E : get_r_c_d x None None = get_r_c_d y None None).
    { unfold get_r_c_d, np_unique_counts. cbn [bind].
      rewrite (np_unique_perm P), (Permutation_length P).
      rewrite (map_ext _ _ (fun u => @count_of_perm _ _ x y u P)).
      reflexivity. }
    unfold nelson_aalen, kaplan_meier, fleming_harrington, population.
    rewrite E, (Permutation_length P). repeat split; reflexivity.
  - intros L L' P.
    assert (Px : Permutation x y).
    { rewrite <- (map_fst_combine x c L), <- (map_fst_combine y c' L').
      apply Permutation_map, P. }
    assert (E : get_r_c_d x (Some c) None = get_r_c_d y (Some c') None).
    { rewrite (get_r_c_d_codes x c L), (get_r_c_d_codes y c' L').
      rewrite (map_ext _ _ (fun u => @tally_perm _ _ x y c c'
                 (fun ci w => ((1 - ci) * w)%Z) u L L' P)).
      rewrite (map_ext _ _ (fun u => @tally_perm _ _ x y c c'
                 (fun ci w => (ci * w)%Z) u L L' P)).
      rewrite (np_unique_perm Px), (Permutation_length Px).
      reflexivity. }
    unfold nelson_aalen, kaplan_meier, fleming_harrington, population.
    rewrite E, (Permutation_length Px). repeat split; reflexivity.
Qed.

Lemma data_order_is_irrelevant_witness :
  (get_r_c_d [5; 2; 5; 9]%Z None None = get_r_c_d [9; 5; 5; 2]%Z None None /\
   nelson_aalen [5; 2; 5; 9]%Z None None
   = nelson_aalen [9; 5; 5; 2]%Z None None /\
   kaplan_meier [5; 2; 5; 9]%Z None None
   = kaplan_meier [9; 5; 5; 2]%Z None None /\
   fleming_harrington [5; 2; 5; 9]%Z None None
   = fleming_harrington [9; 5; 5; 2]%Z None None) /\
  (get_r_c_d [5; 2; 5; 9]%Z (Some [0; 1; 1; 0]%Z) None
   = get_r_c_d [9; 5; 5; 2]%Z (Some [0; 1; 0; 1]%Z) None /\
   nelson_aalen [5; 2; 5; 9]%Z (Some [0; 1; 1; 0]%Z) None
   = nelson_aalen [9; 5; 5; 2]%Z (Some [0; 1; 0; 1]%Z) None /\
   kaplan_meier [5; 2; 5; 9]%Z (Some [0; 1; 1; 0]%Z) None
   = kaplan_meier [9; 5; 5; 2]%Z (Some [0; 1; 0; 1]%Z) None /\
   fleming_harrington [5; 2; 5; 9]%Z (Some [0; 1; 1; 0]%Z) None
   = fleming_harrington [9; 5; 5; 2]%Z (Some [0; 1; 0; 1]%Z) None).
Proof.
  destruct (data_order_is_irrelevant
              [5; 2; 5; 9]%Z [9; 5; 5; 2]%Z
              [0; 1; 1; 0]%Z [0; 1; 0; 1]%Z) as [P1 P2].
  split.
  - apply P1.
    apply (perm_trans (l' := [5; 2; 9; 5]%Z));
      [do 2 apply perm_skip; apply perm_swap |].
    apply (perm_trans (l' := [5; 9; 2; 5]%Z));
      [apply perm_skip, perm_swap |].
    apply (perm_trans (l' := [9; 5; 2; 5]%Z));
      [apply perm_swap |].
    do 2 apply perm_skip. apply perm_swap.
  - apply P2.
    + reflexivity.
    + reflexivity.
    + simpl.
      apply (perm_trans (l' := [(5, 0); (2, 1); (9, 0); (5, 1)]%Z));
        [do 2 apply perm_skip; apply perm_swap |].
      apply (perm_trans (l' := [(5, 0); (9, 0); (2, 1); (5, 1)]%Z));
        [apply perm_skip, perm_swap |].
      apply (perm_trans (l' := [(9, 0); (5, 0); (2, 1); (5, 1)]%Z));
        [apply perm_swap |].
      apply (perm_trans (l' := [(9, 0); (5, 0); (5, 1); (2, 1)]%Z));
        [do 2 apply perm_skip; apply perm_swap |].
      apply perm_skip, perm_swap.
Defined.

(** ** The Kaplan-Meier curve *)

Lemma unit_fraction (a r : Z) :
  (0 <= a <= r)%Z -> (1 <= r)%Z -> 0 <= qz a / qz r /\ qz a / qz r <= 1.
Proof.
  intros Ha Hr. unfold Qcle, qz.
  repeat (progress (unfold Qcdiv, Qcmult, Qcinv;
                    cbn [this Q2Qc]; rewrite ?Qred_correct)).
  change (this 1) with 1%Q. change (this 0) with 0%Q.
  assert (A0 : (0 <= inject_Z a)%Q) by (unfold Qle, inject_Z; simpl; lia).
  assert (A1 : (inject_Z a <= inject_Z r)%Q)
    by (unfold Qle, inject_Z; simpl; lia).
  assert (R0 : (0 < inject_Z r)%Q) by (unfold Qlt, inject_Z; simpl; lia).
  assert (I0 : (0 < / inject_Z r)%Q) by (apply Qinv_lt_0_compat, R0).
  assert (E : (inject_Z r * / inject_Z r == 1)%Q)
    by (apply Qmult_inv_r; lra).
  split; nra.
Qed.

Lemma unit_product (a f : Qc) :
  0 <= a -> 0 <= f -> f <= 1 -> 0 <= a * f /\ a * f <= a.
Proof.
  unfold Qcle.
  repeat (progress (unfold Qcmult; cbn [this Q2Qc]; rewrite ?Qred_correct)).
  change (this 1) with 1%Q. change (this 0) with 0%Q.
  intros Ha Hf Hf'. split; nra.
Qed.

Lemma km_factors_unit (r : list Z) : forall d,
  length d = length r ->
  (forall i ri di, nth_error r i = Some ri -> nth_error d i = Some di ->
                   (0 <= di <= ri)%Z /\ (1 <= ri)%Z) ->
  exists fs,
    map2 (fun a ri => Fin (qz a / qz ri)) (map2 Z.sub r d) r = map Fin fs /\
    length fs = length r /\
    Forall (fun f => 0 <= f /\ f <= 1) fs.
Proof.
  induction r as [| ri r IH]; intros [| di d] L C; try discriminate.
  - exists []. repeat split. constructor.
  - injection L as L.
    destruct (IH d L) as [fs [E [Lf F]]].
    { intros i a b Ea Eb. apply (C (S i) a b Ea Eb). }
    destruct (C 0%nat ri di eq_refl eq_refl) as [Hd Hr].
    exists (qz (ri - di) / qz ri :: fs). cbn [map2 map length].
    rewrite E, Lf. repeat split.
    constructor; [apply unit_fraction; lia | exact F].
Qed.

Lemma cumprod_bounds (fs : list Qc) : forall a,
  0 <= a -> Forall (fun f => 0 <= f /\ f <= 1) fs ->
  exists qs,
    fcumprod_from (Fin a) (map Fin fs) = map Fin qs /\
    Forall (fun q => 0 <= q /\ q <= a) qs /\
    StronglySorted (fun u v => v <= u) qs.
Proof.
  induction fs as [| f fs IH]; intros a Ha F.
  - exists []. repeat split; constructor.
  - inversion F as [| ? ? [Hf Hf'] F']; subst.
    destruct (unit_product Ha Hf Hf') as [P0 P1].
    destruct (IH (a * f) P0 F') as [qs [E [B S]]].
    exists (a * f :: qs). cbn [map fcumprod_from fmul]. rewrite E.
    split; [reflexivity |]. split.
    + constructor; [split; assumption |].
      apply (Forall_impl _ (P := fun q => 0 <= q /\ q <= a * f));
        [| exact B].
      intros q [Q0 Q1]. split; [exact Q0 |].
      apply (Qcle_trans _ _ _ Q1 P1).
    + constructor; [exact S |].
      apply (Forall_impl _ (P := fun q => 0 <= q /\ q <= a * f));
        [| exact B].
      intros q [_ Q1]. exact Q1.
Qed.

(** X16: on valid input without counts and with at least one time, the
    Kaplan-Meier estimate is a survival curve: every value of [R] is a
    finite number between 0 and 1, there is one per distinct time, and
    the values never increase. *)
Theorem kaplan_meier_survival_curve {T : Type} `{Ordered T}
        (x : list T) (censored : option (list Z)) :
  valid_input x censored None -> x <> [] ->
  exists km qs,
    kaplan_meier x censored None = Ok km /\
    out_R km = Some (map Fin qs) /\
    length qs = length (np_unique x) /\
    Forall (fun q => 0 <= q /\ q <= 1) qs /\
    StronglySorted (fun u v => v <= u) qs.
Proof.
  intros V Nx.
  destruct (get_r_c_d_valid V no_overflow_None)
    as [x' [d [c [E [Ld [Lc [Pd [Pc S]]]]]]]].
  pose proof (get_r_c_d_risk_positive V E) as P. cbn [tr] in P.
  destruct (@table_invariants (population x None) d c)
    as [Lr [_ C]]; try assumption; [congruence | lia |].
  destruct (get_r_c_d_shape (proj1 V))
    as [x2 [d2 [c2 [E2 [_ [_ [I [_ [St _]]]]]]]]].
  assert (Ex : x2 = x') by congruence. subst x2.
  assert (Eu : x' = np_unique x).
  { apply strictly_sorted_ext; [apply St; right; reflexivity
                               | apply np_unique_sorted |].
    intros a. rewrite np_unique_In. apply I. }
  set (r := risk_set (population x None) d c) in *.
  destruct (@km_factors_unit r d) as [fs [Ef [Lf Ff]]];
    [congruence | |].
  { intros i ri di Er Ed.
    assert (Hi : (i < length c)%nat).
    { rewrite Lc, <- Ld. apply nth_error_Some. congruence. }
    destruct (nth_error c i) as [ci |] eqn:Ec;
      [| apply nth_error_None in Ec; lia].
    pose proof (C i ri di ci Er Ed Ec) as B.
    pose proof (Forall_nth_error _ Pd Ed) as D0.
    pose proof (Forall_nth_error _ Pc Ec) as C0.
    pose proof (Forall_nth_error _ P Er) as R1.
    cbv beta in D0, C0, R1. lia. }
  unfold kaplan_meier. rewrite E. cbn [bind]. fold r.
  change (risk_minus censored None) with Z.sub.
  rewrite (hazards_finite (map2 Z.sub r d) P), Ef.
  destruct fs as [| f0 fs].
  { exfalso. destruct x as [| a x]; [contradiction |].
    assert (Ia : In a x') by (apply I; left; reflexivity).
    destruct x'; [contradiction |]. simpl in Lf, Ld. lia. }
  inversion Ff as [| ? ? [F0 F1] Ff']; subst.
  destruct (cumprod_bounds F0 Ff') as [qs [Eq [B Ss]]].
  cbn [map fcumprod]. rewrite Eq.
  cbn [getitem nth_error bind].
  eexists. exists (f0 :: qs). split; [reflexivity |].
  split; [reflexivity |]. split.
  - assert (Lq : length qs = length fs).
    { rewrite <- (length_map Fin qs), <- Eq, fcumprod_from_length.
      apply length_map. }
    cbn [length] in *. lia.
  - split.
    + constructor; [split; assumption |].
      apply (Forall_impl _ (P := fun q => 0 <= q /\ q <= f0)); [| exact B].
      intros q [Q0 Q1]. split; [exact Q0 |].
      apply (Qcle_trans _ _ _ Q1 F1).
    + constructor; [exact Ss |].
      apply (Forall_impl _ (P := fun q => 0 <= q /\ q <= f0)); [| exact B].
      intros q [_ Q1]. exact Q1.
Qed.

Lemma kaplan_meier_survival_curve_witness :
  exists km qs,
    kaplan_meier [4; 9; 4; 6]%Z (Some [0; 1; 1; 0]%Z) None = Ok km /\
    out_R km = Some (map Fin qs) /\
    length qs = length (np_unique [4; 9; 4; 6]%Z) /\
    Forall (fun q => 0 <= q /\ q <= 1) qs /\
    StronglySorted (fun u v => v <= u) qs.
Proof.
  apply (@kaplan_meier_survival_curve Z _ [4; 9; 4; 6]%Z
           (Some [0; 1; 1; 0]%Z)).
  - repeat split; intros l E; try discriminate; injection E as <-;
      try reflexivity; repeat constructor; lia.
  - discriminate.
Defined.

(** ** Cumulative hazards *)

Lemma qc_le_add (a h : Qc) : 0 <= h -> a <= a + h.
Proof.
  unfold Qcle.
  repeat (progress (unfold Qcplus; cbn [this Q2Qc]; rewrite ?Qred_correct)).
  change (this 0) with 0%Q. intros Hh. lra.
Qed.

Lemma inv_antitone (a b : Z) :
  (1 <= a <= b)%Z -> 1 / qz b <= 1 / qz a.
Proof.
  intros Hab. destruct (Z.eq_dec a b) as [-> | N]; [apply Qcle_refl |].
  unfold Qcle, qz.
  repeat (progress (unfold Qcdiv, Qcmult, Qcinv;
                    cbn [this Q2Qc]; rewrite ?Qred_correct)).
  change (this 1) with 1%Q.
  assert (A0 : (0 < inject_Z a)%Q) by (unfold Qlt, inject_Z; simpl; lia).
  assert (B0 : (0 < inject_Z b)%Q) by (unfold Qlt, inject_Z; simpl; lia).
  assert (AB : (inject_Z a < inject_Z b)%Q)
    by (unfold Qlt, inject_Z; simpl; lia).
  apply (Qinv_lt_contravar _ _ A0 B0) in AB. lra.
Qed.

Lemma harmonic_terms_bound (r : Z) (n : nat) : forall s : nat,
  (Z.of_nat s + Z.of_nat n <= r)%Z ->
  qnat n / qz r
  <= qsum (map (fun j => 1 / qz (r - j)) (map Z.of_nat (seq s n))).
Proof.
  induction n as [| n IH]; intros s B.
  - cbn [seq map qsum fold_right]. unfold Qcdiv.
    change (qnat 0) with (Q2Qc 0). rewrite Qcmult_0_l. apply Qcle_refl.
  - cbn [seq map]. change (qsum (?a :: ?l)) with (a + qsum l).
    replace (qnat (S n) / qz r) with (1 / qz r + qnat n / qz r)
      by (rewrite qnat_S; unfold Qcdiv; ring).
    apply Qcplus_le_compat; [apply inv_antitone; lia | apply IH; lia].
Qed.

Lemma hazard_le_harmonic (r d : Z) :
  (0 <= d <= r)%Z ->
  0 <= qz d / qz r /\
  qz d / qz r <= qsum (map (fun j => 1 / qz (r - j)) (range d)).
Proof.
  intros B. split.
  - destruct (Z.eq_dec r 0) as [-> | N].
    + assert (d = 0%Z) by lia. subst d. apply Qcle_refl.
    + apply unit_fraction; lia.
  - unfold range.
    replace (qz d) with (qnat (Z.to_nat d))
      by (unfold qnat; rewrite Z2Nat.id by lia; reflexivity).
    apply harmonic_terms_bound. lia.
Qed.

Lemma hazard_pairs (r : list Z) : forall d,
  (forall i ri di, nth_error r i = Some ri -> nth_error d i = Some di ->
                   (0 <= di <= ri)%Z) ->
  exists hs hs',
    map2 (fun di ri => Fin (qz di / qz ri)) d r = map Fin hs /\
    map2 (fun ri di =>
            Fin (qsum (map (fun j => 1 / qz (ri - j)) (range di)))) r d
    = map Fin hs' /\
    Forall (fun h => 0 <= h) hs /\ Forall2 Qcle hs hs'.
Proof.
  induction r as [| ri r IH]; intros [| di d] C;
    try (exists [], []; repeat split; constructor).
  destruct (IH d) as [hs [hs' [E [E' [F F2]]]]].
  { intros i a b Ea Eb. apply (C (S i) a b Ea Eb). }
  destruct (hazard_le_harmonic (C 0%nat ri di eq_refl eq_refl)) as [H0 H1].
  exists (qz di / qz ri :: hs).
  exists (qsum (map (fun j => 1 / qz (ri - j)) (range di)) :: hs').
  cbn [map2 map]. rewrite E, E'. repeat split; constructor; assumption.
Qed.

Lemma cumsum_pairs (hs hs' : list Qc) : Forall2 Qcle hs hs' ->
  forall a a', a <= a' -> Forall (fun h => 0 <= h) hs ->
  exists qs qs',
    fcumsum_from (Fin a) (map Fin hs) = map Fin qs /\
    fcumsum_from (Fin a') (map Fin hs') = map Fin qs' /\
    Forall (fun q => a <= q) qs /\ StronglySorted Qcle qs /\
    Forall (fun q => a' <= q) qs' /\ StronglySorted Qcle qs' /\
    Forall2 Qcle qs qs'.
Proof.
  induction 1 as [| h h' hs hs' Hh F2 IH]; intros a a' Ha F.
  - exists [], []. repeat split; constructor.
  - inversion F as [| ? ? H0 F']; subst.
    assert (H0' : 0 <= h') by (apply (Qcle_trans _ _ _ H0 Hh)).
    destruct (IH (a + h) (a' + h') (Qcplus_le_compat _ _ _ _ Ha Hh) F')
      as [qs [qs' [E [E' [B [S [B' [S' L]]]]]]]].
    exists (a + h :: qs), (a' + h' :: qs').
    cbn [map fcumsum_from fadd]. rewrite E, E'.
    pose proof (qc_le_add a H0) as A1. pose proof (qc_le_add a' H0') as A1'.
    repeat split.
    + constructor; [exact A1 |].
      apply (Forall_impl _ (P := fun q => a + h <= q)); [| exact B].
      intros q Q. apply (Qcle_trans _ _ _ A1 Q).
    + constructor; assumption.
    + constructor; [exact A1' |].
      apply (Forall_impl _ (P := fun q => a' + h' <= q)); [| exact B'].
      intros q Q. apply (Qcle_trans _ _ _ A1' Q).
    + constructor; assumption.
    + constructor; [apply Qcplus_le_compat; assumption | assumption].
Qed.

(** X17: on valid input without counts, where [d] is an integer array
    (integer times, or no censoring codes) so that Fleming-Harrington
    returns, the cumulative hazards [H] of Nelson-Aalen and of
    Fleming-Harrington are finite, start at or above zero and never
    decrease, and at every time the Fleming-Harrington value is at least
    the Nelson-Aalen value.  The comparison is one of the exact values;
    float64 rounding is not modelled. *)
Theorem cumulative_hazards_grow {T : Type} `{Ordered T}
        (x : list T) (censored : option (list Z)) :
  valid_input x censored None -> d_floating censored = false ->
  exists na fh Hn Hf,
    nelson_aalen x censored None = Ok na /\
    fleming_harrington x censored None = Ok fh /\
    out_H na = Some (map Fin Hn) /\ out_H fh = Some (map Fin Hf) /\
    Forall (fun q => 0 <= q) Hn /\
    StronglySorted Qcle Hn /\ StronglySorted Qcle Hf /\
    Forall2 Qcle Hn Hf.
Proof.
  intros V DF.
  destruct (get_r_c_d_valid V no_overflow_None)
    as [x' [d [c [E [Ld [Lc [Pd [Pc S]]]]]]]].
  pose proof (get_r_c_d_risk_positive V E) as P. cbn [tr] in P.
  destruct (@table_invariants (population x None) d c)
    as [Lr [_ C]]; try assumption; [congruence | lia |].
  set (r := risk_set (population x None) d c) in *.
  assert (B : forall i ri di, nth_error r i = Some ri ->
                              nth_error d i = Some di -> (0 <= di <= ri)%Z).
  { intros i ri di Er Ed.
    assert (Hi : (i < length c)%nat).
    { rewrite Lc, <- Ld. apply nth_error_Some. congruence. }
    destruct (nth_error c i) as [ci |] eqn:Ec;
      [| apply nth_error_None in Ec; lia].
    pose proof (C i ri di ci Er Ed Ec) as B.
    pose proof (Forall_nth_error _ Pd Ed) as D0.
    pose proof (Forall_nth_error _ Pc Ec) as C0.
    cbv beta in D0, C0. lia. }
  destruct (hazard_pairs r d B) as [hs [hs' [Eh [Eh' [F F2]]]]].
  unfold nelson_aalen, fleming_harrington. rewrite E. cbn [bind]. fold r.
  rewrite DF, (fh_hazards_exact None r d) by reflexivity. cbn [bind].
  rewrite (hazards_finite d P), Eh.
  rewrite (fh_terms_finite r d) by (intros i ri di Er Ed;
                                    apply (B i ri di Er Ed)).
  rewrite Eh'.
  destruct F2 as [| h h' hs hs' Hh F2].
  - eexists. eexists. exists [], [].
    repeat split; constructor.
  - inversion F as [| ? ? H0 F']; subst.
    destruct (cumsum_pairs F2 Hh F')
      as [qs [qs' [Eq [Eq' [Bq [Sq [Bq' [Sq' L]]]]]]]].
    eexists. eexists. exists (h :: qs), (h' :: qs').
    cbn [map fcumsum out_H]. rewrite Eq, Eq'.
    split; [reflexivity |]. split; [reflexivity |].
    split; [reflexivity |]. split; [reflexivity |].
    split.
    + constructor; [exact H0 |].
      apply (Forall_impl _ (P := fun q => h <= q)); [| exact Bq].
      intros q Q. apply (Qcle_trans _ _ _ H0 Q).
    + repeat split; constructor; assumption.
Qed.

Lemma cumulative_hazards_grow_witness :
  exists na fh Hn Hf,
    nelson_aalen [4; 9; 4; 6]%Z (Some [0; 1; 0; 0]%Z) None = Ok na /\
    fleming_harrington [4; 9; 4; 6]%Z (Some [0; 1; 0; 0]%Z) None = Ok fh /\
    out_H na = Some (map Fin Hn) /\ out_H fh = Some (map Fin Hf) /\
    Forall (fun q => 0 <= q) Hn /\
    StronglySorted Qcle Hn /\ StronglySorted Qcle Hf /\
    Forall2 Qcle Hn Hf.
Proof.
  apply (@cumulative_hazards_grow Z _ [4; 9; 4; 6]%Z (Some [0; 1; 0; 0]%Z)).
  - repeat split; intros l E; try discriminate; injection E as <-;
      try reflexivity; repeat constructor; lia.
  - reflexivity.
Defined.

(** ** Zero codes and plotting positions *)

Lemma Forall2_map_in {A B : Type} (R : B -> B -> Prop) (f g : A -> B)
      (l : list A) :
  (forall a, In a l -> R (f a) (g a)) -> Forall2 R (map f l) (map g l).
Proof.
  induction l as [| a l IH]; intros F; [constructor |].
  cbn [map]. constructor; [apply F; left; reflexivity |].
  apply IH. intros b Ib. apply F. right. exact Ib.
Qed.

Lemma positions_differ (A B : Q) (n i : nat) :
  In (A, B) (map snd formula_table) -> (i < n)%nat ->
  fdiv (fsub (mean_order_rank n i) (of_Q A)) (fadd (of_nat n) (of_Q B))
  <> fdiv (fsub (of_nat (S i)) (of_Q A)) (fadd (of_nat n) (of_Q B)).
Proof.
  intros I Hi.
  pose proof (@mean_order_rank_not_plain n i) as NP.
  unfold mean_order_rank in *.
  remember (qnat (S i) * (qnat (S n) / qnat (S (S n)))) as r eqn:Er.
  change (of_nat (S i)) with (Fin (qnat (S i))) in *.
  change (of_nat n) with (Fin (qnat n)).
  unfold of_Q, fsub, fneg, fadd, fdiv.
  destruct (qzero (qnat n + Q2Qc B)) eqn:Dz.
  - apply qzero_spec in Dz. unfold qnat, Qcplus in Dz.
    apply (proj1 (Q2Qc_eq_iff _ _)) in Dz.
    cbn [this Q2Qc] in Dz. rewrite !Qred_correct in Dz.
    unfold formula_table in I. cbn [map snd] in I.
    repeat (destruct I as [I | I];
            [injection I as <- <-;
             unfold Qeq in Dz; cbn in Dz;
             first [ exfalso; lia
                   | assert (n = 1%nat) by lia; subst n;
                     assert (i = 0%nat) by lia; subst i r;
                     vm_compute; discriminate ] |]).
    contradiction.
  - intros E. apply Fin_inj in E.
    assert (ND : qnat n + Q2Qc B <> 0).
    { intros Z0. rewrite Z0 in Dz. discriminate. }
    pose proof (Qcmult_div_r (r + - Q2Qc A) _ ND) as M.
    rewrite E, (Qcmult_div_r (qnat (S i) + - Q2Qc A) _ ND) in M.
    apply NP. f_equal.
    transitivity (r + - Q2Qc A + Q2Qc A); [ring |].
    rewrite <- M. ring.
Qed.

(** X18: for plotting positions, censoring codes that are all zero are
    not the same as no censoring codes: with a formula of the table both
    calls return one position per time, and the two positions differ at
    every time. *)
Theorem zero_codes_change_positions {T : Type} `{Ordered T}
        (t : list T) (formula : string) :
  known_formula formula ->
  exists pz pn,
    plotting_positions t (Some (repeat 0%Z (length t))) formula = Ok pz /\
    plotting_positions t None formula = Ok pn /\
    length pz = length t /\ length pn = length t /\
    Forall2 (fun a b => a <> b) pz pn.
Proof.
  intros K. unfold known_formula in K. apply in_map_iff in K.
  destruct K as [[name [A B]] [E I]]. simpl in E. subst name.
  unfold plotting_positions, ranks_of.
  rewrite rank_adjust_uncensored, (formula_constants_table I).
  cbn [bind]. eexists. eexists.
  split; [reflexivity |]. split; [reflexivity |].
  unfold positions. rewrite !length_map, !length_seq.
  split; [reflexivity |]. split; [reflexivity |].
  rewrite <- seq_shift, !map_map.
  apply Forall2_map_in. intros i Hi. apply in_seq in Hi.
  apply positions_differ; [| lia].
  apply in_map_iff. exists (formula, (A, B)). split; [reflexivity | exact I].
Qed.

Lemma zero_codes_change_positions_witness :
  exists pz pn,
    plotting_positions [7; 3; 5]%Z (Some (repeat 0%Z 3)) "Blom" = Ok pz /\
    plotting_positions [7; 3; 5]%Z None "Blom" = Ok pn /\
    length pz = 3%nat /\ length pn = 3%nat /\
    Forall2 (fun a b => a <> b) pz pn.
Proof.
  apply (@zero_codes_change_positions Z _ [7; 3; 5]%Z "Blom").
  unfold known_formula. simpl. tauto.
Defined.
